(** * audiosync: landmark-based delay estimation between two recordings

    A shallow embedding of [audiosync/impl.py] (functions
    [fourier_magnitudes], [rolling_window], [to_peaks], [synchronize]) and
    the properties of its four stages: framer, spectral analyzer, peak
    selector and delay estimator.

    Python values are modelled as follows.
    - [int] and [numpy.int64] indices are [Z].  Window indices come from
      [np.arange(num_windows)], so they lie in [0, len(signal)] and the
      differences formed by [synchronize] cannot leave the 64-bit range;
      no wrap-around arises.
    - [dict] is an association list in insertion order (the iteration order
      of a Python dict), see [Dict].
    - numpy's numerical kernel (sample type, FFT, complex modulus, decimal
      rounding, comparison of floats) is the interface [Numpy]; the program
      is written over any implementation of it, and [RealNumpy] is its
      reading in exact real arithmetic.
    - a call either returns, raises an exception, or reads through a strided
      view outside the buffer it was built on ([result]).
    - integers are Python's, without a bound.  numpy converts the shape and
      the byte strides of a view, and the divisor of a [numpy.int64], to
      64-bit integers and refuses what does not fit (OverflowError, or
      ValueError for an array that is too big); these refusals are not
      modelled.  A property that asserts an outcome is therefore stated
      where they cannot arise: where the dimensions and the strides of the
      view are bounded by the size of the signal (as they are for
      [0 <= overlap < window_size]) and the parameters are within 64 bits
      ([int64]).  A property of the form "when the call returns, ...", or
      one that equates the outcomes of two calls on the same view, needs no
      such bound.
    - a signal is an [ndarray], as [read_audio] returns it: [rolling_window]
      reads [arr.strides], which a plain list does not have. *)

From Stdlib Require Import String List ZArith Lia Bool Permutation Sorted.
From Stdlib Require Import Reals Lra.
Import ListNotations.
Open Scope Z_scope.

(** ** Outcomes of a call *)

(** Exceptions are identified by the name of their class. *)
Definition exn := string.

Definition ValueError : exn := "ValueError"%string.
Definition ZeroDivisionError : exn := "ZeroDivisionError"%string.
Definition KeyError : exn := "KeyError"%string.

Definition MalformedFrame : exn := "MalformedFrame"%string.
Definition NoCommonLandmarks : exn := "NoCommonLandmarks"%string.

Inductive result (A : Type) : Type :=
| Ok (a : A)
| Raise (e : exn)
| OutOfBuffer. (* an element of an [as_strided] view lying outside its buffer was read *)

Arguments Ok {A} a.
Arguments Raise {A} e.
Arguments OutOfBuffer {A}.

Definition bind {A B : Type} (c : result A) (k : A -> result B) : result B :=
  match c with
  | Ok a => k a
  | Raise e => Raise e
  | OutOfBuffer => OutOfBuffer
  end.

Notation "x <- c ;; k" := (bind c (fun x => k))
  (at level 61, c at next level, right associativity).
Notation "' pat <- c ;; k" := (bind c (fun x => match x with pat => k end))
  (at level 61, pat pattern, c at next level, right associativity).

(** [for x in xs: s = body(s, x)], stopping at the first failure. *)
Fixpoint foreach {A S : Type} (xs : list A) (body : S -> A -> result S) (s : S)
  : result S :=
  match xs with
  | [] => Ok s
  | x :: rest => s' <- body s x ;; foreach rest body s'
  end.

(** [[f(x) for x in xs]], stopping at the first failure. *)
Fixpoint traverse {A B : Type} (f : A -> result B) (xs : list A) : result (list B) :=
  match xs with
  | [] => Ok []
  | x :: rest => y <- f x ;; ys <- traverse f rest ;; Ok (y :: ys)
  end.

(** [range(n)]; empty when [n <= 0]. *)
Definition range (n : Z) : list Z := map Z.of_nat (seq 0 (Z.to_nat n)).

(** [enumerate(xs)]. *)
Definition enumerate {A : Type} (xs : list A) : list (Z * A) :=
  combine (range (Z.of_nat (length xs))) xs.

(** [a // b] on Python integers. *)
Definition py_floordiv (a b : Z) : result Z :=
  if b =? 0 then Raise ZeroDivisionError else Ok (a / b).

(** [a // b] when [a] is a [numpy.int64]: floor division, and [0] (with a
    RuntimeWarning, no exception) when [b] is zero.  This is [Z.div]. *)
Definition np_floor_divide (a b : Z) : Z := a / b.

(** ** Python dictionaries, in insertion order *)

Module Dict.
Section Dict.
Context {K V : Type}.
Variable K_eq_dec : forall x y : K, {x = y} + {x <> y}.

Definition t (V' : Type) : Type := list (K * V').

(** [d.get(k)] *)
Fixpoint get {V' : Type} (d : t V') (k : K) : option V' :=
  match d with
  | [] => None
  | (k', v) :: d' => if K_eq_dec k k' then Some v else get d' k
  end.

(** [k in d] *)
Definition contains {V' : Type} (d : t V') (k : K) : bool :=
  match get d k with Some _ => true | None => false end.

(** [d[k]] *)
Definition getitem {V' : Type} (d : t V') (k : K) : result V' :=
  match get d k with Some v => Ok v | None => Raise KeyError end.

(** [d.get(k, default)] *)
Definition get_default {V' : Type} (d : t V') (k : K) (default : V') : V' :=
  match get d k with Some v => v | None => default end.

(** [d[k] = v]: an existing key keeps its position, a new key goes last. *)
Fixpoint set {V' : Type} (d : t V') (k : K) (v : V') : t V' :=
  match d with
  | [] => [(k, v)]
  | (k', v') :: d' =>
      if K_eq_dec k k' then (k', v) :: d' else (k', v') :: set d' k v
  end.

(** [d.setdefault(k, []).append(x)] *)
Fixpoint setdefault_append (d : t (list V)) (k : K) (x : V) : t (list V) :=
  match d with
  | [] => [(k, [x])]
  | (k', l) :: d' =>
      if K_eq_dec k k' then (k', l ++ [x]) :: d'
      else (k', l) :: setdefault_append d' k x
  end.

(** The dictionary built by [d.setdefault(key(x), []).append(val(x))] over a
    list [xs], starting from [d]. *)
Definition grouped {A : Type} (key : A -> K) (val : A -> V) (xs : list A)
  (d : t (list V)) : t (list V) :=
  fold_left (fun d x => setdefault_append d (key x) (val x)) xs d.

(** [key(x) == k] *)
Definition with_key {A : Type} (key : A -> K) (k : K) (x : A) : bool :=
  if K_eq_dec (key x) k then true else false.

(** [list(d)]: the keys, in insertion order. *)
Definition keys {V' : Type} (d : t V') : list K := map fst d.

(** The running maximum of [max(iterable, key=...)]: a later element
    replaces the current one only when its key is strictly greater. *)
Fixpoint max_from (key : K -> Z) (best : K) (rest : list K) : K :=
  match rest with
  | [] => best
  | k :: rest' =>
      if key best <? key k then max_from key k rest' else max_from key best rest'
  end.

(** [max(d, key=d.get)] for a dictionary of counts. *)
Definition max_by_value (d : t Z) : result K :=
  match keys d with
  | [] => Raise ValueError
  | k :: rest => Ok (max_from (fun k' => get_default d k' 0) k rest)
  end.
End Dict.
End Dict.

Definition bin_eq_dec (x y : Z * Z) : {x = y} + {x <> y}.
Proof. decide equality; apply Z.eq_dec. Defined.

(** ** numpy's numerical kernel *)

Class Numpy : Type := {
  float : Type;                                (* numpy.float64 / float32 *)
  complex : Type;                              (* numpy.complex128 *)
  fzero : float;                               (* the constant [0] *)
  fft_coef : list float -> nat -> complex;     (* [np.fft.fft(x)[k]], [x] not empty *)
  np_abs : complex -> float;                   (* [np.abs] on one coefficient *)
  np_round : float -> Z -> float;              (* [np.round(x, decimals)] on one value *)
  float_lt : float -> float -> bool            (* [x < y] *)
}.

(** What the properties of the program use of the kernel: [<] is a strict
    weak order (no NaN among the compared magnitudes), a modulus is not
    below zero, and rounding a value that is not below zero gives one that
    is not below zero. *)
Class NumpyLaws (N : Numpy) : Prop := {
  float_lt_asym : forall x y : float, float_lt x y = true -> float_lt y x = false;
  float_lt_negtrans : forall x y z : float,
    float_lt x y = false -> float_lt y z = false -> float_lt x z = false;
  np_abs_nonneg : forall c : complex, float_lt (np_abs c) fzero = false;
  np_round_nonneg : forall (x : float) (d : Z),
    float_lt x fzero = false -> float_lt (np_round x d) fzero = false
}.

(** *** The kernel in exact real arithmetic *)

Module RealKernel.
Open Scope R_scope.

(** The discrete Fourier transform: coefficient [k] of [x] is the sum of
    [x_j * exp(-2 pi i j k / n)], as a pair (real part, imaginary part). *)
Definition angle (n j k : nat) : R := 2 * PI * INR j * INR k / INR n.

Definition dft_coef (x : list R) (k : nat) : R * R :=
  let n := length x in
  fold_right
    (fun '(j, xj) '(re, im) =>
       (re + xj * cos (angle n j k), im - xj * sin (angle n j k)))
    (0, 0) (combine (seq 0 n) x).

Definition modulus (c : R * R) : R := sqrt (fst c * fst c + snd c * snd c).

(** Round to the nearest integer, halves to the even neighbour. *)
Definition rint (x : R) : Z :=
  let f := Int_part x in
  let d := frac_part x in
  if Rlt_dec d (1 / 2) then f
  else if Rlt_dec (1 / 2) d then (f + 1)%Z
  else if Z.even f then f else (f + 1)%Z.

Definition round_decimals (x : R) (decimals : Z) : R :=
  IZR (rint (x * powerRZ 10 decimals)) / powerRZ 10 decimals.

Definition lt (x y : R) : bool := if Rlt_dec x y then true else false.
End RealKernel.

#[export] Instance RealNumpy : Numpy := {|
  float := R;
  complex := R * R;
  fzero := 0%R;
  fft_coef := RealKernel.dft_coef;
  np_abs := RealKernel.modulus;
  np_round := RealKernel.round_decimals;
  float_lt := RealKernel.lt
|}.

(** ** The program *)

Section Program.
Context {N : Numpy}.

(** *** Spectral analyzer *)

(** [np.fft.fft(signal)]: one coefficient per sample; numpy refuses an
    empty input ("Invalid number of FFT data points (0) specified"). *)
Definition np_fft_fft (signal : list float) : result (list complex) :=
  match signal with
  | [] => Raise ValueError
  | _ :: _ => Ok (map (fft_coef signal) (seq 0 (length signal)))
  end.

Definition fourier_magnitudes (signal : list float) : result (list float) :=
  fft <- np_fft_fft signal ;;
  let length := Z.of_nat (length fft) in
  let mag := map np_abs fft in
  let mag := firstn (Z.to_nat (length / 2)) mag in
  let mag := map (fun x => np_round x 2) mag in
  Ok mag.

(** *** Framer *)

(** [np.pad(arr, (0, padding), constant_values=0)] *)
Definition np_pad (arr : list float) (padding : Z) : list float :=
  arr ++ repeat fzero (Z.to_nat padding).

(** A two-dimensional strided view on a one-dimensional buffer.  Strides are
    counted in elements (the source counts them in bytes, [num_bytes] per
    element). *)
Record view : Type := {
  buffer : list float;
  shape : Z * Z;
  strides : Z * Z
}.

(** Element [(i, j)] of a view. *)
Definition item (v : view) (i j : Z) : result float :=
  let offset := i * fst (strides v) + j * snd (strides v) in
  if (0 <=? offset) && (offset <? Z.of_nat (length (buffer v))) then
    match nth_error (buffer v) (Z.to_nat offset) with
    | Some x => Ok x
    | None => OutOfBuffer
    end
  else OutOfBuffer.

(** Row [i] of a view. *)
Definition row (v : view) (i : Z) : result (list float) :=
  traverse (item v i) (range (snd (shape v))).

(** [np.lib.stride_tricks.as_strided(arr, shape, strides)]: numpy refuses
    a negative dimension.  (It also refuses dimensions and byte strides
    that do not fit 64 bits; see the note on integers above.) *)
Definition as_strided (arr : list float) (shape strides : Z * Z) : result view :=
  if (fst shape <? 0) || (snd shape <? 0) then Raise ValueError
  else Ok {| buffer := arr; shape := shape; strides := strides |}.

Definition rolling_window (arr : list float) (window_size overlap : Z) (pad : bool)
  : result (view * Z) :=
  let length := Z.of_nat (length arr) in
  let step_size := window_size - overlap in
  q <- py_floordiv (length - window_size) step_size ;;
  let num_windows := q + 1 in
  let arr :=
    if pad then
      let padding := Z.max 0 ((num_windows - 1) * step_size + window_size - length) in
      np_pad arr padding
    else arr in
  let num_bytes := 1 in
  let shape := (num_windows, window_size) in
  let strides := (step_size * num_bytes, num_bytes) in
  rolled_view <- as_strided arr shape strides ;;
  Ok (rolled_view, num_windows).

(** *** Peak selector *)

(** A peak record [(value, window_index, frequency_index)]. *)
Definition peak : Type := float * Z * Z.

Definition peak_value (p : peak) : float := fst (fst p).
Definition peak_window (p : peak) : Z := snd (fst p).
Definition peak_frequency (p : peak) : Z := snd p.

(** [np.apply_along_axis(f, axis=1, arr=v)]: numpy refuses an array with
    no row; otherwise [f] is applied to the rows in order. *)
Definition np_apply_along_axis (f : list float -> result (list float)) (v : view)
  : result (list (list float)) :=
  if fst (shape v) =? 0 then Raise ValueError
  else traverse (fun i => r <- row v i ;; f r) (range (fst (shape v))).

(** [sorted(xs, key=key, reverse=True)]: decreasing keys, elements with
    equal keys in their original order. *)
Fixpoint insert_desc {A : Type} (key : A -> float) (x : A) (sorted : list A) : list A :=
  match sorted with
  | [] => [x]
  | y :: rest =>
      if float_lt (key x) (key y) then y :: insert_desc key x rest
      else x :: sorted
  end.

Definition sorted_reverse {A : Type} (key : A -> float) (xs : list A) : list A :=
  fold_right (insert_desc key) [] xs.

(** [heapq.nlargest(n, xs, key=key)], documented as equivalent to
    [sorted(xs, key=key, reverse=True)[:n]]; empty when [n <= 0]. *)
Definition nlargest {A : Type} (n : Z) (xs : list A) (key : A -> float) : list A :=
  firstn (Z.to_nat n) (sorted_reverse key xs).

(** The first loop of [to_peaks]: the spectro-temporal bins. *)
Definition make_bins (windows_indices : list Z) (magnitudes : list (list float))
  (spectral_band temporal_band : Z) : result (Dict.t (K:=Z * Z) (list peak)) :=
  foreach (combine windows_indices magnitudes)
    (fun bins '(window_index, values) =>
       foreach (enumerate values)
         (fun bins '(frequency_index, value) =>
            let tup := (value, window_index, frequency_index) in
            spectral_block <- py_floordiv frequency_index spectral_band ;;
            let bin := (np_floor_divide window_index temporal_band, spectral_block) in
            Ok (Dict.setdefault_append bin_eq_dec bins bin tup))
         bins)
    [].

(** The second loop of [to_peaks]: the peaks of each bin. *)
Definition select_peaks (bins : Dict.t (K:=Z * Z) (list peak)) (peaks_per_bin : Z)
  : Dict.t (K:=Z) (list Z) :=
  fold_left
    (fun peaks '(bin, bin_magnitudes) =>
       let max_intensities := nlargest peaks_per_bin bin_magnitudes peak_value in
       fold_left
         (fun peaks '(value, window_index, frequency_index) =>
            Dict.setdefault_append Z.eq_dec peaks frequency_index window_index)
         max_intensities peaks)
    bins [].

Definition to_peaks (signal : list float)
  (window_size overlap spectral_band temporal_band peaks_per_bin : Z)
  : result (Dict.t (K:=Z) (list Z)) :=
  '(windows, num_windows) <- rolling_window signal window_size overlap true ;;
  magnitudes <- np_apply_along_axis fourier_magnitudes windows ;;
  let windows_indices := range num_windows in
  bins <- make_bins windows_indices magnitudes spectral_band temporal_band ;;
  Ok (select_peaks bins peaks_per_bin).

(** *** Delay estimator *)

(** Lines 142-145 of [synchronize]: the pairs of frames to compare. *)
Definition make_pairs (base_peaks other_peaks : Dict.t (K:=Z) (list Z))
  : result (list (Z * Z)) :=
  foreach (Dict.keys other_peaks)
    (fun pairs key =>
       if Dict.contains Z.eq_dec base_peaks key then
         others <- Dict.getitem Z.eq_dec other_peaks key ;;
         bases <- Dict.getitem Z.eq_dec base_peaks key ;;
         Ok (pairs ++ list_prod others bases)
       else Ok pairs)
    [].

(** Lines 147-149 of [synchronize]: the histogram of differences. *)
Definition count_differences (pairs : list (Z * Z)) : Dict.t (K:=Z) Z :=
  fold_left
    (fun frequencies '(a, b) =>
       Dict.set Z.eq_dec frequencies (a - b)
         (Dict.get_default Z.eq_dec frequencies (a - b) 0 + 1))
    pairs [].

(** Lines 142-150 of [synchronize], on the two peak maps. *)
Definition estimate_delay (base_peaks other_peaks : Dict.t (K:=Z) (list Z)) : result Z :=
  pairs <- make_pairs base_peaks other_peaks ;;
  let frequencies := count_differences pairs in
  Dict.max_by_value Z.eq_dec frequencies.

Definition synchronize (base_signal other_signal : list float)
  (window_size overlap spectral_band temporal_band peaks_per_bin : Z) : result Z :=
  base_peaks <- to_peaks base_signal window_size overlap spectral_band temporal_band peaks_per_bin ;;
  other_peaks <- to_peaks other_signal window_size overlap spectral_band temporal_band peaks_per_bin ;;
  estimate_delay base_peaks other_peaks.

End Program.

(** ** Vocabulary of the properties *)

Section Vocabulary.
Context {N : Numpy}.

(** A value that is not below zero. *)
Definition nonneg (x : float) : Prop := float_lt x fzero = false.

(** Frame [i] of a signal as the framer is meant to produce it: the
    [window_size] samples from position [i * step_size] on, a position past
    the end of the signal reading as zero. *)
Definition frame_at (arr : list float) (step_size window_size i : Z) : list float :=
  map (fun j => nth (Z.to_nat (i * step_size + j)) arr fzero) (range window_size).

(** The cells of a magnitude matrix, row by row, as peak records. *)
Definition cells (windows_indices : list Z) (magnitudes : list (list float)) : list peak :=
  flat_map
    (fun '(window_index, values) =>
       map (fun '(frequency_index, value) => (value, window_index, frequency_index))
         (enumerate values))
    (combine windows_indices magnitudes).

(** The bin of a cell. *)
Definition bin_of (temporal_band spectral_band : Z) (p : peak) : Z * Z :=
  (peak_window p / temporal_band, peak_frequency p / spectral_band).

Definition in_bin (temporal_band spectral_band : Z) (b : Z * Z) (p : peak) : bool :=
  if bin_eq_dec (bin_of temporal_band spectral_band p) b then true else false.

(** The cells kept by the second loop of [to_peaks], bin after bin. *)
Definition selected (bins : Dict.t (K:=Z * Z) (list peak)) (peaks_per_bin : Z) : list peak :=
  flat_map (fun '(_, bin_magnitudes) => nlargest peaks_per_bin bin_magnitudes peak_value) bins.

Definition has_frequency (f : Z) (p : peak) : bool := peak_frequency p =? f.

(** [x] is strictly above [p] in magnitude. *)
Definition above (p x : peak) : bool := float_lt (peak_value p) (peak_value x).

(** A list of peaks in decreasing order of magnitude. *)
Definition decreasing (l : list peak) : Prop :=
  StronglySorted (fun p q => float_lt (peak_value p) (peak_value q) = false) l.

(** The frame indices a peak map holds for a frequency index (none when the
    index is not a key). *)
Definition frames_of (peaks : Dict.t (K:=Z) (list Z)) (f : Z) : list Z :=
  Dict.get_default Z.eq_dec peaks f [].

(** The frequency indices present in both peak maps. *)
Definition shared (base other : Dict.t (K:=Z) (list Z)) : list Z :=
  filter (Dict.contains Z.eq_dec base) (Dict.keys other).

(** The full cross product of the frame lists of every shared frequency. *)
Definition cross (base other : Dict.t (K:=Z) (list Z)) : list (Z * Z) :=
  flat_map (fun f => list_prod (frames_of other f) (frames_of base f)) (shared base other).

Definition has_difference (d : Z) (ab : Z * Z) : bool := fst ab - snd ab =? d.

(** The number of pairs of a list whose difference is [d]. *)
Definition count_difference (d : Z) (pairs : list (Z * Z)) : Z :=
  Z.of_nat (length (filter (has_difference d) pairs)).

(** The number of pairs (other frame, base frame) at offset [d]. *)
Definition votes (base other : Dict.t (K:=Z) (list Z)) (d : Z) : Z :=
  count_difference d (cross base other).

End Vocabulary.

(** ** Vocabulary of the further properties *)

(** An integer that fits a [numpy.int64] (a C [long]). *)
Definition int64 (x : Z) : Prop := - 2 ^ 63 <= x < 2 ^ 63.

(** A peak map with every frame index moved by [k] frames. *)
Definition shift_frames (k : Z) (peaks : Dict.t (K:=Z) (list Z)) : Dict.t (K:=Z) (list Z) :=
  map (fun entry => (fst entry, map (Z.add k) (snd entry))) peaks.

Section FurtherVocabulary.
Context {N : Numpy}.

(** The magnitudes the analyzer returns for a frame that is not empty. *)
Definition spectrum (frame : list float) : list float :=
  map (fun k => np_round (np_abs (fft_coef frame k)) 2)
    (seq 0 (Z.to_nat (Z.of_nat (length frame) / 2))).

(** The magnitude matrix of a signal framed with a positive step. *)
Definition spectrogram (signal : list float) (window_size overlap : Z) : list (list float) :=
  map (fun i => spectrum (frame_at signal (window_size - overlap) window_size i))
    (range ((Z.of_nat (length signal) - window_size) / (window_size - overlap) + 1)).

End FurtherVocabulary.

(** * Properties *)

(** ** Outcomes *)

Lemma bind_Ok_inv {A B : Type} (c : result A) (k : A -> result B) (b : B) :
  bind c k = Ok b -> exists a, c = Ok a /\ k a = Ok b.
Proof. destruct c as [a| |]; simpl; try discriminate. intros H; now exists a. Qed.

(** A loop whose body cannot fail is a left fold. *)
Lemma foreach_pure {A S : Type} (xs : list A) (body : S -> A -> result S)
  (step : S -> A -> S) (s : S) :
  (forall s' x, In x xs -> body s' x = Ok (step s' x)) ->
  foreach xs body s = Ok (fold_left step xs s).
Proof.
  revert s; induction xs as [|x xs IH]; intros s H; simpl; [reflexivity|].
  rewrite H by (now left). simpl. apply IH. intros; apply H; now right.
Qed.

Lemma traverse_length {A B : Type} (f : A -> result B) (xs : list A) (ys : list B) :
  traverse f xs = Ok ys -> length ys = length xs.
Proof.
  revert ys; induction xs as [|x xs IH]; intros ys; simpl.
  - intros [= <-]; reflexivity.
  - intros H. apply bind_Ok_inv in H as (y & _ & H).
    apply bind_Ok_inv in H as (ys' & Hys & [= <-]). simpl. f_equal. now apply IH.
Qed.

Lemma traverse_pure {A B : Type} (f : A -> result B) (g : A -> B) (xs : list A) :
  (forall x, In x xs -> f x = Ok (g x)) -> traverse f xs = Ok (map g xs).
Proof.
  induction xs as [|x xs IH]; intros H; simpl; [reflexivity|].
  rewrite H by (now left). simpl. rewrite IH; [reflexivity|].
  intros; apply H; now right.
Qed.

Lemma range_length (n : Z) : length (range n) = Z.to_nat n.
Proof. unfold range. now rewrite length_map, length_seq. Qed.

Lemma in_range (n x : Z) : In x (range n) <-> 0 <= x < n.
Proof.
  unfold range. rewrite in_map_iff. split.
  - intros (k & <- & Hk). apply in_seq in Hk. lia.
  - intros H. exists (Z.to_nat x). split; [lia|]. apply in_seq. lia.
Qed.

Lemma NoDup_range (n : Z) : NoDup (range n).
Proof.
  unfold range. apply Finite.Injective_map_NoDup; [|apply seq_NoDup].
  intros x y; lia.
Qed.

(** ** Dictionaries *)

Section DictFacts.
Context {K : Type}.
Variable K_eq_dec : forall x y : K, {x = y} + {x <> y}.

Local Abbreviation get := (Dict.get K_eq_dec).
Local Abbreviation set := (Dict.set K_eq_dec).
Local Abbreviation setdefault_append := (Dict.setdefault_append K_eq_dec).
Local Abbreviation get_default := (Dict.get_default K_eq_dec).
Local Abbreviation grouped := (Dict.grouped K_eq_dec).
Local Abbreviation with_key := (Dict.with_key K_eq_dec).

Lemma get_In {V : Type} (d : Dict.t V) (k : K) (v : V) :
  get d k = Some v -> In (k, v) d.
Proof.
  induction d as [|[k' v'] d IH]; simpl; [discriminate|].
  destruct (K_eq_dec k k') as [->|]; [intros [= ->]; now left | auto].
Qed.

Lemma get_None_keys {V : Type} (d : Dict.t V) (k : K) :
  get d k = None <-> ~ In k (Dict.keys d).
Proof.
  induction d as [|[k' v'] d IH]; simpl; [tauto|].
  destruct (K_eq_dec k k') as [->|Hne].
  - split; [discriminate | intros H; exfalso; apply H; now left].
  - rewrite IH. split; intros H; [intros [E|E]; [congruence | tauto] | tauto].
Qed.

Lemma In_get {V : Type} (d : Dict.t V) (k : K) (v : V) :
  NoDup (Dict.keys d) -> In (k, v) d -> get d k = Some v.
Proof.
  induction d as [|[k' v'] d IH]; simpl; [tauto|].
  intros Hnd [E|Hin]; inversion Hnd as [|? ? Hk Hnd']; subst.
  - injection E as -> ->. destruct (K_eq_dec k k); [reflexivity | congruence].
  - destruct (K_eq_dec k k') as [->|]; [|auto].
    exfalso; apply Hk. change k' with (fst (k', v)). now apply in_map.
Qed.

Lemma contains_keys {V : Type} (d : Dict.t V) (k : K) :
  Dict.contains K_eq_dec d k = true <-> In k (Dict.keys d).
Proof.
  unfold Dict.contains. destruct (get d k) eqn:E.
  - split; [intros _ | reflexivity]. apply get_In in E.
    change k with (fst (k, v)). now apply in_map.
  - apply get_None_keys in E. split; [discriminate | tauto].
Qed.

Lemma get_set {V : Type} (d : Dict.t V) (k k' : K) (v : V) :
  get (set d k v) k' = if K_eq_dec k' k then Some v else get d k'.
Proof.
  induction d as [|[k0 v0] d IH]; simpl.
  - destruct (K_eq_dec k' k); reflexivity.
  - destruct (K_eq_dec k k0) as [->|Hne]; simpl.
    + destruct (K_eq_dec k' k0); reflexivity.
    + destruct (K_eq_dec k' k0) as [->|]; [|exact IH].
      destruct (K_eq_dec k0 k); [congruence | reflexivity].
Qed.

Lemma keys_set {V : Type} (d : Dict.t V) (k : K) (v : V) :
  Dict.keys (set d k v) =
  if Dict.contains K_eq_dec d k then Dict.keys d else Dict.keys d ++ [k].
Proof.
  unfold Dict.contains.
  induction d as [|[k0 v0] d IH]; simpl; [reflexivity|].
  destruct (K_eq_dec k k0) as [->|Hne]; simpl; [reflexivity|].
  unfold Dict.keys in *. rewrite IH. now destruct (get d k).
Qed.

Lemma get_setdefault_append {V : Type} (d : Dict.t (list V)) (k k' : K) (x : V) :
  get (setdefault_append d k x) k' =
  if K_eq_dec k' k then Some (get_default d k [] ++ [x]) else get d k'.
Proof.
  unfold Dict.get_default.
  induction d as [|[k0 l0] d IH]; simpl.
  - destruct (K_eq_dec k' k); reflexivity.
  - destruct (K_eq_dec k k0) as [->|Hne]; simpl.
    + destruct (K_eq_dec k' k0); reflexivity.
    + destruct (K_eq_dec k' k0) as [->|]; [|exact IH].
      destruct (K_eq_dec k0 k); [congruence | reflexivity].
Qed.

Lemma keys_setdefault_append {V : Type} (d : Dict.t (list V)) (k : K) (x : V) :
  Dict.keys (setdefault_append d k x) =
  if Dict.contains K_eq_dec d k then Dict.keys d else Dict.keys d ++ [k].
Proof.
  unfold Dict.contains.
  induction d as [|[k0 l0] d IH]; simpl; [reflexivity|].
  destruct (K_eq_dec k k0) as [->|Hne]; simpl; [reflexivity|].
  unfold Dict.keys in *. rewrite IH. now destruct (get d k).
Qed.

Lemma NoDup_keys_step {V : Type} (d : Dict.t V) (k : K) :
  NoDup (Dict.keys d) ->
  NoDup (if Dict.contains K_eq_dec d k then Dict.keys d else Dict.keys d ++ [k]).
Proof.
  intros Hnd. destruct (Dict.contains K_eq_dec d k) eqn:E; [assumption|].
  assert (Hk : ~ In k (Dict.keys d)).
  { intros Hin. apply contains_keys in Hin. congruence. }
  apply NoDup_app; [assumption | |].
  - constructor; [simpl; tauto | constructor].
  - intros y Hy [<-|[]]. contradiction.
Qed.

Lemma get_default_grouped {A V : Type} (key : A -> K) (val : A -> V) (xs : list A)
  (d : Dict.t (list V)) (k : K) :
  get_default (grouped key val xs d) k [] =
  get_default d k [] ++ map val (filter (with_key key k) xs).
Proof.
  revert d; induction xs as [|x xs IH]; intros d; simpl.
  - now rewrite app_nil_r.
  - unfold grouped in *; simpl. rewrite IH. unfold Dict.get_default at 1.
    rewrite get_setdefault_append. unfold with_key at 2.
    destruct (K_eq_dec k (key x)) as [->|Hne].
    + destruct (K_eq_dec (key x) (key x)); [|congruence].
      simpl. now rewrite <- app_assoc.
    + destruct (K_eq_dec (key x) k); [congruence|]. reflexivity.
Qed.

Lemma NoDup_keys_grouped {A V : Type} (key : A -> K) (val : A -> V) (xs : list A)
  (d : Dict.t (list V)) :
  NoDup (Dict.keys d) -> NoDup (Dict.keys (grouped key val xs d)).
Proof.
  revert d; induction xs as [|x xs IH]; intros d Hnd; simpl; [assumption|].
  apply IH. rewrite keys_setdefault_append. now apply NoDup_keys_step.
Qed.

Lemma keys_grouped {A V : Type} (key : A -> K) (val : A -> V) (xs : list A)
  (d : Dict.t (list V)) (k : K) :
  In k (Dict.keys (grouped key val xs d)) <->
  In k (Dict.keys d) \/ In k (map key xs).
Proof.
  revert d; induction xs as [|x xs IH]; intros d; simpl; [tauto|].
  unfold grouped in *; simpl. rewrite IH, keys_setdefault_append.
  destruct (Dict.contains K_eq_dec d (key x)) eqn:E.
  - apply contains_keys in E. split; [tauto|].
    intros [H|[<-|H]]; auto.
  - rewrite in_app_iff; simpl. tauto.
Qed.

(** No list of a grouped dictionary is empty. *)
Lemma grouped_nonempty {A V : Type} (key : A -> K) (val : A -> V) (xs : list A)
  (d : Dict.t (list V)) :
  Forall (fun kv => snd kv <> []) d ->
  Forall (fun kv => snd kv <> []) (grouped key val xs d).
Proof.
  revert d; induction xs as [|x xs IH]; intros d Hd; simpl; [assumption|].
  apply IH. clear IH. induction d as [|[k0 l0] d IHd]; simpl.
  - constructor; [simpl; discriminate | constructor].
  - inversion Hd as [|? ? H0 Hd']; subst.
    destruct (K_eq_dec (key x) k0); constructor; simpl; auto.
    destruct l0; discriminate.
Qed.

(** Grouping rearranges: the values of a grouped dictionary, key after key,
    are a permutation of the values of the list. *)
Lemma grouped_Permutation {A V : Type} (key : A -> K) (val : A -> V) (xs : list A)
  (d : Dict.t (list V)) :
  Permutation (flat_map snd (grouped key val xs d)) (flat_map snd d ++ map val xs).
Proof.
  revert d; induction xs as [|x xs IH]; intros d; simpl.
  - now rewrite app_nil_r.
  - unfold grouped in *; simpl. rewrite IH. clear IH.
    rewrite <- (Permutation_middle (flat_map snd d) (map val xs) (val x)).
    rewrite (Permutation_cons_append (flat_map snd d ++ map val xs)).
    rewrite <- app_assoc, (Permutation_app_comm (map val xs)), app_assoc.
    apply Permutation_app_tail.
    induction d as [|[k0 l0] d IHd]; simpl; [reflexivity|].
    destruct (K_eq_dec (key x) k0); simpl.
    + rewrite <- !app_assoc. apply Permutation_app_head. simpl.
      apply Permutation_cons_append.
    + rewrite IHd. rewrite <- app_assoc. reflexivity.
Qed.

End DictFacts.

(** ** Framer *)

Section Framer.
Context {N : Numpy}.

Lemma item_inside (v : view) (i j : Z) :
  0 <= i * fst (strides v) + j * snd (strides v) < Z.of_nat (length (buffer v)) ->
  item v i j =
  Ok (nth (Z.to_nat (i * fst (strides v) + j * snd (strides v))) (buffer v) fzero).
Proof.
  intros H. unfold item.
  replace (0 <=? _) with true by (symmetry; apply Z.leb_le; lia).
  replace (_ <? _) with true by (symmetry; apply Z.ltb_lt; lia).
  simpl. destruct (nth_error _ _) eqn:E.
  - now rewrite (nth_error_nth _ _ _ E).
  - apply nth_error_None in E. lia.
Qed.

Lemma nth_np_pad (arr : list float) (padding : Z) (n : nat) :
  nth n (np_pad arr padding) fzero = nth n arr fzero.
Proof.
  unfold np_pad. destruct (Nat.lt_ge_cases n (length arr)) as [H|H].
  - now apply app_nth1.
  - rewrite app_nth2 by assumption. rewrite (nth_overflow arr) by assumption.
    apply nth_repeat.
Qed.

Lemma np_pad_length (arr : list float) (padding : Z) :
  Z.of_nat (length (np_pad arr padding)) = Z.of_nat (length arr) + Z.max 0 padding.
Proof. unfold np_pad. rewrite length_app, repeat_length. lia. Qed.

Lemma frame_at_length (arr : list float) (step_size window_size i : Z) :
  length (frame_at arr step_size window_size i) = Z.to_nat window_size.
Proof. unfold frame_at. now rewrite length_map, range_length. Qed.

Lemma nth_range (n j : Z) : 0 <= j < n -> nth (Z.to_nat j) (range n) 0 = j.
Proof.
  intros H. unfold range. change 0 with (Z.of_nat 0%nat).
  rewrite map_nth, seq_nth by lia. lia.
Qed.

(** Sample [j] of frame [i] is sample [i * step_size + j] of the signal, and
    zero past its end. *)
Lemma frame_at_nth (arr : list float) (step_size window_size i j : Z) :
  0 <= j < window_size ->
  nth (Z.to_nat j) (frame_at arr step_size window_size i) fzero =
  if i * step_size + j <? Z.of_nat (length arr)
  then nth (Z.to_nat (i * step_size + j)) arr fzero
  else if 0 <=? i * step_size + j then fzero else nth 0 arr fzero.
Proof.
  intros H. unfold frame_at.
  rewrite (nth_indep _ fzero (nth (Z.to_nat (i * step_size + 0)) arr fzero))
    by (rewrite length_map, range_length; lia).
  rewrite (map_nth (fun j => nth (Z.to_nat (i * step_size + j)) arr fzero) (range window_size) 0).
  rewrite nth_range by assumption.
  destruct (Z.ltb_spec (i * step_size + j) (Z.of_nat (length arr))); [reflexivity|].
  destruct (Z.leb_spec 0 (i * step_size + j)).
  - apply nth_overflow. lia.
  - now replace (Z.to_nat (i * step_size + j)) with 0%nat by lia.
Qed.

(** The number of windows when the signal holds at least one window. *)
Lemma num_windows_bounds (length window_size step_size : Z) :
  0 < step_size -> window_size <= length ->
  1 <= (length - window_size) / step_size + 1 /\
  ((length - window_size) / step_size + 1 - 1) * step_size + window_size <= length.
Proof.
  intros Hs Hl. split.
  - pose proof (Z.div_pos (length - window_size) step_size). lia.
  - pose proof (Z.mul_div_le (length - window_size) step_size Hs). lia.
Qed.

(** The padding is empty when the signal holds at least one window. *)
Lemma padding_zero (length window_size step_size : Z) :
  0 < step_size -> window_size <= length ->
  Z.max 0 (((length - window_size) / step_size + 1 - 1) * step_size + window_size - length) = 0.
Proof. intros Hs Hl. pose proof (num_windows_bounds _ _ _ Hs Hl). lia. Qed.

(** With a valid configuration and a signal that holds at least one
    window, the framer succeeds and every row of its view lies inside the
    padded buffer. *)
Lemma rolling_window_valid (arr : list float) (window_size overlap : Z) :
  0 <= overlap < window_size ->
  window_size <= Z.of_nat (length arr) ->
  let L := Z.of_nat (length arr) in
  let step_size := window_size - overlap in
  let num_windows := (L - window_size) / step_size + 1 in
  let padding := Z.max 0 ((num_windows - 1) * step_size + window_size - L) in
  let windows :=
    {| buffer := np_pad arr padding;
       shape := (num_windows, window_size);
       strides := (step_size * 1, 1) |} in
  1 <= num_windows /\
  rolling_window arr window_size overlap true = Ok (windows, num_windows) /\
  forall i, 0 <= i < num_windows ->
    row windows i = Ok (frame_at arr step_size window_size i).
Proof.
  intros Hov Hlen L step_size num_windows padding windows.
  assert (Hstep : 0 < step_size) by (unfold step_size; lia).
  destruct (num_windows_bounds L window_size step_size Hstep Hlen) as [Hnw Hfit].
  fold num_windows in Hnw, Hfit.
  split; [assumption|]. split.
  - unfold rolling_window, py_floordiv. fold L step_size.
    replace (step_size =? 0) with false by (symmetry; apply Z.eqb_neq; lia).
    simpl bind. fold num_windows. unfold as_strided. simpl fst; simpl snd.
    replace (num_windows <? 0) with false by (symmetry; apply Z.ltb_ge; lia).
    replace (window_size <? 0) with false by (symmetry; apply Z.ltb_ge; lia).
    reflexivity.
  - intros i Hi.
    unfold row, frame_at. simpl shape. simpl snd.
    apply traverse_pure. intros j Hj. apply in_range in Hj.
    rewrite item_inside; simpl buffer; simpl strides; simpl fst; simpl snd.
    + rewrite !Z.mul_1_r. now rewrite nth_np_pad.
    + rewrite np_pad_length. fold L. nia.
Qed.

(** C3. For a signal of length [L >= window_size] and
    [window_size > overlap >= 0], the framer returns
    [num_windows = (L - window_size) // step_size + 1] frames, each of
    [window_size] samples; frame [i] starts at sample [i * step_size] of the
    signal, which is padded with
    [max(0, (num_windows - 1) * step_size + window_size - L)] trailing zeros,
    so that a sample past position [L] reads as zero. *)
Theorem rolling_window_frames (arr : list float) (window_size overlap : Z) :
  0 <= overlap < window_size ->
  window_size <= Z.of_nat (length arr) ->
  let L := Z.of_nat (length arr) in
  let step_size := window_size - overlap in
  let num_windows := (L - window_size) / step_size + 1 in
  let padding := Z.max 0 ((num_windows - 1) * step_size + window_size - L) in
  exists windows,
    rolling_window arr window_size overlap true = Ok (windows, num_windows) /\
    shape windows = (num_windows, window_size) /\
    buffer windows = arr ++ repeat fzero (Z.to_nat padding) /\
    traverse (row windows) (range num_windows) =
      Ok (map (frame_at arr step_size window_size) (range num_windows)) /\
    length (map (frame_at arr step_size window_size) (range num_windows)) =
      Z.to_nat num_windows /\
    (forall i, 0 <= i < num_windows ->
       length (frame_at arr step_size window_size i) = Z.to_nat window_size /\
       forall j, 0 <= j < window_size ->
         nth (Z.to_nat j) (frame_at arr step_size window_size i) fzero =
         if i * step_size + j <? L then nth (Z.to_nat (i * step_size + j)) arr fzero
         else fzero).
Proof.
  intros Hov Hlen L step_size num_windows padding.
  destruct (rolling_window_valid arr window_size overlap Hov Hlen) as (Hnw & Hrw & Hrows).
  fold L step_size num_windows padding in Hnw, Hrw, Hrows.
  eexists. split; [exact Hrw|]. split; [reflexivity|]. split; [reflexivity|].
  split; [apply traverse_pure; intros i Hi; apply Hrows; now apply in_range|].
  split; [now rewrite length_map, range_length|].
  intros i Hi. split; [apply frame_at_length|].
  intros j Hj. rewrite frame_at_nth by assumption. fold L.
  destruct (Z.ltb_spec (i * step_size + j) L); [reflexivity|].
  replace (0 <=? i * step_size + j) with true; [reflexivity|].
  symmetry; apply Z.leb_le. unfold step_size. nia.
Qed.

(** The outcome of the framer on every input, integers taken without
    bound: it checks nothing itself; the floor division fails on a zero
    step and [as_strided] fails on a negative dimension. *)
Lemma rolling_window_outcome (arr : list float) (window_size overlap : Z) (pad : bool) :
  let L := Z.of_nat (length arr) in
  let step_size := window_size - overlap in
  let num_windows := (L - window_size) / step_size + 1 in
  (step_size = 0 ->
   rolling_window arr window_size overlap pad = Raise ZeroDivisionError) /\
  (step_size <> 0 -> num_windows < 0 \/ window_size < 0 ->
   rolling_window arr window_size overlap pad = Raise ValueError) /\
  (step_size <> 0 -> 0 <= num_windows -> 0 <= window_size ->
   exists windows,
     rolling_window arr window_size overlap pad = Ok (windows, num_windows) /\
     shape windows = (num_windows, window_size) /\
     strides windows = (step_size, 1)).
Proof.
  intros L step_size num_windows. unfold rolling_window, py_floordiv.
  fold L step_size. split; [|split].
  - intros ->. reflexivity.
  - intros Hs Hneg. apply Z.eqb_neq in Hs. rewrite Hs. simpl bind.
    fold num_windows. unfold as_strided. simpl fst; simpl snd.
    replace ((num_windows <? 0) || (window_size <? 0)) with true; [reflexivity|].
    symmetry. apply orb_true_iff. rewrite !Z.ltb_lt. exact Hneg.
  - intros Hs Hnw Hws. apply Z.eqb_neq in Hs. rewrite Hs. simpl bind.
    fold num_windows. unfold as_strided. simpl fst; simpl snd.
    replace (num_windows <? 0) with false by (symmetry; apply Z.ltb_ge; lia).
    replace (window_size <? 0) with false by (symmetry; apply Z.ltb_ge; lia).
    simpl. eexists. split; [reflexivity|]. simpl. rewrite Z.mul_1_r. auto.
Qed.


End Framer.

(** ** Spectral analyzer *)

Section SpectralAnalyzer.
Context {N : Numpy}.

Lemma firstn_seq_min (n start len : nat) :
  firstn n (seq start len) = seq start (Nat.min n len).
Proof.
  revert start len; induction n as [|n IH]; intros start [|len]; simpl; auto.
  now rewrite IH.
Qed.

(** The analyzer on a frame that is not empty: the rounded moduli of the
    first half of the coefficients. *)
Lemma fourier_magnitudes_nonempty (frame : list float) :
  frame <> [] ->
  fourier_magnitudes frame =
  Ok (map (fun k => np_round (np_abs (fft_coef frame k)) 2)
        (seq 0 (Z.to_nat (Z.of_nat (length frame) / 2)))).
Proof.
  intros Hne. unfold fourier_magnitudes.
  assert (E : np_fft_fft frame = Ok (map (fft_coef frame) (seq 0 (length frame))))
    by (destruct frame; [congruence | reflexivity]).
  rewrite E. unfold bind. f_equal.
  rewrite length_map, length_seq.
  set (n := length frame).
  rewrite <- firstn_map, !map_map, firstn_map. f_equal.
  rewrite firstn_seq_min. f_equal. apply Nat.min_l.
  pose proof (Z.div_le_upper_bound (Z.of_nat n) 2 (Z.of_nat n)). lia.
Qed.

Lemma fourier_magnitudes_empty : fourier_magnitudes [] = Raise ValueError.
Proof. reflexivity. Qed.

(** C6. For a frame of [window_size > 0] samples the analyzer returns
    exactly [window_size // 2] values; value [k] is the modulus of Fourier
    coefficient [k] rounded to 2 decimal places; no value is below zero. *)
Theorem fourier_magnitudes_spectrum `{!NumpyLaws N} (frame : list float) (window_size : Z) :
  Z.of_nat (length frame) = window_size ->
  0 < window_size ->
  exists mag,
    fourier_magnitudes frame = Ok mag /\
    Z.of_nat (length mag) = window_size / 2 /\
    (forall k, (Z.of_nat k < window_size / 2) ->
       nth_error mag k = Some (np_round (np_abs (fft_coef frame k)) 2)) /\
    Forall nonneg mag.
Proof.
  intros Hlen Hpos.
  assert (Hne : frame <> []) by (intros ->; simpl in Hlen; lia).
  eexists. split; [apply (fourier_magnitudes_nonempty frame Hne)|].
  rewrite Hlen. split; [|split].
  - rewrite length_map, length_seq.
    pose proof (Z.div_pos window_size 2). lia.
  - intros k Hk.
    rewrite nth_error_map, nth_error_seq.
    replace (k <? _)%nat with true by (symmetry; apply Nat.ltb_lt; lia).
    reflexivity.
  - apply Forall_forall. intros m Hm. apply in_map_iff in Hm as (k & <- & _).
    apply np_round_nonneg, np_abs_nonneg.
Qed.

(** C7, as the code has it.  The analyzer takes the frame alone: it knows
    no [window_size], compares no length and never raises [MalformedFrame].
    A frame of any positive length [n] is accepted and gives [n // 2]
    values; the only failure is the [ValueError] of numpy's FFT on an empty
    frame. *)
Theorem fourier_magnitudes_failures (frame : list float) :
  fourier_magnitudes frame <> Raise MalformedFrame /\
  (frame = [] <-> fourier_magnitudes frame = Raise ValueError) /\
  (frame <> [] <->
   exists mag, fourier_magnitudes frame = Ok mag /\
               Z.of_nat (length mag) = Z.of_nat (length frame) / 2).
Proof.
  destruct frame as [|x frame].
  - rewrite fourier_magnitudes_empty. split; [discriminate|]. split.
    + tauto.
    + split; [congruence | intros (mag & E & _); discriminate].
  - assert (Hne : x :: frame <> []) by discriminate.
    rewrite (fourier_magnitudes_nonempty _ Hne). split; [discriminate|]. split.
    + split; discriminate.
    + split; [intros _ | discriminate]. eexists; split; [reflexivity|].
      rewrite length_map, length_seq.
      pose proof (Z.div_pos (Z.of_nat (length (x :: frame))) 2). lia.
Qed.

End SpectralAnalyzer.

(** ** Delay estimator *)

Section DelayEstimator.

Local Abbreviation peak_map := (Dict.t (K:=Z) (list Z)).

Lemma getitem_frames_of (peaks : peak_map) (f : Z) :
  In f (Dict.keys peaks) -> Dict.getitem Z.eq_dec peaks f = Ok (frames_of peaks f).
Proof.
  intros Hin. unfold Dict.getitem, frames_of, Dict.get_default.
  destruct (Dict.get Z.eq_dec peaks f) eqn:E; [reflexivity|].
  apply get_None_keys in E. contradiction.
Qed.

Lemma in_shared (base other : peak_map) (f : Z) :
  In f (shared base other) <-> In f (Dict.keys base) /\ In f (Dict.keys other).
Proof. unfold shared. rewrite filter_In, contains_keys. tauto. Qed.

(** The loop over the keys of [other] never fails (no [KeyError]) and
    collects the cross products of the shared frequencies. *)
Lemma make_pairs_cross (base other : peak_map) :
  make_pairs base other = Ok (cross base other).
Proof.
  unfold make_pairs, cross, shared.
  rewrite (foreach_pure _ _
    (fun pairs f =>
       if Dict.contains Z.eq_dec base f
       then pairs ++ list_prod (frames_of other f) (frames_of base f) else pairs)).
  - f_equal. change (flat_map _ _) with ([] ++ flat_map
      (fun f => list_prod (frames_of other f) (frames_of base f))
      (filter (Dict.contains Z.eq_dec base) (Dict.keys other))).
    generalize (@nil (Z * Z)). induction (Dict.keys other) as [|f ks IH];
      intros acc; simpl; [now rewrite app_nil_r|].
    rewrite IH. destruct (Dict.contains Z.eq_dec base f); simpl; [|reflexivity].
    now rewrite app_assoc.
  - intros pairs f Hf. destruct (Dict.contains Z.eq_dec base f) eqn:E; [|reflexivity].
    apply contains_keys in E.
    now rewrite (getitem_frames_of other f Hf), (getitem_frames_of base f E).
Qed.

Lemma count_difference_app (d : Z) (xs ys : list (Z * Z)) :
  count_difference d (xs ++ ys) = count_difference d xs + count_difference d ys.
Proof. unfold count_difference. rewrite filter_app, length_app. lia. Qed.

Lemma count_difference_nonneg (d : Z) (xs : list (Z * Z)) : 0 <= count_difference d xs.
Proof. unfold count_difference. lia. Qed.

Lemma count_difference_pos (d : Z) (xs : list (Z * Z)) :
  0 < count_difference d xs <-> exists ab, In ab xs /\ fst ab - snd ab = d.
Proof.
  unfold count_difference. split.
  - intros H. destruct (filter (has_difference d) xs) as [|ab l] eqn:E;
      [simpl in H; lia|].
    assert (Hin : In ab (filter (has_difference d) xs)) by (rewrite E; now left).
    apply filter_In in Hin as [Hin Hd]. exists ab. split; [assumption|].
    now apply Z.eqb_eq.
  - intros (ab & Hin & Hd).
    assert (Hf : In ab (filter (has_difference d) xs)).
    { apply filter_In. split; [assumption|]. now apply Z.eqb_eq. }
    destruct (filter (has_difference d) xs); [contradiction | simpl; lia].
Qed.

(** The histogram loop started from a dictionary [h]. *)
Lemma histogram_get (pairs : list (Z * Z)) (h : Dict.t (K:=Z) Z) (d : Z) :
  Dict.get_default Z.eq_dec
    (fold_left
       (fun frequencies '(a, b) =>
          Dict.set Z.eq_dec frequencies (a - b)
            (Dict.get_default Z.eq_dec frequencies (a - b) 0 + 1))
       pairs h) d 0 =
  Dict.get_default Z.eq_dec h d 0 + count_difference d pairs.
Proof.
  revert h; induction pairs as [|[a b] pairs IH]; intros h; simpl.
  - unfold count_difference. simpl. lia.
  - rewrite IH. change ((a, b) :: pairs) with ([(a, b)] ++ pairs).
    rewrite count_difference_app. unfold Dict.get_default at 1.
    rewrite get_set. unfold count_difference at 2, has_difference. simpl.
    destruct (Z.eq_dec d (a - b)) as [->|Hne].
    + rewrite Z.eqb_refl. change (Z.of_nat (length [(a, b)])) with 1. lia.
    + replace (a - b =? d) with false by (symmetry; apply Z.eqb_neq; congruence).
      change (Z.of_nat (length (@nil (Z * Z)))) with 0.
      unfold Dict.get_default. lia.
Qed.

Lemma histogram_keys (pairs : list (Z * Z)) (h : Dict.t (K:=Z) Z) (d : Z) :
  In d (Dict.keys
    (fold_left
       (fun frequencies '(a, b) =>
          Dict.set Z.eq_dec frequencies (a - b)
            (Dict.get_default Z.eq_dec frequencies (a - b) 0 + 1))
       pairs h)) <->
  In d (Dict.keys h) \/ 0 < count_difference d pairs.
Proof.
  revert h; induction pairs as [|[a b] pairs IH]; intros h; simpl.
  - unfold count_difference; simpl. split; [tauto | intros [H|H]; [assumption | lia]].
  - rewrite IH, keys_set. change ((a, b) :: pairs) with ([(a, b)] ++ pairs).
    rewrite count_difference_app.
    pose proof (count_difference_nonneg d pairs) as Hnn.
    assert (Hone : count_difference d [(a, b)] = if Z.eq_dec d (a - b) then 1 else 0).
    { unfold count_difference, has_difference. simpl.
      destruct (Z.eq_dec d (a - b)) as [->|Hne].
      - now rewrite Z.eqb_refl.
      - now replace (a - b =? d) with false by (symmetry; apply Z.eqb_neq; congruence). }
    rewrite Hone.
    destruct (Dict.contains Z.eq_dec h (a - b)) eqn:E.
    + apply contains_keys in E.
      destruct (Z.eq_dec d (a - b)) as [->|Hne]; [tauto|].
      split; (intros [H|H]; [now left | right; lia]).
    + rewrite in_app_iff. simpl.
      destruct (Z.eq_dec d (a - b)) as [->|Hne].
      * split; [intros _; right; lia | intros _; left; right; now left].
      * split.
        -- intros [[H|[H|[]]]|H]; [now left | congruence | right; lia].
        -- intros [H|H]; [left; now left | right; lia].
Qed.

(** The histogram holds, for each difference that occurs, the number of its
    occurrences, and holds no other key. *)
Lemma count_differences_get (pairs : list (Z * Z)) (d : Z) :
  Dict.get Z.eq_dec (count_differences pairs) d =
  if count_difference d pairs =? 0 then None else Some (count_difference d pairs).
Proof.
  pose proof (histogram_get pairs [] d) as Hget.
  pose proof (histogram_keys pairs [] d) as Hkeys.
  fold (count_differences pairs) in Hget, Hkeys. simpl in Hget, Hkeys.
  pose proof (count_difference_nonneg d pairs) as Hnn.
  unfold Dict.get_default in Hget. change (Dict.get Z.eq_dec [] d) with (@None Z) in Hget.
  destruct (Dict.get Z.eq_dec (count_differences pairs) d) as [c|] eqn:E.
  - assert (Hin : In d (Dict.keys (count_differences pairs))).
    { apply get_In in E. change d with (fst (d, c)). now apply in_map. }
    apply Hkeys in Hin as [[]|Hpos].
    replace (count_difference d pairs =? 0) with false by (symmetry; apply Z.eqb_neq; lia).
    f_equal. lia.
  - apply get_None_keys in E.
    destruct (Z.eqb_spec (count_difference d pairs) 0); [reflexivity|].
    exfalso. apply E, Hkeys. right. lia.
Qed.

(** [max] returns an element whose key is the greatest. *)
Lemma max_from_greatest (key : Z -> Z) (best : Z) (rest : list Z) :
  In (Dict.max_from key best rest) (best :: rest) /\
  forall k, In k (best :: rest) -> key k <= key (Dict.max_from key best rest).
Proof.
  revert best; induction rest as [|k rest IH]; intros best; simpl.
  - split; [now left | intros k [<-|[]]; lia].
  - destruct (Z.ltb_spec (key best) (key k)) as [Hlt|Hge].
    + destruct (IH k) as [Hin Hmax]. split; [now right|].
      intros k' [<-|Hk']; [|now apply Hmax].
      specialize (Hmax k (or_introl eq_refl)). lia.
    + destruct (IH best) as [Hin Hmax]. split.
      * destruct Hin as [<-|Hin]; [now left | right; now right].
      * intros k' [<-|[<-|Hk']].
        -- apply Hmax. now left.
        -- specialize (Hmax best (or_introl eq_refl)). lia.
        -- apply Hmax. now right.
Qed.

(** Among the elements with the greatest key, [max] returns the first. *)
Lemma max_from_first (key : Z -> Z) (best : Z) (rest : list Z) :
  exists before after,
    best :: rest = before ++ Dict.max_from key best rest :: after /\
    forall k, In k before -> key k < key (Dict.max_from key best rest).
Proof.
  revert best; induction rest as [|k rest IH]; intros best; simpl.
  - exists [], []. split; [reflexivity | intros k []].
  - destruct (Z.ltb_spec (key best) (key k)) as [Hlt|Hge].
    + destruct (IH k) as (before & after & E & Hlow).
      exists (best :: before), after. split; [simpl; now rewrite <- E|].
      intros k' [<-|Hk']; [|now apply Hlow].
      pose proof (max_from_greatest key k rest) as [_ Hmax].
      specialize (Hmax k (or_introl eq_refl)). lia.
    + destruct (IH best) as (before & after & E & Hlow).
      destruct before as [|b before]; simpl in E.
      * injection E as E1 E2. exists [], (k :: after). split.
        -- simpl. now rewrite <- E1, E2.
        -- intros k' [].
      * injection E as E1 E2. subst b.
        exists (best :: k :: before), after. split.
        -- simpl. do 2 f_equal. exact E2.
        -- intros k' [<-|[<-|Hk']].
           ++ apply Hlow. now left.
           ++ specialize (Hlow best (or_introl eq_refl)). lia.
           ++ apply Hlow. now right.
Qed.

(** The delay estimator on every pair of peak maps: it fails, with the
    [ValueError] of [max] on an empty dictionary, exactly when the cross
    product is empty. *)
Lemma estimate_delay_outcome (base other : peak_map) :
  match Dict.keys (count_differences (cross base other)) with
  | [] => cross base other = [] /\ estimate_delay base other = Raise ValueError
  | k :: rest =>
      cross base other <> [] /\
      estimate_delay base other =
      Ok (Dict.max_from
            (fun k' => Dict.get_default Z.eq_dec (count_differences (cross base other)) k' 0)
            k rest)
  end.
Proof.
  unfold estimate_delay. rewrite make_pairs_cross. simpl bind.
  unfold Dict.max_by_value.
  destruct (Dict.keys (count_differences (cross base other))) as [|k rest] eqn:E.
  - split; [|reflexivity].
    destruct (cross base other) as [|[a b] pairs] eqn:Ec; [reflexivity|]. exfalso.
    assert (Hin : In (a - b) (Dict.keys (count_differences ((a, b) :: pairs)))).
    { apply histogram_keys. right. apply count_difference_pos.
      exists (a, b). split; [now left | reflexivity]. }
    rewrite E in Hin. contradiction.
  - split; [|reflexivity]. intros Ec. rewrite Ec in E. discriminate.
Qed.

End DelayEstimator.

Section DelayEstimatorClaims.
Context {N : Numpy}.

Local Abbreviation peak_map := (Dict.t (K:=Z) (list Z)).

Lemma count_differences_get_default (pairs : list (Z * Z)) (d : Z) :
  Dict.get_default Z.eq_dec (count_differences pairs) d 0 = count_difference d pairs.
Proof.
  unfold Dict.get_default. rewrite count_differences_get.
  destruct (Z.eqb_spec (count_difference d pairs) 0); congruence.
Qed.

Lemma synchronize_stages (base_signal other_signal : list float)
  (window_size overlap spectral_band temporal_band peaks_per_bin : Z)
  (base other : peak_map) :
  to_peaks base_signal window_size overlap spectral_band temporal_band peaks_per_bin = Ok base ->
  to_peaks other_signal window_size overlap spectral_band temporal_band peaks_per_bin = Ok other ->
  synchronize base_signal other_signal window_size overlap spectral_band temporal_band
    peaks_per_bin = estimate_delay base other.
Proof. intros Hb Ho. unfold synchronize. now rewrite Hb, Ho. Qed.

(** What the estimator returns has the greatest count of the histogram. *)
Lemma estimate_delay_Ok (base other : peak_map) (d : Z) :
  estimate_delay base other = Ok d ->
  0 < votes base other d /\ forall d', votes base other d' <= votes base other d.
Proof.
  intros Hd. pose proof (estimate_delay_outcome base other) as Hout.
  destruct (Dict.keys (count_differences (cross base other))) as [|k rest] eqn:Ek.
  { destruct Hout as [_ E]. congruence. }
  destruct Hout as [_ E]. rewrite E in Hd. injection Hd as Hd.
  pose proof (max_from_greatest
    (fun k' => Dict.get_default Z.eq_dec (count_differences (cross base other)) k' 0)
    k rest) as [Hin Hmax].
  rewrite Hd in Hin, Hmax. rewrite <- Ek in Hin, Hmax.
  assert (Hpos : 0 < votes base other d).
  { apply (histogram_keys (cross base other) [] d) in Hin as [[]|H]. exact H. }
  split; [exact Hpos|]. intros d'.
  destruct (Z.eq_dec (votes base other d') 0) as [E0|Hne]; [lia|].
  assert (Hin' : In d' (Dict.keys (count_differences (cross base other)))).
  { apply (histogram_keys (cross base other) [] d'). right.
    pose proof (count_difference_nonneg d' (cross base other)).
    unfold votes in Hne. lia. }
  specialize (Hmax d' Hin'). cbv beta in Hmax.
  now rewrite !count_differences_get_default in Hmax.
Qed.

(** Among the offsets with the greatest count, the estimator returns the
    first one the histogram holds. *)
Lemma estimate_delay_first (base other : peak_map) (d : Z) :
  estimate_delay base other = Ok d ->
  exists before after,
    Dict.keys (count_differences (cross base other)) = before ++ d :: after /\
    forall k, In k before -> votes base other k < votes base other d.
Proof.
  intros Hd. pose proof (estimate_delay_outcome base other) as Hout.
  destruct (Dict.keys (count_differences (cross base other))) as [|k rest] eqn:Ek.
  { destruct Hout as [_ E]. congruence. }
  destruct Hout as [_ E]. rewrite E in Hd. injection Hd as Hd.
  destruct (max_from_first
    (fun k' => Dict.get_default Z.eq_dec (count_differences (cross base other)) k' 0)
    k rest) as (before & after & Hsplit & Hlow).
  rewrite Hd in Hsplit, Hlow. exists before, after. split; [exact Hsplit|].
  intros k' Hk'. specialize (Hlow k' Hk'). cbv beta in Hlow.
  now rewrite !count_differences_get_default in Hlow.
Qed.

(** C1. For every pair of peak maps the delay estimator takes the
    frequency indices present in both maps, forms the full cross product of
    their frame lists, counts each difference [other_frame - base_frame] in
    the histogram, and returns an offset whose count is the greatest of the
    histogram (the first such offset in the order of the histogram); it
    returns one whenever the cross product is not empty, and [synchronize]
    returns what the estimator returns on the peak maps of its two
    signals. *)
Theorem estimate_delay_mode (base other : peak_map) :
  (forall f, In f (shared base other) <->
             In f (Dict.keys base) /\ In f (Dict.keys other)) /\
  make_pairs base other = Ok (cross base other) /\
  (forall d, Dict.get Z.eq_dec (count_differences (cross base other)) d =
             if votes base other d =? 0 then None else Some (votes base other d)) /\
  (forall d, estimate_delay base other = Ok d ->
             0 < votes base other d /\
             forall d', votes base other d' <= votes base other d) /\
  (forall d, estimate_delay base other = Ok d ->
             exists before after,
               Dict.keys (count_differences (cross base other)) = before ++ d :: after /\
               forall k, In k before -> votes base other k < votes base other d) /\
  (cross base other <> [] -> exists d, estimate_delay base other = Ok d) /\
  (forall base_signal other_signal window_size overlap spectral_band temporal_band
          peaks_per_bin,
     to_peaks base_signal window_size overlap spectral_band temporal_band peaks_per_bin
       = Ok base ->
     to_peaks other_signal window_size overlap spectral_band temporal_band peaks_per_bin
       = Ok other ->
     synchronize base_signal other_signal window_size overlap spectral_band temporal_band
       peaks_per_bin = estimate_delay base other).
Proof.
  split; [apply in_shared|]. split; [apply make_pairs_cross|].
  split; [intros d; apply count_differences_get|].
  split; [intros d; apply estimate_delay_Ok|].
  split; [intros d; apply estimate_delay_first|]. split.
  - intros Hne. pose proof (estimate_delay_outcome base other) as Hout.
    destruct (Dict.keys (count_differences (cross base other))) as [|k rest].
    + destruct Hout as [E _]. contradiction.
    + destruct Hout as [_ E]. eauto.
  - intros. now apply synchronize_stages.
Qed.

(** C2, as the code has it.  For every pair of peak maps that share no
    frequency index the histogram is empty and the estimator fails with
    the [ValueError] that [max] raises on an empty dictionary; so does
    [synchronize] on two signals with such peak maps.  No delay is returned,
    and no [NoCommonLandmarks] condition exists in the code. *)
Theorem estimate_delay_no_common (base other : peak_map) :
  (forall f, ~ (In f (Dict.keys base) /\ In f (Dict.keys other))) ->
  estimate_delay base other = Raise ValueError /\
  estimate_delay base other <> Raise NoCommonLandmarks /\
  (forall base_signal other_signal window_size overlap spectral_band temporal_band
          peaks_per_bin,
     to_peaks base_signal window_size overlap spectral_band temporal_band peaks_per_bin
       = Ok base ->
     to_peaks other_signal window_size overlap spectral_band temporal_band peaks_per_bin
       = Ok other ->
     synchronize base_signal other_signal window_size overlap spectral_band temporal_band
       peaks_per_bin = Raise ValueError).
Proof.
  intros Hno.
  assert (Hs : shared base other = []).
  { destruct (shared base other) as [|f l] eqn:E; [reflexivity|]. exfalso.
    apply (Hno f), in_shared. rewrite E. now left. }
  assert (Hc : cross base other = []) by (unfold cross; now rewrite Hs).
  assert (He : estimate_delay base other = Raise ValueError).
  { pose proof (estimate_delay_outcome base other) as Hout.
    rewrite Hc in Hout. simpl in Hout. apply Hout. }
  split; [exact He|]. split; [rewrite He; discriminate|].
  intros. erewrite synchronize_stages; eauto.
Qed.

End DelayEstimatorClaims.

(** ** Peak selector *)

Lemma Permutation_filter {A : Type} (f : A -> bool) [l l' : list A] :
  Permutation l l' -> Permutation (filter f l) (filter f l').
Proof.
  induction 1 as [|x l l' _ IH|x y l|l l' l'' _ IH1 _ IH2]; simpl.
  - constructor.
  - destruct (f x); [now constructor | assumption].
  - destruct (f x), (f y); try reflexivity. apply perm_swap.
  - now transitivity (filter f l').
Qed.

Lemma filter_all {A : Type} (f : A -> bool) (l : list A) :
  (forall x, In x l -> f x = true) -> filter f l = l.
Proof.
  induction l as [|y t IH]; intros H; simpl; [reflexivity|].
  rewrite (H y (or_introl eq_refl)). f_equal. apply IH. intros; apply H; now right.
Qed.

Lemma filter_none {A : Type} (f : A -> bool) (l : list A) :
  (forall x, In x l -> f x = false) -> filter f l = [].
Proof.
  induction l as [|y t IH]; intros H; simpl; [reflexivity|].
  rewrite (H y (or_introl eq_refl)). apply IH. intros; apply H; now right.
Qed.

(** *** [sorted] and [heapq.nlargest] *)

Section Sorting.
Context {N : Numpy} {A : Type}.
Variable key : A -> float.

Local Abbreviation not_below := (fun x y : A => float_lt (key x) (key y) = false).

Lemma insert_desc_Permutation (x : A) (l : list A) :
  Permutation (insert_desc key x l) (x :: l).
Proof.
  induction l as [|y l IH]; simpl; [reflexivity|].
  destruct (float_lt (key x) (key y)); [|reflexivity].
  rewrite IH. apply perm_swap.
Qed.

Lemma sorted_reverse_Permutation (l : list A) : Permutation (sorted_reverse key l) l.
Proof.
  induction l as [|x l IH]; simpl; [reflexivity|].
  rewrite insert_desc_Permutation. now constructor.
Qed.

(** What is kept and what is left make up the list. *)
Lemma nlargest_Permutation (n : Z) (l : list A) :
  Permutation (nlargest n l key ++ skipn (Z.to_nat n) (sorted_reverse key l)) l.
Proof.
  unfold nlargest. rewrite firstn_skipn. apply sorted_reverse_Permutation.
Qed.

Lemma nlargest_length (n : Z) (l : list A) :
  length (nlargest n l key) = Nat.min (Z.to_nat n) (length l).
Proof.
  unfold nlargest. rewrite length_firstn.
  now rewrite (Permutation_length (sorted_reverse_Permutation l)).
Qed.

Lemma nlargest_In (n : Z) (l : list A) (x : A) : In x (nlargest n l key) -> In x l.
Proof.
  intros H. apply (Permutation_in x (nlargest_Permutation n l)).
  apply in_or_app. now left.
Qed.

Lemma nlargest_nonpositive (n : Z) (l : list A) : n <= 0 -> nlargest n l key = [].
Proof. intros H. unfold nlargest. now replace (Z.to_nat n) with 0%nat by lia. Qed.

Lemma StronglySorted_app_inv (R : A -> A -> Prop) (l1 l2 : list A) :
  StronglySorted R (l1 ++ l2) ->
  StronglySorted R l1 /\ StronglySorted R l2 /\
  forall a b, In a l1 -> In b l2 -> R a b.
Proof.
  induction l1 as [|x l1 IH]; simpl; intros H.
  - split; [constructor|]. split; [assumption|]. intros a b [].
  - inversion H as [|? ? Hs Hx]; subst. destruct (IH Hs) as (H1 & H2 & H12).
    rewrite Forall_app in Hx. destruct Hx as [Hx1 Hx2].
    split; [now constructor|]. split; [assumption|].
    intros a b [<-|Ha] Hb; [|now apply H12].
    rewrite Forall_forall in Hx2. now apply Hx2.
Qed.

Context `{!NumpyLaws N}.

Lemma float_lt_irrefl (x : float) : float_lt x x = false.
Proof.
  destruct (float_lt x x) eqn:E; [|reflexivity].
  pose proof (float_lt_asym x x E). congruence.
Qed.

Lemma insert_desc_sorted (x : A) (l : list A) :
  StronglySorted not_below l -> StronglySorted not_below (insert_desc key x l).
Proof.
  induction l as [|y l IH]; simpl; intros Hs.
  - constructor; constructor.
  - inversion Hs as [|? ? Hs' Hy]; subst.
    destruct (float_lt (key x) (key y)) eqn:E.
    + constructor; [now apply IH|].
      apply Forall_forall. intros z Hz.
      apply (Permutation_in z (insert_desc_Permutation x l)) in Hz.
      destruct Hz as [<-|Hz]; [now apply float_lt_asym|].
      rewrite Forall_forall in Hy. now apply Hy.
    + constructor; [assumption|]. constructor; [assumption|].
      rewrite Forall_forall in Hy |- *. intros z Hz.
      apply (float_lt_negtrans _ (key y)); [assumption | now apply Hy].
Qed.

Lemma sorted_reverse_sorted (l : list A) : StronglySorted not_below (sorted_reverse key l).
Proof.
  induction l as [|x l IH]; simpl; [constructor | now apply insert_desc_sorted].
Qed.

(** Nothing left out is above something kept. *)
Lemma nlargest_greatest (n : Z) (l : list A) (s r : A) :
  In s (nlargest n l key) -> In r (skipn (Z.to_nat n) (sorted_reverse key l)) ->
  float_lt (key s) (key r) = false.
Proof.
  intros Hs Hr. pose proof (sorted_reverse_sorted l) as Hsorted.
  rewrite <- (firstn_skipn (Z.to_nat n)) in Hsorted.
  apply StronglySorted_app_inv in Hsorted as (_ & _ & H). now apply H.
Qed.

(** Fewer than [n] elements of the list are above an element that is kept. *)
Lemma nlargest_rank (n : Z) (l : list A) (s : A) :
  In s (nlargest n l key) ->
  (length (filter (fun x => float_lt (key s) (key x)) l) < Z.to_nat n)%nat.
Proof.
  intros Hs. set (above_s := fun x => float_lt (key s) (key x)).
  rewrite <- (Permutation_length
    (Permutation_filter above_s (sorted_reverse_Permutation l))).
  pose proof (sorted_reverse_sorted l) as Hsorted.
  unfold nlargest in Hs. apply in_split in Hs as (before & after & E).
  assert (Hlen : (length before < Z.to_nat n)%nat).
  { pose proof (firstn_le_length (Z.to_nat n) (sorted_reverse key l)) as Hle.
    rewrite E, length_app in Hle. simpl in Hle. lia. }
  rewrite <- (firstn_skipn (Z.to_nat n) (sorted_reverse key l)) in Hsorted |- *.
  rewrite E in Hsorted |- *. rewrite <- app_assoc in Hsorted |- *.
  apply StronglySorted_app_inv in Hsorted as (_ & Htail & _).
  simpl in Htail. inversion Htail as [|? ? _ Hall]; subst.
  rewrite filter_app, length_app.
  assert (Hnone : filter above_s
            ((s :: after) ++ skipn (Z.to_nat n) (sorted_reverse key l)) = []).
  { apply filter_none. rewrite Forall_forall in Hall.
    intros x [<-|Hx]; [apply float_lt_irrefl | now apply Hall]. }
  rewrite Hnone. simpl.
  pose proof (filter_length_le above_s before). lia.
Qed.

(** An element that is kept is not below the [n]-th element of the list put
    in decreasing order, whichever way elements with equal keys are
    ordered. *)
Lemma nlargest_nth (n : Z) (l sorted : list A) (s v : A) :
  In s (nlargest n l key) ->
  Permutation l sorted -> StronglySorted not_below sorted ->
  nth_error sorted (Z.to_nat (n - 1)) = Some v ->
  float_lt (key s) (key v) = false.
Proof.
  intros Hs Hperm Hsorted Hnth.
  assert (Hn : 0 < n).
  { destruct (Z.le_gt_cases n 0) as [H|H]; [|lia].
    rewrite nlargest_nonpositive in Hs by assumption. contradiction. }
  destruct (float_lt (key s) (key v)) eqn:E; [exfalso | reflexivity].
  pose proof (nlargest_rank n l s Hs) as Hrank.
  set (above_s := fun x => float_lt (key s) (key x)) in Hrank.
  rewrite (Permutation_length (Permutation_filter above_s Hperm)) in Hrank.
  apply nth_error_split in Hnth as (before & after & -> & Hlen).
  apply StronglySorted_app_inv in Hsorted as (_ & _ & Hbv).
  assert (Hall : forall x, In x before -> above_s x = true).
  { intros x Hx. unfold above_s. destruct (float_lt (key s) (key x)) eqn:Ex; [reflexivity|].
    specialize (Hbv x v Hx (or_introl eq_refl)). cbv beta in Hbv.
    pose proof (float_lt_negtrans _ _ _ Ex Hbv). congruence. }
  rewrite filter_app, length_app in Hrank. simpl in Hrank.
  unfold above_s at 2 in Hrank. rewrite E in Hrank. simpl in Hrank.
  rewrite (filter_all above_s before Hall) in Hrank. lia.
Qed.

End Sorting.

(** *** The cells of the magnitude matrix *)

Lemma range_of_length (n : nat) : range (Z.of_nat n) = map Z.of_nat (seq 0 n).
Proof. unfold range. now rewrite Nat2Z.id. Qed.

Lemma map_fst_combine_eq {A B : Type} (l : list A) (l' : list B) :
  length l = length l' -> map fst (combine l l') = l.
Proof.
  revert l'; induction l as [|x l IH]; intros [|y l']; simpl; try discriminate; auto.
  intros [= H]. now rewrite IH.
Qed.

Lemma enumerate_fst {A : Type} (xs : list A) :
  map fst (enumerate xs) = range (Z.of_nat (length xs)).
Proof. unfold enumerate. apply map_fst_combine_eq. now rewrite range_length, Nat2Z.id. Qed.

Lemma in_combine_from {A : Type} (xs : list A) (start : nat) (i : Z) (x : A) :
  In (i, x) (combine (map Z.of_nat (seq start (length xs))) xs) <->
  exists n, i = Z.of_nat (start + n) /\ nth_error xs n = Some x.
Proof.
  revert start; induction xs as [|y xs IH]; intros start; simpl.
  - split; [intros [] | intros (n & _ & H); destruct n; discriminate].
  - rewrite IH. split.
    + intros [[= <- <-]|(n & -> & Hn)].
      * exists 0%nat. split; [f_equal; lia | reflexivity].
      * exists (S n). split; [f_equal; lia | assumption].
    + intros ([|n] & -> & Hn); simpl in Hn.
      * left. injection Hn as ->. f_equal. f_equal. lia.
      * right. exists n. split; [f_equal; lia | assumption].
Qed.

(** [enumerate] pairs each element with its position. *)
Lemma in_enumerate {A : Type} (xs : list A) (i : Z) (x : A) :
  In (i, x) (enumerate xs) <-> 0 <= i /\ nth_error xs (Z.to_nat i) = Some x.
Proof.
  unfold enumerate. rewrite range_of_length, in_combine_from. split.
  - intros (n & -> & Hn). simpl. rewrite Nat2Z.id. split; [lia | assumption].
  - intros [Hi Hn]. exists (Z.to_nat i). split; [simpl; lia | assumption].
Qed.

Section Cells.
Context {N : Numpy}.

Lemma cells_cons (w : Z) (ws : list Z) (values : list float) (magnitudes : list (list float)) :
  cells (w :: ws) (values :: magnitudes) =
  map (fun '(f, value) => (value, w, f)) (enumerate values) ++ cells ws magnitudes.
Proof. reflexivity. Qed.

Lemma cells_window (ws : list Z) (magnitudes : list (list float)) (p : peak) :
  In p (cells ws magnitudes) -> In (peak_window p) ws.
Proof.
  revert magnitudes; induction ws as [|w ws IH]; intros [|values magnitudes];
    try (intros []).
  rewrite cells_cons, in_app_iff, in_map_iff.
  intros [([f v] & <- & _)|H]; [now left | right; eauto].
Qed.

(** The cells of the matrix built by [to_peaks]: one per window index and
    frequency index, holding the magnitude found there. *)
Lemma in_cells (magnitudes : list (list float)) (v : float) (w f : Z) :
  In (v, w, f) (cells (range (Z.of_nat (length magnitudes))) magnitudes) <->
  0 <= w /\ 0 <= f /\
  exists values, nth_error magnitudes (Z.to_nat w) = Some values /\
                 nth_error values (Z.to_nat f) = Some v.
Proof.
  unfold cells. fold (enumerate magnitudes). rewrite in_flat_map. split.
  - intros ([w' values] & Hrow & Hin). apply in_enumerate in Hrow as [Hw Hrow].
    apply in_map_iff in Hin as ([f' v'] & [= -> -> ->] & Hin).
    apply in_enumerate in Hin as [Hf Hin]. eauto.
  - intros (Hw & Hf & values & Hrow & Hin). exists (w, values). split.
    + now apply in_enumerate.
    + apply in_map_iff. exists (f, v). split; [reflexivity | now apply in_enumerate].
Qed.

(** No two cells have the same window index and frequency index. *)
Lemma NoDup_cells (ws : list Z) (magnitudes : list (list float)) :
  NoDup ws ->
  NoDup (map (fun p => (peak_window p, peak_frequency p)) (cells ws magnitudes)).
Proof.
  revert magnitudes; induction ws as [|w ws IH]; intros [|values magnitudes] Hnd;
    try constructor.
  inversion Hnd as [|? ? Hw Hnd']; subst.
  rewrite cells_cons, map_app. apply NoDup_app.
  - rewrite map_map.
    rewrite (map_ext _ (fun fv => (w, fst fv))) by (now intros [f v]).
    rewrite <- (map_map fst (fun f => (w, f))).
    apply Finite.Injective_map_NoDup; [intros x y [= ->]; reflexivity|].
    rewrite enumerate_fst. apply NoDup_range.
  - now apply IH.
  - intros [w' f'] H1 H2. apply in_map_iff in H1 as (p1 & [= <- <-] & H1).
    apply in_map_iff in H1 as ([f v] & <- & _). simpl in *.
    apply in_map_iff in H2 as (p2 & [= E _] & H2).
    apply cells_window in H2. rewrite E in H2. contradiction.
Qed.

End Cells.

(** *** The two loops of [to_peaks] *)

Lemma fold_left_flat_map {A B S : Type} (f : S -> B -> S) (g : A -> list B)
  (l : list A) (s : S) :
  fold_left f (flat_map g l) s = fold_left (fun s x => fold_left f (g x) s) l s.
Proof.
  revert s; induction l as [|x l IH]; intros s; simpl; [reflexivity|].
  now rewrite fold_left_app, IH.
Qed.

Lemma fold_left_map {A B S : Type} (f : S -> B -> S) (g : A -> B) (l : list A) (s : S) :
  fold_left f (map g l) s = fold_left (fun s x => f s (g x)) l s.
Proof. revert s; induction l as [|x l IH]; intros s; simpl; auto. Qed.

Section Bins.
Context {N : Numpy}.

Local Abbreviation bins_of tb sb all :=
  (Dict.grouped bin_eq_dec (bin_of tb sb) (fun p : peak => p) all []).

(** With a non-zero spectral band the first loop cannot fail: it files each
    cell under its bin. *)
Lemma make_bins_nonzero (ws : list Z) (magnitudes : list (list float))
  (spectral_band temporal_band : Z) :
  spectral_band <> 0 ->
  make_bins ws magnitudes spectral_band temporal_band =
  Ok (bins_of temporal_band spectral_band (cells ws magnitudes)).
Proof.
  intros Hsb. unfold make_bins, cells, Dict.grouped.
  rewrite fold_left_flat_map.
  apply foreach_pure. intros bins [w values] _.
  rewrite fold_left_map.
  apply foreach_pure. intros bins' [f v] _.
  unfold py_floordiv. apply Z.eqb_neq in Hsb. rewrite Hsb. reflexivity.
Qed.

(** With a zero spectral band the first loop fails at its first cell. *)
Lemma make_bins_zero (ws : list Z) (magnitudes : list (list float)) (temporal_band : Z) :
  make_bins ws magnitudes 0 temporal_band =
  match cells ws magnitudes with
  | [] => Ok []
  | _ :: _ => Raise ZeroDivisionError
  end.
Proof.
  unfold make_bins, cells. generalize (combine ws magnitudes). intros rows.
  induction rows as [|[w values] rows IH]; [reflexivity|].
  simpl. destruct (enumerate values) as [|[f v] cols]; [exact IH | reflexivity].
Qed.

Lemma make_bins_Ok (ws : list Z) (magnitudes : list (list float))
  (spectral_band temporal_band : Z) (bins : Dict.t (list peak)) :
  make_bins ws magnitudes spectral_band temporal_band = Ok bins ->
  bins = bins_of temporal_band spectral_band (cells ws magnitudes).
Proof.
  destruct (Z.eq_dec spectral_band 0) as [->|Hsb].
  - rewrite make_bins_zero. destruct (cells ws magnitudes); [|discriminate].
    now intros [= <-].
  - rewrite make_bins_nonzero by assumption. now intros [= <-].
Qed.

Lemma bins_NoDup (tb sb : Z) (all : list peak) : NoDup (Dict.keys (bins_of tb sb all)).
Proof. apply NoDup_keys_grouped. constructor. Qed.

Lemma bins_get (tb sb : Z) (all : list peak) (b : Z * Z) :
  Dict.get_default bin_eq_dec (bins_of tb sb all) b [] = filter (in_bin tb sb b) all.
Proof. rewrite get_default_grouped. simpl. apply map_id. Qed.

(** A bin of the dictionary holds the cells of its block, in the order of
    the matrix, and is not empty. *)
Lemma bins_In (tb sb : Z) (all : list peak) (b : Z * Z) (l : list peak) :
  In (b, l) (bins_of tb sb all) <-> l <> [] /\ l = filter (in_bin tb sb b) all.
Proof.
  split.
  - intros Hin. split.
    + pose proof (grouped_nonempty bin_eq_dec (bin_of tb sb) (fun p : peak => p) all []
                    (Forall_nil _)) as Hne.
      rewrite Forall_forall in Hne. apply (Hne (b, l) Hin).
    + rewrite <- bins_get. unfold Dict.get_default.
      now rewrite (In_get bin_eq_dec _ _ _ (bins_NoDup tb sb all) Hin).
  - intros [Hne ->]. pose proof (bins_get tb sb all b) as Hget.
    unfold Dict.get_default in Hget.
    destruct (Dict.get bin_eq_dec (bins_of tb sb all) b) as [l|] eqn:E.
    + rewrite <- Hget. now apply (get_In bin_eq_dec).
    + congruence.
Qed.

(** Every cell lies in the bin of its block. *)
Lemma bins_cover (tb sb : Z) (all : list peak) (p : peak) :
  In p all ->
  exists l, Dict.get bin_eq_dec (bins_of tb sb all) (bin_of tb sb p) = Some l /\ In p l.
Proof.
  intros Hp.
  assert (Hin : In p (filter (in_bin tb sb (bin_of tb sb p)) all)).
  { apply filter_In. split; [assumption|]. unfold in_bin.
    destruct (bin_eq_dec (bin_of tb sb p) (bin_of tb sb p)); congruence. }
  rewrite <- bins_get in Hin. unfold Dict.get_default in Hin.
  destruct (Dict.get bin_eq_dec (bins_of tb sb all) (bin_of tb sb p)) as [l|];
    [eauto | contradiction].
Qed.

Lemma bins_Permutation (tb sb : Z) (all : list peak) :
  Permutation (flat_map snd (bins_of tb sb all)) all.
Proof.
  rewrite (grouped_Permutation bin_eq_dec (bin_of tb sb) (fun p : peak => p) all []).
  simpl. now rewrite map_id.
Qed.

Lemma in_bin_true (tb sb : Z) (b : Z * Z) (p : peak) :
  in_bin tb sb b p = true <-> bin_of tb sb p = b.
Proof. unfold in_bin. destruct (bin_eq_dec (bin_of tb sb p) b); split; congruence. Qed.

(** The second loop files the window index of each selected cell under its
    frequency index. *)
Lemma select_peaks_grouped (bins : Dict.t (list peak)) (peaks_per_bin : Z) :
  select_peaks bins peaks_per_bin =
  Dict.grouped Z.eq_dec peak_frequency peak_window (selected bins peaks_per_bin) [].
Proof.
  unfold select_peaks, selected, Dict.grouped. rewrite fold_left_flat_map.
  generalize (@nil (Z * list Z)). induction bins as [|[b l] bins IH]; intros acc;
    [reflexivity|].
  simpl. rewrite IH. f_equal.
  generalize (nlargest peaks_per_bin l peak_value). intros sel. revert acc.
  induction sel as [|[[v w] f] sel IHs]; intros acc; [reflexivity|]. apply IHs.
Qed.

Lemma select_peaks_frames (bins : Dict.t (list peak)) (peaks_per_bin f : Z) :
  frames_of (select_peaks bins peaks_per_bin) f =
  map peak_window (filter (has_frequency f) (selected bins peaks_per_bin)).
Proof.
  unfold frames_of. rewrite select_peaks_grouped, get_default_grouped. simpl.
  f_equal. apply filter_ext. intros p. unfold Dict.with_key, has_frequency.
  destruct (Z.eq_dec (peak_frequency p) f) as [->|Hne].
  - now rewrite Z.eqb_refl.
  - symmetry. now apply Z.eqb_neq.
Qed.

Lemma select_peaks_keys (bins : Dict.t (list peak)) (peaks_per_bin f : Z) :
  In f (Dict.keys (select_peaks bins peaks_per_bin)) <->
  exists p, In p (selected bins peaks_per_bin) /\ peak_frequency p = f.
Proof.
  rewrite select_peaks_grouped, keys_grouped, in_map_iff. simpl.
  split; [intros [[]|(p & E & Hp)] | intros (p & Hp & E)]; eauto.
Qed.

(** With [peaks_per_bin <= 0] nothing is selected. *)
Lemma select_peaks_none (bins : Dict.t (list peak)) (peaks_per_bin : Z) :
  peaks_per_bin <= 0 -> select_peaks bins peaks_per_bin = [].
Proof.
  intros H. rewrite select_peaks_grouped.
  replace (selected bins peaks_per_bin) with (@nil peak); [reflexivity|].
  unfold selected. induction bins as [|[b l] bins IH]; [reflexivity|].
  simpl. now rewrite nlargest_nonpositive, <- IH.
Qed.

(** The stages of a successful [to_peaks]. *)
Lemma to_peaks_stages (signal : list float)
  (window_size overlap spectral_band temporal_band peaks_per_bin : Z)
  (peaks : Dict.t (list Z)) :
  to_peaks signal window_size overlap spectral_band temporal_band peaks_per_bin = Ok peaks ->
  exists windows num_windows magnitudes,
    rolling_window signal window_size overlap true = Ok (windows, num_windows) /\
    np_apply_along_axis fourier_magnitudes windows = Ok magnitudes /\
    range num_windows = range (Z.of_nat (length magnitudes)) /\
    make_bins (range num_windows) magnitudes spectral_band temporal_band =
      Ok (bins_of temporal_band spectral_band (cells (range num_windows) magnitudes)) /\
    peaks = select_peaks
              (bins_of temporal_band spectral_band (cells (range num_windows) magnitudes))
              peaks_per_bin.
Proof.
  unfold to_peaks. intros H.
  apply bind_Ok_inv in H as ([windows num_windows] & Hrw & H).
  apply bind_Ok_inv in H as (magnitudes & Hmag & H).
  apply bind_Ok_inv in H as (bins & Hbins & [= <-]).
  exists windows, num_windows, magnitudes.
  split; [assumption|]. split; [assumption|].
  pose proof (make_bins_Ok _ _ _ _ _ Hbins) as ->.
  split; [|split; [assumption | reflexivity]].
  unfold rolling_window in Hrw.
  apply bind_Ok_inv in Hrw as (q & _ & Hrw).
  apply bind_Ok_inv in Hrw as (v & Hv & [= <- <-]).
  unfold as_strided in Hv. simpl fst in Hv.
  destruct ((q + 1 <? 0) || _); [discriminate|]. injection Hv as <-.
  unfold np_apply_along_axis in Hmag. simpl shape in Hmag. simpl fst in Hmag.
  destruct (q + 1 =? 0); [discriminate|].
  apply traverse_length in Hmag. rewrite range_length in Hmag.
  unfold range. now rewrite Hmag, Nat2Z.id.
Qed.

End Bins.

(** *** Selection and bounds *)

Section PeakSelectorClaims.
Context {N : Numpy}.

Local Abbreviation bins_of tb sb all :=
  (Dict.grouped bin_eq_dec (bin_of tb sb) (fun p : peak => p) all []).

(** C4. For every magnitude matrix and parameters (the spectral band not
    zero), the peak selector assigns each cell [(frame_index,
    frequency_index)] to the bin [(frame_index // temporal_band,
    frequency_index // spectral_band)]; in each bin it selects the
    [peaks_per_bin] cells of largest magnitude (all of them when the bin has
    fewer); and the output map holds, under each frequency index, the frame
    indices of the selected cells with that frequency index: the bin is not
    part of the key. *)
Theorem peak_selection `{!NumpyLaws N} (magnitudes : list (list float))
  (spectral_band temporal_band peaks_per_bin : Z) :
  spectral_band <> 0 ->
  let windows_indices := range (Z.of_nat (length magnitudes)) in
  let all := cells windows_indices magnitudes in
  exists bins,
    make_bins windows_indices magnitudes spectral_band temporal_band = Ok bins /\
    (forall v w f,
       In (v, w, f) all <->
       0 <= w /\ 0 <= f /\
       exists values, nth_error magnitudes (Z.to_nat w) = Some values /\
                      nth_error values (Z.to_nat f) = Some v) /\
    NoDup (Dict.keys bins) /\
    (forall p, In p all ->
       exists l, Dict.get bin_eq_dec bins (bin_of temporal_band spectral_band p) = Some l /\
                 In p l) /\
    (forall b l, In (b, l) bins <->
       l <> [] /\ l = filter (in_bin temporal_band spectral_band b) all) /\
    (forall b l, In (b, l) bins ->
       exists rest,
         Permutation (nlargest peaks_per_bin l peak_value ++ rest) l /\
         length (nlargest peaks_per_bin l peak_value) =
           Nat.min (Z.to_nat peaks_per_bin) (length l) /\
         forall s r, In s (nlargest peaks_per_bin l peak_value) -> In r rest ->
                     above s r = false) /\
    (forall f, frames_of (select_peaks bins peaks_per_bin) f =
               map peak_window (filter (has_frequency f) (selected bins peaks_per_bin))) /\
    (forall f, In f (Dict.keys (select_peaks bins peaks_per_bin)) <->
               exists p, In p (selected bins peaks_per_bin) /\ peak_frequency p = f) /\
    (forall signal window_size overlap windows,
       rolling_window signal window_size overlap true =
         Ok (windows, Z.of_nat (length magnitudes)) ->
       np_apply_along_axis fourier_magnitudes windows = Ok magnitudes ->
       to_peaks signal window_size overlap spectral_band temporal_band peaks_per_bin =
         Ok (select_peaks bins peaks_per_bin)).
Proof.
  intros Hsb windows_indices all.
  exists (bins_of temporal_band spectral_band all).
  split; [now apply make_bins_nonzero|].
  split; [intros v w f; apply in_cells|].
  split; [apply bins_NoDup|].
  split; [intros p; apply bins_cover|].
  split; [intros b l; apply bins_In|].
  split; [|split; [intros f; apply select_peaks_frames|
           split; [intros f; apply select_peaks_keys|]]].
  - intros b l _.
    exists (skipn (Z.to_nat peaks_per_bin) (sorted_reverse peak_value l)).
    split; [apply nlargest_Permutation|]. split; [apply nlargest_length|].
    intros s r Hs Hr. unfold above.
    now apply (nlargest_greatest peak_value peaks_per_bin l).
  - intros signal window_size overlap windows Hrw Hmag.
    unfold to_peaks. rewrite Hrw. simpl bind. rewrite Hmag. simpl bind.
    fold windows_indices. rewrite make_bins_nonzero by assumption. reflexivity.
Qed.

(** The cells of the bins of the dictionary lie in their bin. *)
Lemma bins_consistent (tb sb : Z) (all : list peak) (b : Z * Z) (l : list peak) (p : peak) :
  In (b, l) (bins_of tb sb all) -> In p l -> In p all /\ bin_of tb sb p = b.
Proof.
  intros Hin Hp. apply bins_In in Hin as [_ ->].
  apply filter_In in Hp as [Hp Hb]. split; [assumption | now apply in_bin_true].
Qed.

(** Under one frequency index a bin of another spectral block contributes
    nothing, and a bin contributes at most [peaks_per_bin] entries. *)
Lemma selected_frequency_bound (tb sb ppb f : Z) (bins : Dict.t (list peak)) :
  (forall b l p, In (b, l) bins -> In p l -> bin_of tb sb p = b) ->
  (length (filter (has_frequency f) (selected bins ppb)) <=
   Z.to_nat ppb * length (filter (fun b : Z * Z => (snd b =? f / sb)%Z) (Dict.keys bins)))%nat.
Proof.
  induction bins as [|[b l] bins IH]; intros Hcons; [simpl; lia|].
  unfold selected in *. simpl. rewrite filter_app, length_app.
  assert (IH' := IH (fun b' l' p H => Hcons b' l' p (or_intror H))). clear IH.
  destruct (Z.eqb_spec (snd b) (f / sb)) as [E|Hne].
  - simpl. pose proof (filter_length_le (has_frequency f) (nlargest ppb l peak_value)).
    pose proof (nlargest_length peak_value ppb l). lia.
  - rewrite filter_none; [simpl; lia|].
    intros p Hp. apply nlargest_In in Hp.
    pose proof (Hcons b l p (or_introl eq_refl) Hp) as Hb.
    unfold has_frequency. apply Z.eqb_neq. intros Ef. apply Hne.
    rewrite <- Hb. unfold bin_of. simpl. now rewrite Ef.
Qed.

Lemma selected_by_bin (bins : Dict.t (list peak)) (ppb f : Z) :
  map peak_window (filter (has_frequency f) (selected bins ppb)) =
  flat_map
    (fun '(_, l) => map peak_window (filter (has_frequency f) (nlargest ppb l peak_value)))
    bins.
Proof.
  unfold selected. induction bins as [|[b l] bins IH]; [reflexivity|].
  simpl. now rewrite filter_app, map_app, IH.
Qed.

(** Keys that differ only in a first component taken from [range C] are at
    most [C]. *)
Lemma keys_in_column (ks : list (Z * Z)) (c C : Z) :
  NoDup ks -> (forall b, In b ks -> 0 <= fst b < C) ->
  (length (filter (fun b : Z * Z => (snd b =? c)%Z) ks) <= Z.to_nat C)%nat.
Proof.
  intros Hnd Hrange. set (col := filter (fun b : Z * Z => snd b =? c) ks).
  rewrite <- (length_map fst col), <- (range_length C).
  apply NoDup_incl_length.
  - apply Finite.Injective_map_NoDup_in; [|now apply NoDup_filter].
    intros [x1 y1] [x2 y2] H1 H2. simpl. intros ->.
    apply filter_In in H1 as [_ H1]. apply filter_In in H2 as [_ H2].
    simpl in H1, H2. apply Z.eqb_eq in H1, H2. congruence.
  - intros x Hx. apply in_map_iff in Hx as (b & <- & Hb).
    apply filter_In in Hb as [Hb _]. apply in_range. now apply Hrange.
Qed.

(** The temporal blocks of [num_windows] windows. *)
Lemma temporal_block_range (w num_windows tb : Z) :
  0 < tb -> 0 <= w < num_windows -> 0 <= w / tb < (num_windows + tb - 1) / tb.
Proof.
  intros Htb Hw. split; [apply Z.div_pos; lia|].
  replace (num_windows + tb - 1) with (num_windows - 1 + 1 * tb) by lia.
  rewrite Z.div_add by lia.
  pose proof (Z.div_le_mono w (num_windows - 1) tb Htb). lia.
Qed.

(** C5. With [temporal_band > 0] and [peaks_per_bin >= 0], the peak map of
    a signal holds at most [ceil(num_windows / temporal_band) *
    peaks_per_bin] frame indices under any frequency index; a bin
    contributes at most [peaks_per_bin] entries in all; and the magnitude of
    every entry is at least the [peaks_per_bin]-th largest magnitude of its
    bin (fewer than [peaks_per_bin] cells of the bin lie above it). *)
Theorem to_peaks_bounds `{!NumpyLaws N} (signal : list float)
  (window_size overlap spectral_band temporal_band peaks_per_bin : Z)
  (windows : view) (num_windows : Z) (peaks : Dict.t (list Z)) :
  0 < temporal_band -> 0 <= peaks_per_bin ->
  rolling_window signal window_size overlap true = Ok (windows, num_windows) ->
  to_peaks signal window_size overlap spectral_band temporal_band peaks_per_bin = Ok peaks ->
  exists magnitudes bins,
    np_apply_along_axis fourier_magnitudes windows = Ok magnitudes /\
    make_bins (range num_windows) magnitudes spectral_band temporal_band = Ok bins /\
    peaks = select_peaks bins peaks_per_bin /\
    (forall f entries,
       Dict.get Z.eq_dec peaks f = Some entries ->
       Z.of_nat (length entries) <=
       (num_windows + temporal_band - 1) / temporal_band * peaks_per_bin) /\
    (forall f,
       frames_of peaks f =
       flat_map
         (fun '(_, l) =>
            map peak_window (filter (has_frequency f) (nlargest peaks_per_bin l peak_value)))
         bins) /\
    (forall b l,
       In (b, l) bins ->
       Z.of_nat (length (nlargest peaks_per_bin l peak_value)) <= peaks_per_bin /\
       forall s,
         In s (nlargest peaks_per_bin l peak_value) ->
         In s l /\
         bin_of temporal_band spectral_band s = b /\
         Z.of_nat (length (filter (above s) l)) < peaks_per_bin /\
         forall sorted v,
           Permutation l sorted -> decreasing sorted ->
           nth_error sorted (Z.to_nat (peaks_per_bin - 1)) = Some v ->
           float_lt (peak_value s) (peak_value v) = false).
Proof.
  intros Htb Hppb Hrw Hpeaks.
  destruct (to_peaks_stages _ _ _ _ _ _ _ Hpeaks)
    as (windows' & nw' & magnitudes & Hrw' & Hmag & Hrange & Hbins & ->).
  rewrite Hrw in Hrw'. injection Hrw' as <- <-.
  set (all := cells (range num_windows) magnitudes) in *.
  set (bins := bins_of temporal_band spectral_band all) in *.
  exists magnitudes, bins.
  split; [assumption|]. split; [assumption|]. split; [reflexivity|].
  split; [|split].
  - intros f entries Hget.
    assert (Hentries : entries = frames_of (select_peaks bins peaks_per_bin) f).
    { unfold frames_of, Dict.get_default. now rewrite Hget. }
    rewrite Hentries, select_peaks_frames, length_map.
    pose proof (selected_frequency_bound temporal_band spectral_band peaks_per_bin f bins
      (fun b l p Hin Hp => proj2 (bins_consistent _ _ _ _ _ _ Hin Hp))) as Hsel.
    pose proof (keys_in_column (Dict.keys bins) (f / spectral_band)
      ((num_windows + temporal_band - 1) / temporal_band)
      (bins_NoDup temporal_band spectral_band all)) as Hcol.
    assert (Hkeys : forall b, In b (Dict.keys bins) ->
              0 <= fst b < (num_windows + temporal_band - 1) / temporal_band).
    { intros b Hb. apply in_map_iff in Hb as ([b' l] & <- & Hin). simpl.
      pose proof (proj1 (bins_In _ _ _ _ _) Hin) as [Hne _].
      destruct l as [|p l]; [congruence|].
      destruct (bins_consistent _ _ _ _ _ p Hin (or_introl eq_refl)) as [Hp <-].
      apply cells_window, in_range in Hp. simpl.
      now apply temporal_block_range. }
    specialize (Hcol Hkeys).
    assert (0 <= (num_windows + temporal_band - 1) / temporal_band).
    { destruct (Dict.keys bins) as [|b ks] eqn:Ek.
      - apply Z.div_pos; [|lia].
        destruct (Z.le_gt_cases 0 num_windows); [lia|].
        unfold rolling_window in Hrw. apply bind_Ok_inv in Hrw as (q & _ & Hrw).
        apply bind_Ok_inv in Hrw as (v & Hv & [= _ <-]).
        unfold as_strided in Hv. simpl fst in Hv.
        replace (q + 1 <? 0) with true in Hv by (symmetry; apply Z.ltb_lt; lia).
        discriminate.
      - specialize (Hkeys b (or_introl eq_refl)). lia. }
    nia.
  - intros f. rewrite select_peaks_frames. apply selected_by_bin.
  - intros b l Hin. split.
    + rewrite nlargest_length. lia.
    + intros s Hs. pose proof (nlargest_In _ _ _ _ Hs) as Hl.
      split; [assumption|].
      split; [apply (bins_consistent _ _ _ _ _ _ Hin Hl)|].
      split.
      * pose proof (nlargest_rank peak_value peaks_per_bin l s Hs). unfold above. lia.
      * intros sorted v Hperm Hsorted Hnth.
        apply (nlargest_nth peak_value peaks_per_bin l sorted s v); assumption.
Qed.

End PeakSelectorClaims.

(** ** A signal against itself, and an empty selection *)

(** *** The frame lists of a peak map have no repetition *)

Lemma NoDup_map_filter {A B : Type} (g : A -> B) (p : A -> bool) (l : list A) :
  NoDup (map g l) -> NoDup (map g (filter p l)).
Proof.
  induction l as [|x l IH]; simpl; intros H; [constructor|].
  inversion H as [|? ? Hx Hl]; subst.
  destruct (p x); [|now apply IH]. simpl. constructor; [|now apply IH].
  intros Hin. apply Hx. apply in_map_iff in Hin as (y & E & Hy).
  apply filter_In in Hy as [Hy _]. apply in_map_iff. eauto.
Qed.

Section FrameLists.
Context {N : Numpy}.

Local Abbreviation position := (fun p : peak => (peak_window p, peak_frequency p)).

(** The selected cells are some of the cells of the bins. *)
Lemma selected_part (bins : Dict.t (list peak)) (ppb : Z) :
  exists rest, Permutation (selected bins ppb ++ rest) (flat_map snd bins).
Proof.
  unfold selected. induction bins as [|[b l] bins [rest IH]]; [now exists []|].
  exists (skipn (Z.to_nat ppb) (sorted_reverse peak_value l) ++ rest). simpl.
  apply Permutation_trans with
    ((nlargest ppb l peak_value ++ skipn (Z.to_nat ppb) (sorted_reverse peak_value l)) ++
     (flat_map (fun '(_, bin_magnitudes) => nlargest ppb bin_magnitudes peak_value) bins
      ++ rest)).
  - rewrite <- !app_assoc. apply Permutation_app_head.
    rewrite !app_assoc. apply Permutation_app_tail, Permutation_app_comm.
  - apply Permutation_app; [apply nlargest_Permutation | exact IH].
Qed.

Lemma selected_NoDup (tb sb ppb : Z) (ws : list Z) (magnitudes : list (list float)) :
  NoDup ws ->
  NoDup (map position
    (selected (Dict.grouped bin_eq_dec (bin_of tb sb) (fun p : peak => p)
                 (cells ws magnitudes) []) ppb)).
Proof.
  intros Hnd.
  destruct (selected_part
    (Dict.grouped bin_eq_dec (bin_of tb sb) (fun p : peak => p) (cells ws magnitudes) [])
    ppb) as [rest Hperm].
  rewrite bins_Permutation in Hperm.
  pose proof (NoDup_cells ws magnitudes Hnd) as Hcells.
  apply (Permutation_NoDup (Permutation_map position (Permutation_sym Hperm))) in Hcells.
  rewrite map_app in Hcells. now apply NoDup_app_remove_r in Hcells.
Qed.

(** No frame index occurs twice under a frequency index of a peak map. *)
Lemma to_peaks_NoDup (signal : list float)
  (window_size overlap spectral_band temporal_band peaks_per_bin : Z)
  (peaks : Dict.t (list Z)) (f : Z) :
  to_peaks signal window_size overlap spectral_band temporal_band peaks_per_bin = Ok peaks ->
  NoDup (frames_of peaks f).
Proof.
  intros H. apply to_peaks_stages in H
    as (windows & num_windows & magnitudes & _ & _ & _ & _ & ->).
  rewrite select_peaks_frames.
  pose proof (selected_NoDup temporal_band spectral_band peaks_per_bin
                (range num_windows) magnitudes (NoDup_range num_windows)) as Hnd.
  apply (NoDup_map_filter position (has_frequency f)) in Hnd.
  set (sel := filter (has_frequency f) _) in *.
  replace (map peak_window sel) with (map fst (map position sel))
    by (rewrite map_map; reflexivity).
  apply Finite.Injective_map_NoDup_in; [|assumption].
  intros [w1 f1] [w2 f2] H1 H2. simpl. intros ->.
  apply in_map_iff in H1 as (p1 & [= _ E1] & H1).
  apply in_map_iff in H2 as (p2 & [= _ E2] & H2).
  apply filter_In in H1 as [_ H1]. apply filter_In in H2 as [_ H2].
  unfold has_frequency in H1, H2. apply Z.eqb_eq in H1, H2. congruence.
Qed.

End FrameLists.

(** *** Differences within one list of frames *)

Lemma count_difference_cons (d : Z) (ab : Z * Z) (pairs : list (Z * Z)) :
  count_difference d (ab :: pairs) =
  (if has_difference d ab then 1 else 0) + count_difference d pairs.
Proof.
  unfold count_difference. cbn [filter].
  destruct (has_difference d ab); cbn [length]; lia.
Qed.

(** The pairs of one frame [a] with the frames of a list without repetition:
    at most one has difference [d], and none when [a - d] is not in the
    list. *)
Lemma count_difference_row (d a : Z) (l : list Z) :
  NoDup l ->
  count_difference d (map (fun b => (a, b)) l) =
  if in_dec Z.eq_dec (a - d) l then 1 else 0.
Proof.
  induction l as [|b l IH]; intros Hnd; [reflexivity|].
  inversion Hnd as [|? ? Hb Hl]; subst.
  simpl map. rewrite count_difference_cons, (IH Hl).
  unfold has_difference. simpl fst; simpl snd.
  destruct (Z.eqb_spec (a - b) d) as [E|Hne].
  - assert (Eb : b = a - d) by lia. subst b.
    destruct (in_dec Z.eq_dec (a - d) l) as [Hin|_]; [contradiction|].
    destruct (in_dec Z.eq_dec (a - d) (a - d :: l)) as [_|Hout]; [reflexivity|].
    exfalso. apply Hout. now left.
  - destruct (in_dec Z.eq_dec (a - d) l) as [Hin|Hout];
      destruct (in_dec Z.eq_dec (a - d) (b :: l)) as [Hin'|Hout']; try reflexivity.
    + exfalso. apply Hout'. now right.
    + exfalso. destruct Hin' as [E|Hin']; [lia | contradiction].
Qed.

Lemma count_difference_prod (d : Z) (l1 l2 : list Z) :
  NoDup l2 ->
  count_difference d (list_prod l1 l2) =
  Z.of_nat (length (filter (fun a => if in_dec Z.eq_dec (a - d) l2 then true else false) l1)).
Proof.
  intros Hnd. induction l1 as [|a l1 IH]; [reflexivity|].
  simpl list_prod. rewrite count_difference_app, IH, count_difference_row by assumption.
  simpl filter. destruct (in_dec Z.eq_dec (a - d) l2); simpl length; lia.
Qed.

Lemma list_min_exists (l : list Z) :
  l <> [] -> exists m, In m l /\ forall x, In x l -> m <= x.
Proof.
  induction l as [|a l IH]; [congruence|]. intros _.
  destruct l as [|b l].
  - exists a. split; [now left | intros x [<-|[]]; lia].
  - destruct IH as (m & Hm & Hmin); [discriminate|].
    destruct (Z.le_gt_cases a m).
    + exists a. split; [now left|]. intros x [<-|Hx]; [lia|].
      specialize (Hmin x Hx). lia.
    + exists m. split; [now right|]. intros x [<-|Hx]; [lia | now apply Hmin].
Qed.

Lemma list_max_exists (l : list Z) :
  l <> [] -> exists m, In m l /\ forall x, In x l -> x <= m.
Proof.
  induction l as [|a l IH]; [congruence|]. intros _.
  destruct l as [|b l].
  - exists a. split; [now left | intros x [<-|[]]; lia].
  - destruct IH as (m & Hm & Hmax); [discriminate|].
    destruct (Z.le_gt_cases m a).
    + exists a. split; [now left|]. intros x [<-|Hx]; [lia|].
      specialize (Hmax x Hx). lia.
    + exists m. split; [now right|]. intros x [<-|Hx]; [lia | now apply Hmax].
Qed.

Lemma filter_length_lt {A : Type} (f : A -> bool) (l : list A) (x : A) :
  In x l -> f x = false -> (length (filter f l) < length l)%nat.
Proof.
  induction l as [|y l IH]; [intros []|]. intros [->|Hin] Hf; simpl.
  - rewrite Hf. pose proof (filter_length_le f l). lia.
  - specialize (IH Hin Hf). destruct (f y); simpl; lia.
Qed.

(** Offset zero: every frame of the list pairs with itself. *)
Lemma count_difference_self_zero (l : list Z) :
  NoDup l -> count_difference 0 (list_prod l l) = Z.of_nat (length l).
Proof.
  intros Hnd. rewrite count_difference_prod by assumption. f_equal. f_equal.
  apply filter_all. intros a Ha. rewrite Z.sub_0_r.
  destruct (in_dec Z.eq_dec a l); [reflexivity | contradiction].
Qed.

Lemma count_difference_self_le (d : Z) (l : list Z) :
  NoDup l -> count_difference d (list_prod l l) <= Z.of_nat (length l).
Proof.
  intros Hnd. rewrite count_difference_prod by assumption.
  pose proof (filter_length_le
    (fun a => if in_dec Z.eq_dec (a - d) l then true else false) l). lia.
Qed.

(** Another offset: the least (or the greatest) frame has no partner. *)
Lemma count_difference_self_lt (d : Z) (l : list Z) :
  NoDup l -> l <> [] -> d <> 0 ->
  count_difference d (list_prod l l) < Z.of_nat (length l).
Proof.
  intros Hnd Hne Hd. rewrite count_difference_prod by assumption.
  assert (Hex : exists a, In a l /\ ~ In (a - d) l).
  { destruct (Z.lt_trichotomy d 0) as [Hlt|[E|Hgt]]; [|contradiction|].
    - destruct (list_max_exists l Hne) as (m & Hm & Hmax). exists m.
      split; [assumption|]. intros Hin. specialize (Hmax _ Hin). lia.
    - destruct (list_min_exists l Hne) as (m & Hm & Hmin). exists m.
      split; [assumption|]. intros Hin. specialize (Hmin _ Hin). lia. }
  destruct Hex as (a & Ha & Hout).
  apply inj_lt. apply (filter_length_lt _ l a Ha).
  destruct (in_dec Z.eq_dec (a - d) l); [contradiction | reflexivity].
Qed.

(** Over the frequencies of one peak map, offset zero collects at least as
    many pairs as any other offset, and more when some list has a frame. *)
Lemma self_votes_le (frames : Z -> list Z) (ks : list Z) (d : Z) :
  (forall f, NoDup (frames f)) ->
  count_difference d (flat_map (fun f => list_prod (frames f) (frames f)) ks) <=
  count_difference 0 (flat_map (fun f => list_prod (frames f) (frames f)) ks).
Proof.
  intros Hnd. induction ks as [|k ks IH]; [unfold count_difference; simpl; lia|].
  simpl. rewrite !count_difference_app.
  pose proof (count_difference_self_le d (frames k) (Hnd k)).
  pose proof (count_difference_self_zero (frames k) (Hnd k)). lia.
Qed.

Lemma self_votes_lt (frames : Z -> list Z) (ks : list Z) (d : Z) :
  (forall f, NoDup (frames f)) -> d <> 0 ->
  (exists k, In k ks /\ frames k <> []) ->
  count_difference d (flat_map (fun f => list_prod (frames f) (frames f)) ks) <
  count_difference 0 (flat_map (fun f => list_prod (frames f) (frames f)) ks).
Proof.
  intros Hnd Hd. induction ks as [|k ks IH]; intros (k' & Hk' & Hne); [contradiction|].
  simpl. rewrite !count_difference_app.
  pose proof (count_difference_self_le d (frames k) (Hnd k)) as Hle.
  pose proof (count_difference_self_zero (frames k) (Hnd k)) as Hzero.
  pose proof (self_votes_le frames ks d Hnd) as Hrest.
  destruct (list_eq_dec Z.eq_dec (frames k) []) as [E|Hk].
  - destruct Hk' as [<-|Hk']; [contradiction|].
    assert (IH' := IH (ex_intro _ k' (conj Hk' Hne))). lia.
  - pose proof (count_difference_self_lt d (frames k) (Hnd k) Hk Hd). lia.
Qed.

Section SelfAndEmpty.
Context {N : Numpy}.

Local Abbreviation peak_map := (Dict.t (K:=Z) (list Z)).

(** With a valid window configuration, a signal that holds at least one
    window and a non-zero spectral band, [to_peaks] returns a peak map. *)
Lemma to_peaks_valid (signal : list float)
  (window_size overlap spectral_band temporal_band peaks_per_bin : Z) :
  0 <= overlap < window_size ->
  window_size <= Z.of_nat (length signal) ->
  spectral_band <> 0 ->
  exists bins,
    to_peaks signal window_size overlap spectral_band temporal_band peaks_per_bin =
    Ok (select_peaks bins peaks_per_bin).
Proof.
  intros Hov Hlen Hsb.
  destruct (rolling_window_valid signal window_size overlap Hov Hlen) as (Hnw & Hrw & Hrows).
  unfold to_peaks. rewrite Hrw. simpl bind.
  set (L := Z.of_nat (length signal)) in *.
  set (step_size := window_size - overlap) in *.
  set (num_windows := (L - window_size) / step_size + 1) in *.
  unfold np_apply_along_axis. simpl shape. simpl fst.
  replace (num_windows =? 0) with false by (symmetry; apply Z.eqb_neq; lia).
  rewrite (traverse_pure _
    (fun i => map (fun k => np_round (np_abs (fft_coef (frame_at signal step_size window_size i) k)) 2)
                (seq 0 (Z.to_nat (Z.of_nat (length (frame_at signal step_size window_size i)) / 2))))).
  - simpl bind. rewrite make_bins_nonzero by assumption. simpl bind. eauto.
  - intros i Hi. apply in_range in Hi. rewrite (Hrows i Hi). simpl bind.
    apply fourier_magnitudes_nonempty. intros E.
    apply (f_equal (@length _)) in E. rewrite frame_at_length in E. simpl in E. lia.
Qed.

Lemma votes_pos_frames (base other : peak_map) (d : Z) :
  0 < votes base other d ->
  exists f, In f (shared base other) /\ frames_of other f <> [] /\ frames_of base f <> [].
Proof.
  intros H. apply count_difference_pos in H as (ab & Hin & _).
  unfold cross in Hin. apply in_flat_map in Hin as (f & Hf & Hin).
  exists f. split; [assumption|]. destruct ab as [a b].
  apply in_prod_iff in Hin as [Ha Hb].
  split; intros E; [rewrite E in Ha | rewrite E in Hb]; contradiction.
Qed.

(** C9. Whenever [synchronize] succeeds on a signal and an exact copy of
    it, with the same parameters, the delay it returns is [0]. *)
Theorem synchronize_self (signal : list float)
  (window_size overlap spectral_band temporal_band peaks_per_bin d : Z) :
  synchronize signal signal window_size overlap spectral_band temporal_band peaks_per_bin
    = Ok d ->
  d = 0.
Proof.
  unfold synchronize. intros H.
  apply bind_Ok_inv in H as (peaks & Hpeaks & H). rewrite Hpeaks in H. simpl bind in H.
  apply estimate_delay_Ok in H as [Hpos Hmax].
  destruct (Z.eq_dec d 0) as [E|Hd]; [assumption | exfalso].
  assert (Hnd : forall f, NoDup (frames_of peaks f))
    by (intros f; exact (to_peaks_NoDup _ _ _ _ _ _ _ f Hpeaks)).
  destruct (votes_pos_frames peaks peaks d Hpos) as (f & Hf & Hne & _).
  pose proof (self_votes_lt (frames_of peaks) (shared peaks peaks) d Hnd Hd
                (ex_intro _ f (conj Hf Hne))) as Hlt.
  specialize (Hmax 0). unfold votes, cross in Hmax. lia.
Qed.

(** C10. With [peaks_per_bin = 0] the peak selector returns an empty peak
    map, for every signal on which [to_peaks] returns at all (as it does
    for every valid window configuration); [synchronize] then returns no
    delay for any pair of signals, a signal paired with a copy of itself
    included: once both peak maps are built the delay histogram is empty
    and [max] raises [ValueError]. *)
Theorem zero_peaks_per_bin (base_signal other_signal : list float)
  (window_size overlap spectral_band temporal_band : Z) :
  (forall bins, select_peaks bins 0 = []) /\
  (forall signal peaks,
     to_peaks signal window_size overlap spectral_band temporal_band 0 = Ok peaks ->
     peaks = []) /\
  (forall signal,
     0 <= overlap < window_size -> window_size <= Z.of_nat (length signal) ->
     spectral_band <> 0 ->
     to_peaks signal window_size overlap spectral_band temporal_band 0 = Ok []) /\
  (forall d,
     synchronize base_signal other_signal window_size overlap spectral_band temporal_band 0
     <> Ok d) /\
  (forall d,
     synchronize base_signal base_signal window_size overlap spectral_band temporal_band 0
     <> Ok d) /\
  (forall base other,
     to_peaks base_signal window_size overlap spectral_band temporal_band 0 = Ok base ->
     to_peaks other_signal window_size overlap spectral_band temporal_band 0 = Ok other ->
     synchronize base_signal other_signal window_size overlap spectral_band temporal_band 0
     = Raise ValueError).
Proof.
  assert (Hsel : forall bins, select_peaks bins 0 = [])
    by (intros bins; now apply select_peaks_none).
  assert (Hempty : forall signal peaks,
            to_peaks signal window_size overlap spectral_band temporal_band 0 = Ok peaks ->
            peaks = []).
  { intros signal peaks H. apply to_peaks_stages in H
      as (windows & num_windows & magnitudes & _ & _ & _ & _ & ->). apply Hsel. }
  assert (Hfail : forall a b d,
            synchronize a b window_size overlap spectral_band temporal_band 0 <> Ok d).
  { intros a b d H. unfold synchronize in H.
    apply bind_Ok_inv in H as (pa & Ha & H). apply bind_Ok_inv in H as (pb & Hb & H).
    apply Hempty in Ha, Hb. subst. discriminate. }
  split; [exact Hsel|]. split; [exact Hempty|]. split; [|split; [|split]].
  - intros signal Hov Hlen Hsb.
    destruct (to_peaks_valid signal window_size overlap spectral_band temporal_band 0
                Hov Hlen Hsb) as [bins ->].
    now rewrite Hsel.
  - apply Hfail.
  - apply Hfail.
  - intros base other Hb Ho. unfold synchronize. rewrite Hb, Ho. simpl bind.
    apply Hempty in Hb, Ho. subst. reflexivity.
Qed.

End SelfAndEmpty.

(** ** The kernel in exact real arithmetic *)

Lemma Int_part_nonneg (x : R) : (0 <= x)%R -> 0 <= Int_part x.
Proof.
  intros Hx. destruct (base_Int_part x) as [_ Hlow].
  assert (H : (IZR (-1) < IZR (Int_part x))%R) by (simpl; lra).
  apply lt_IZR in H. lia.
Qed.

Lemma rint_nonneg (x : R) : (0 <= x)%R -> 0 <= RealKernel.rint x.
Proof.
  intros Hx. pose proof (Int_part_nonneg x Hx). unfold RealKernel.rint.
  destruct (Rlt_dec (frac_part x) (1 / 2)); [assumption|].
  destruct (Rlt_dec (1 / 2) (frac_part x)); [lia|].
  destruct (Z.even (Int_part x)); lia.
Qed.

Lemma RealNumpy_laws : NumpyLaws RealNumpy.
Proof.
  constructor; simpl; unfold RealKernel.lt.
  - intros x y. destruct (Rlt_dec x y), (Rlt_dec y x); try reflexivity; try discriminate.
    lra.
  - intros x y z. destruct (Rlt_dec x y), (Rlt_dec y z), (Rlt_dec x z);
      try reflexivity; try discriminate. lra.
  - intros c. unfold RealKernel.modulus.
    destruct (Rlt_dec _ 0) as [H|]; [|reflexivity].
    pose proof (sqrt_pos (fst c * fst c + snd c * snd c)). lra.
  - intros x d. destruct (Rlt_dec x 0) as [|Hx]; [discriminate|]. intros _.
    destruct (Rlt_dec _ 0) as [H|]; [exfalso | reflexivity].
    unfold RealKernel.round_decimals in H.
    assert (Hp : (0 < powerRZ 10 d)%R) by (apply powerRZ_lt; lra).
    assert (Hxp : (0 <= x * powerRZ 10 d)%R) by (apply Rmult_le_pos; lra).
    pose proof (IZR_le _ _ (rint_nonneg _ Hxp)) as Hr.
    assert (Hq : (0 <= IZR (RealKernel.rint (x * powerRZ 10 d)) / powerRZ 10 d)%R).
    { apply Rmult_le_pos; [exact Hr|]. left. now apply Rinv_0_lt_compat. }
    lra.
Qed.

(** *** Frames of four samples in exact arithmetic *)

Section FourSamples.
Open Scope R_scope.

Lemma angle_zero_frequency (n j : nat) : RealKernel.angle n j 0 = 0.
Proof. unfold RealKernel.angle. simpl. unfold Rdiv. ring. Qed.

Lemma angle_first_sample (n k : nat) : RealKernel.angle n 0 k = 0.
Proof. unfold RealKernel.angle. simpl. unfold Rdiv. ring. Qed.

Lemma angle_quarter : RealKernel.angle 4 1 1 = PI / 2.
Proof. unfold RealKernel.angle. simpl. lra. Qed.

Lemma angle_half : RealKernel.angle 4 2 1 = PI.
Proof. unfold RealKernel.angle. simpl. lra. Qed.

Lemma angle_three_quarters : RealKernel.angle 4 3 1 = 3 * (PI / 2).
Proof. unfold RealKernel.angle. simpl. lra. Qed.

Lemma dft_coef_4_0 (a b c d : R) :
  RealKernel.dft_coef [a; b; c; d] 0 = (a + b + c + d, 0).
Proof.
  unfold RealKernel.dft_coef. cbn [length seq combine fold_right].
  rewrite !angle_zero_frequency, cos_0, sin_0. f_equal; ring.
Qed.

Lemma dft_coef_4_1 (a b c d : R) :
  RealKernel.dft_coef [a; b; c; d] 1 = (a - c, d - b).
Proof.
  unfold RealKernel.dft_coef. cbn [length seq combine fold_right].
  rewrite angle_first_sample, angle_quarter, angle_half, angle_three_quarters.
  rewrite cos_0, sin_0, cos_PI2, sin_PI2, cos_PI, sin_PI, cos_3PI2, sin_3PI2.
  f_equal; ring.
Qed.

Lemma rint_IZR (z : Z) : RealKernel.rint (IZR z) = z.
Proof.
  unfold RealKernel.rint.
  destruct (Int_part_frac_part_spec (IZR z) z 0) as [Hi Hf]; [lra | lra |].
  rewrite <- Hi, <- Hf.
  destruct (Rlt_dec 0 (1 / 2)); [reflexivity | lra].
Qed.

Lemma round_decimals_2_IZR (z : Z) : RealKernel.round_decimals (IZR z) 2 = IZR z.
Proof.
  unfold RealKernel.round_decimals.
  replace (IZR z * powerRZ 10 2) with (IZR (z * 100)) by (rewrite mult_IZR; simpl; lra).
  rewrite rint_IZR, mult_IZR. simpl. field.
Qed.

Lemma modulus_real (x : R) : 0 <= x -> RealKernel.modulus (x, 0) = x.
Proof.
  intros H. unfold RealKernel.modulus. simpl.
  replace (x * x + 0 * 0) with (Rsqr x) by (unfold Rsqr; ring). now apply sqrt_Rsqr.
Qed.

Lemma real_lt_false (x y : R) : y <= x -> RealKernel.lt x y = false.
Proof. intros H. unfold RealKernel.lt. destruct (Rlt_dec x y); [lra | reflexivity]. Qed.

Lemma real_lt_true (x y : R) : x < y -> RealKernel.lt x y = true.
Proof. intros H. unfold RealKernel.lt. destruct (Rlt_dec x y); [reflexivity | lra]. Qed.

(** The lower half of the spectrum of a frame of four samples. *)
Lemma spectrum_4 (a b c d : R) :
  fourier_magnitudes (N:=RealNumpy) [a; b; c; d] =
  Ok [RealKernel.round_decimals (RealKernel.modulus (a + b + c + d, 0)) 2;
      RealKernel.round_decimals (RealKernel.modulus (a - c, d - b)) 2].
Proof.
  rewrite fourier_magnitudes_nonempty by discriminate.
  cbn [length Z.of_nat]. change (Z.to_nat _) with 2%nat. cbn [seq map].
  cbn [fft_coef np_abs np_round RealNumpy].
  now rewrite dft_coef_4_0, dft_coef_4_1.
Qed.

(** A constant frame: all the energy at frequency 0. *)
Lemma spectrum_constant : fourier_magnitudes (N:=RealNumpy) [1; 1; 1; 1] = Ok [4; 0].
Proof.
  rewrite spectrum_4.
  replace (1 + 1 + 1 + 1) with 4 by lra. replace (1 - 1) with 0 by lra.
  rewrite !modulus_real by lra.
  now rewrite (round_decimals_2_IZR 4), (round_decimals_2_IZR 0).
Qed.

(** One period of a cosine: all the energy of the lower half at frequency 1. *)
Lemma spectrum_tone : fourier_magnitudes (N:=RealNumpy) [1; 0; -1; 0] = Ok [0; 2].
Proof.
  rewrite spectrum_4.
  replace (1 + 0 + -1 + 0) with 0 by lra. replace (1 - -1) with 2 by lra.
  replace (0 - 0) with 0 by lra.
  rewrite !modulus_real by lra.
  now rewrite (round_decimals_2_IZR 2), (round_decimals_2_IZR 0).
Qed.

Lemma spectrum_silence : fourier_magnitudes (N:=RealNumpy) [0; 0; 0; 0] = Ok [0; 0].
Proof.
  rewrite spectrum_4.
  replace (0 + 0 + 0 + 0) with 0 by lra. replace (0 - 0) with 0 by lra.
  rewrite !modulus_real by lra.
  now rewrite (round_decimals_2_IZR 0).
Qed.

(** The peak maps of a constant frame followed by a tone, and of the same
    signal delayed by one frame of silence; windows of four samples, one
    bin per frame, one peak per bin. *)
Lemma to_peaks_base :
  to_peaks (N:=RealNumpy) [1; 1; 1; 1; 1; 0; -1; 0] 4 0 2 1 1 =
  Ok [(0%Z, [0%Z]); (1%Z, [1%Z])].
Proof.
  unfold to_peaks.
  change (rolling_window (N:=RealNumpy) [1; 1; 1; 1; 1; 0; -1; 0] 4 0 true)
    with (Ok ({| buffer := [1; 1; 1; 1; 1; 0; -1; 0];
                 shape := (2, 4)%Z; strides := (4, 1)%Z |}, 2%Z)).
  cbn [bind]. unfold np_apply_along_axis. cbn [shape fst Z.eqb].
  change (range 2) with [0%Z; 1%Z]. cbn [traverse].
  change (row _ 0) with (Ok [1; 1; 1; 1]). change (row _ 1) with (Ok [1; 0; -1; 0]).
  cbn [bind]. rewrite spectrum_constant, spectrum_tone. cbn [bind].
  change (make_bins (N:=RealNumpy) [0%Z; 1%Z] [[4; 0]; [0; 2]] 2 1)
    with (Ok [((0, 0)%Z, [(4, 0%Z, 0%Z); (0, 0%Z, 1%Z)]);
              ((1, 0)%Z, [(0, 1%Z, 0%Z); (2, 1%Z, 1%Z)])]).
  cbn [bind]. unfold select_peaks, nlargest, sorted_reverse.
  cbn [fold_left fold_right insert_desc peak_value fst snd float_lt RealNumpy
       Z.to_nat Pos.to_nat Pos.iter_op].
  rewrite (real_lt_false 4 0), (real_lt_true 0 2) by lra. reflexivity.
Qed.

Lemma to_peaks_delayed :
  to_peaks (N:=RealNumpy) [0; 0; 0; 0; 1; 1; 1; 1; 1; 0; -1; 0] 4 0 2 1 1 =
  Ok [(0%Z, [0%Z; 1%Z]); (1%Z, [2%Z])].
Proof.
  unfold to_peaks.
  change (rolling_window (N:=RealNumpy) [0; 0; 0; 0; 1; 1; 1; 1; 1; 0; -1; 0] 4 0 true)
    with (Ok ({| buffer := [0; 0; 0; 0; 1; 1; 1; 1; 1; 0; -1; 0];
                 shape := (3, 4)%Z; strides := (4, 1)%Z |}, 3%Z)).
  cbn [bind]. unfold np_apply_along_axis. cbn [shape fst Z.eqb].
  change (range 3) with [0%Z; 1%Z; 2%Z]. cbn [traverse].
  change (row _ 0) with (Ok [0; 0; 0; 0]). change (row _ 1) with (Ok [1; 1; 1; 1]).
  change (row _ 2) with (Ok [1; 0; -1; 0]).
  cbn [bind]. rewrite spectrum_silence, spectrum_constant, spectrum_tone. cbn [bind].
  change (make_bins (N:=RealNumpy) [0%Z; 1%Z; 2%Z] [[0; 0]; [4; 0]; [0; 2]] 2 1)
    with (Ok [((0, 0)%Z, [(0, 0%Z, 0%Z); (0, 0%Z, 1%Z)]);
              ((1, 0)%Z, [(4, 1%Z, 0%Z); (0, 1%Z, 1%Z)]);
              ((2, 0)%Z, [(0, 2%Z, 0%Z); (2, 2%Z, 1%Z)])]).
  cbn [bind]. unfold select_peaks, nlargest, sorted_reverse.
  cbn [fold_left fold_right insert_desc peak_value fst snd float_lt RealNumpy
       Z.to_nat Pos.to_nat Pos.iter_op].
  rewrite (real_lt_false 0 0), (real_lt_false 4 0), (real_lt_true 0 2) by lra.
  reflexivity.
Qed.

Lemma to_peaks_constant :
  to_peaks (N:=RealNumpy) [1; 1; 1; 1] 4 0 2 1 1 = Ok [(0%Z, [0%Z])].
Proof.
  unfold to_peaks.
  change (rolling_window (N:=RealNumpy) [1; 1; 1; 1] 4 0 true)
    with (Ok ({| buffer := [1; 1; 1; 1]; shape := (1, 4)%Z; strides := (4, 1)%Z |}, 1%Z)).
  cbn [bind]. unfold np_apply_along_axis. cbn [shape fst Z.eqb].
  change (range 1) with [0%Z]. cbn [traverse].
  change (row _ 0) with (Ok [1; 1; 1; 1]). cbn [bind].
  rewrite spectrum_constant. cbn [bind].
  change (make_bins (N:=RealNumpy) [0%Z] [[4; 0]] 2 1)
    with (Ok [((0, 0)%Z, [(4, 0%Z, 0%Z); (0, 0%Z, 1%Z)])]).
  cbn [bind]. unfold select_peaks, nlargest, sorted_reverse.
  cbn [fold_left fold_right insert_desc peak_value fst snd float_lt RealNumpy
       Z.to_nat Pos.to_nat Pos.iter_op].
  rewrite (real_lt_false 4 0) by lra. reflexivity.
Qed.

Lemma to_peaks_tone :
  to_peaks (N:=RealNumpy) [1; 0; -1; 0] 4 0 2 1 1 = Ok [(1%Z, [0%Z])].
Proof.
  unfold to_peaks.
  change (rolling_window (N:=RealNumpy) [1; 0; -1; 0] 4 0 true)
    with (Ok ({| buffer := [1; 0; -1; 0]; shape := (1, 4)%Z; strides := (4, 1)%Z |}, 1%Z)).
  cbn [bind]. unfold np_apply_along_axis. cbn [shape fst Z.eqb].
  change (range 1) with [0%Z]. cbn [traverse].
  change (row _ 0) with (Ok [1; 0; -1; 0]). cbn [bind].
  rewrite spectrum_tone. cbn [bind].
  change (make_bins (N:=RealNumpy) [0%Z] [[0; 2]] 2 1)
    with (Ok [((0, 0)%Z, [(0, 0%Z, 0%Z); (2, 0%Z, 1%Z)])]).
  cbn [bind]. unfold select_peaks, nlargest, sorted_reverse.
  cbn [fold_left fold_right insert_desc peak_value fst snd float_lt RealNumpy
       Z.to_nat Pos.to_nat Pos.iter_op].
  rewrite (real_lt_true 0 2) by lra. reflexivity.
Qed.

(** The delay of one frame is recovered. *)
Lemma synchronize_delayed :
  synchronize (N:=RealNumpy) [1; 1; 1; 1; 1; 0; -1; 0]
    [0; 0; 0; 0; 1; 1; 1; 1; 1; 0; -1; 0] 4 0 2 1 1 = Ok 1%Z.
Proof. unfold synchronize. rewrite to_peaks_base, to_peaks_delayed. reflexivity. Qed.

Lemma synchronize_base_self :
  synchronize (N:=RealNumpy) [1; 1; 1; 1; 1; 0; -1; 0] [1; 1; 1; 1; 1; 0; -1; 0]
    4 0 2 1 1 = Ok 0%Z.
Proof. unfold synchronize. rewrite to_peaks_base. reflexivity. Qed.

(** A constant and a tone have no peak frequency in common. *)
Lemma synchronize_constant_tone :
  synchronize (N:=RealNumpy) [1; 1; 1; 1] [1; 0; -1; 0] 4 0 2 1 1 = Raise ValueError.
Proof. unfold synchronize. rewrite to_peaks_constant, to_peaks_tone. reflexivity. Qed.

End FourSamples.

(** ** The properties on concrete inputs *)

(** C1 on a signal (a constant frame, then a tone) and the same signal
    delayed by one frame: the frequencies 0 and 1 are shared, offset 1 has
    two votes and offset 0 one, and the delay returned is 1. *)
Lemma estimate_delay_mode_witness :
  to_peaks (N:=RealNumpy) [1; 1; 1; 1; 1; 0; -1; 0]%R 4 0 2 1 1 =
    Ok [(0, [0]); (1, [1])] /\
  to_peaks (N:=RealNumpy) [0; 0; 0; 0; 1; 1; 1; 1; 1; 0; -1; 0]%R 4 0 2 1 1 =
    Ok [(0, [0; 1]); (1, [2])] /\
  synchronize (N:=RealNumpy) [1; 1; 1; 1; 1; 0; -1; 0]%R
    [0; 0; 0; 0; 1; 1; 1; 1; 1; 0; -1; 0]%R 4 0 2 1 1 =
    estimate_delay [(0, [0]); (1, [1])] [(0, [0; 1]); (1, [2])] /\
  synchronize (N:=RealNumpy) [1; 1; 1; 1; 1; 0; -1; 0]%R
    [0; 0; 0; 0; 1; 1; 1; 1; 1; 0; -1; 0]%R 4 0 2 1 1 = Ok 1 /\
  estimate_delay [(0, [0]); (1, [1])] [(0, [0; 1]); (1, [2])] = Ok 1 /\
  0 < votes [(0, [0]); (1, [1])] [(0, [0; 1]); (1, [2])] 1 /\
  forall d', votes [(0, [0]); (1, [1])] [(0, [0; 1]); (1, [2])] d' <=
             votes [(0, [0]); (1, [1])] [(0, [0; 1]); (1, [2])] 1.
Proof.
  pose proof (estimate_delay_mode (N:=RealNumpy) [(0, [0]); (1, [1])] [(0, [0; 1]); (1, [2])])
    as (_ & _ & _ & Hmode & _ & _ & Hsync).
  assert (H : estimate_delay [(0, [0]); (1, [1])] [(0, [0; 1]); (1, [2])] = Ok 1)
    by reflexivity.
  split; [exact to_peaks_base|]. split; [exact to_peaks_delayed|].
  split; [exact (Hsync _ _ _ _ _ _ _ to_peaks_base to_peaks_delayed)|].
  split; [exact synchronize_delayed|].
  split; [exact H|]. exact (Hmode 1 H).
Defined.

(** C2 on a constant frame and a tone: their peak maps hold the frequencies
    0 and 1. *)
Lemma estimate_delay_no_common_witness :
  (forall f, ~ (In f (Dict.keys [(0, [0])]) /\ In f (Dict.keys [(1, [0])]))) /\
  estimate_delay [(0, [0])] [(1, [0])] = Raise ValueError /\
  synchronize (N:=RealNumpy) [1; 1; 1; 1]%R [1; 0; -1; 0]%R 4 0 2 1 1 = Raise ValueError.
Proof.
  assert (H : forall f, ~ (In f (Dict.keys [(0, [0])]) /\ In f (Dict.keys [(1, [0])]))).
  { simpl. intros f [[<-|[]] [E|[]]]. discriminate. }
  pose proof (estimate_delay_no_common (N:=RealNumpy) [(0, [0])] [(1, [0])] H)
    as (Hfail & _ & Hsync).
  split; [exact H|]. split; [exact Hfail|].
  exact (Hsync _ _ _ _ _ _ _ to_peaks_constant to_peaks_tone).
Defined.

(** The claim C2 fails on the code: a constant frame and a tone have the
    peak maps [{0: [0]}] and [{1: [0]}], which share no frequency index, and
    [synchronize] fails with [ValueError], not with [NoCommonLandmarks]. *)
Lemma no_common_landmarks_counterexample :
  to_peaks (N:=RealNumpy) [1; 1; 1; 1]%R 4 0 2 1 1 = Ok [(0, [0])] /\
  to_peaks (N:=RealNumpy) [1; 0; -1; 0]%R 4 0 2 1 1 = Ok [(1, [0])] /\
  shared [(0, [0])] [(1, [0])] = [] /\
  synchronize (N:=RealNumpy) [1; 1; 1; 1]%R [1; 0; -1; 0]%R 4 0 2 1 1 = Raise ValueError /\
  synchronize (N:=RealNumpy) [1; 1; 1; 1]%R [1; 0; -1; 0]%R 4 0 2 1 1
    <> Raise NoCommonLandmarks.
Proof.
  split; [exact to_peaks_constant|]. split; [exact to_peaks_tone|].
  split; [reflexivity|]. rewrite synchronize_constant_tone.
  split; [reflexivity | discriminate].
Qed.

(** C3 on a signal of five samples, windows of two samples overlapping by
    one. *)
Lemma rolling_window_frames_witness :
  0 <= 1 < 2 /\
  2 <= Z.of_nat (length [1; 2; 3; 4; 5]%R) /\
  exists windows,
    rolling_window (N:=RealNumpy) [1; 2; 3; 4; 5]%R 2 1 true = Ok (windows, 4) /\
    traverse (row windows) (range 4) = Ok [[1; 2]; [2; 3]; [3; 4]; [4; 5]]%R.
Proof.
  assert (H1 : 0 <= 1 < 2) by lia.
  assert (H2 : 2 <= Z.of_nat (length [1; 2; 3; 4; 5]%R)) by (simpl; lia).
  split; [exact H1|]. split; [exact H2|].
  destruct (rolling_window_frames (N:=RealNumpy) [1; 2; 3; 4; 5]%R 2 1 H1 H2)
    as (windows & Hrw & _ & _ & Hrows & _).
  exists windows. split; [exact Hrw | exact Hrows].
Defined.

(** C4 on the magnitudes of a constant frame followed by a tone, one bin
    per frame. *)
Lemma peak_selection_witness :
  2 <> 0 /\
  exists bins,
    make_bins (N:=RealNumpy) (range 2) [[4; 0]; [0; 2]]%R 2 1 = Ok bins /\
    NoDup (Dict.keys bins) /\
    (forall b l, In (b, l) bins ->
       exists rest,
         Permutation (nlargest 1 l peak_value ++ rest) l /\
         forall s r, In s (nlargest 1 l peak_value) -> In r rest -> above s r = false) /\
    forall f, frames_of (select_peaks bins 1) f =
              map peak_window (filter (has_frequency f) (selected bins 1)).
Proof.
  assert (H : 2 <> 0) by lia.
  split; [exact H|].
  destruct (@peak_selection RealNumpy RealNumpy_laws [[4; 0]; [0; 2]]%R 2 1 1 H)
    as (bins & Hbins & _ & Hnd & _ & _ & Hsel & Hframes & _).
  exists bins. split; [exact Hbins|]. split; [exact Hnd|]. split; [|exact Hframes].
  intros b l Hin. destruct (Hsel b l Hin) as (rest & Hperm & _ & Habove).
  exists rest. split; [exact Hperm | exact Habove].
Defined.

(** C5 on a constant frame followed by a tone: two windows, one temporal
    block each, so at most two entries under a frequency. *)
Lemma to_peaks_bounds_witness :
  0 < 1 /\ 0 <= 1 /\
  rolling_window (N:=RealNumpy) [1; 1; 1; 1; 1; 0; -1; 0]%R 4 0 true =
    Ok ({| buffer := [1; 1; 1; 1; 1; 0; -1; 0]%R; shape := (2, 4); strides := (4, 1) |}, 2) /\
  to_peaks (N:=RealNumpy) [1; 1; 1; 1; 1; 0; -1; 0]%R 4 0 2 1 1 =
    Ok [(0, [0]); (1, [1])] /\
  forall f entries,
    Dict.get Z.eq_dec [(0, [0]); (1, [1])] f = Some entries ->
    Z.of_nat (length entries) <= (2 + 1 - 1) / 1 * 1.
Proof.
  assert (H1 : 0 < 1) by lia.
  assert (H2 : 0 <= 1) by lia.
  assert (H3 : rolling_window (N:=RealNumpy) [1; 1; 1; 1; 1; 0; -1; 0]%R 4 0 true =
               Ok ({| buffer := [1; 1; 1; 1; 1; 0; -1; 0]%R;
                      shape := (2, 4); strides := (4, 1) |}, 2))
    by reflexivity.
  split; [exact H1|]. split; [exact H2|]. split; [exact H3|].
  split; [exact to_peaks_base|].
  destruct (@to_peaks_bounds RealNumpy RealNumpy_laws _ _ _ _ _ _ _ _ _
              H1 H2 H3 to_peaks_base)
    as (magnitudes & bins & _ & _ & _ & Hbound & _).
  exact Hbound.
Defined.

(** C6 on a tone of four samples. *)
Lemma fourier_magnitudes_spectrum_witness :
  Z.of_nat (length [1; 0; -1; 0]%R) = 4 /\ 0 < 4 /\
  fourier_magnitudes (N:=RealNumpy) [1; 0; -1; 0]%R = Ok [0; 2]%R /\
  exists mag,
    fourier_magnitudes (N:=RealNumpy) [1; 0; -1; 0]%R = Ok mag /\
    Z.of_nat (length mag) = 4 / 2 /\
    Forall nonneg mag.
Proof.
  assert (H1 : Z.of_nat (length [1; 0; -1; 0]%R) = 4) by reflexivity.
  assert (H2 : 0 < 4) by lia.
  split; [exact H1|]. split; [exact H2|]. split; [exact spectrum_tone|].
  destruct (@fourier_magnitudes_spectrum RealNumpy RealNumpy_laws [1; 0; -1; 0]%R 4 H1 H2)
    as (mag & Hmag & Hlen & _ & Hnn).
  exists mag. split; [exact Hmag|]. split; [exact Hlen | exact Hnn].
Defined.

(** C7 on a frame of three samples and on the empty frame. *)
Lemma fourier_magnitudes_failures_witness :
  (exists mag, fourier_magnitudes (N:=RealNumpy) [1; 2; 3]%R = Ok mag /\
               Z.of_nat (length mag) = Z.of_nat (length [1; 2; 3]%R) / 2) /\
  fourier_magnitudes (N:=RealNumpy) [] = Raise ValueError.
Proof.
  split.
  - apply (proj1 (proj2 (proj2 (fourier_magnitudes_failures (N:=RealNumpy) [1; 2; 3]%R)))).
    discriminate.
  - apply (proj1 (proj1 (proj2 (fourier_magnitudes_failures (N:=RealNumpy) [])))).
    reflexivity.
Defined.

(** The claim C7 fails on the code: a frame of three samples, whatever the
    [window_size] of the pipeline around it (4, say), is analysed and one
    value is returned; and the empty frame, whose length is the
    [window_size] of a pipeline run with [window_size = 0], fails with
    [ValueError]. *)
Lemma malformed_frame_counterexample :
  Z.of_nat (length [1; 2; 3]%R) <> 4 /\
  fourier_magnitudes (N:=RealNumpy) [1; 2; 3]%R =
    Ok [np_round (np_abs (fft_coef [1; 2; 3]%R 0)) 2] /\
  fourier_magnitudes (N:=RealNumpy) [1; 2; 3]%R <> Raise MalformedFrame /\
  Z.of_nat (length (@nil R)) = 0 /\
  fourier_magnitudes (N:=RealNumpy) [] = Raise ValueError.
Proof. repeat split; try reflexivity; discriminate. Qed.



(** C9 on a constant frame followed by a tone. *)
Lemma synchronize_self_witness :
  synchronize (N:=RealNumpy) [1; 1; 1; 1; 1; 0; -1; 0]%R [1; 1; 1; 1; 1; 0; -1; 0]%R
    4 0 2 1 1 = Ok 0 /\ 0 = 0.
Proof.
  split; [exact synchronize_base_self|].
  exact (synchronize_self (N:=RealNumpy) [1; 1; 1; 1; 1; 0; -1; 0]%R 4 0 2 1 1 0
           synchronize_base_self).
Defined.

(** C10 on a constant frame followed by a tone. *)
Lemma zero_peaks_per_bin_witness :
  0 <= 0 < 4 /\ 4 <= Z.of_nat (length [1; 1; 1; 1; 1; 0; -1; 0]%R) /\ 2 <> 0 /\
  to_peaks (N:=RealNumpy) [1; 1; 1; 1; 1; 0; -1; 0]%R 4 0 2 1 0 = Ok [] /\
  synchronize (N:=RealNumpy) [1; 1; 1; 1; 1; 0; -1; 0]%R [1; 1; 1; 1; 1; 0; -1; 0]%R
    4 0 2 1 0 = Raise ValueError.
Proof.
  assert (H1 : 0 <= 0 < 4) by lia.
  assert (H2 : 4 <= Z.of_nat (length [1; 1; 1; 1; 1; 0; -1; 0]%R)) by (simpl; lia).
  assert (H3 : 2 <> 0) by lia.
  pose proof (zero_peaks_per_bin (N:=RealNumpy) [1; 1; 1; 1; 1; 0; -1; 0]%R
                [1; 1; 1; 1; 1; 0; -1; 0]%R 4 0 2 1)
    as (_ & _ & Hvalid & _ & _ & Hfail).
  pose proof (Hvalid _ H1 H2 H3) as Hpeaks.
  split; [exact H1|]. split; [exact H2|]. split; [exact H3|]. split; [exact Hpeaks|].
  exact (Hfail [] [] Hpeaks Hpeaks).
Defined.

(** * Further properties *)

(** ** Framer: what the views hold *)

Lemma firstn_plus {A : Type} (a b : nat) (l : list A) :
  firstn (a + b) l = firstn a l ++ firstn b (skipn a l).
Proof.
  revert l; induction a as [|a IH]; intros l; [reflexivity|].
  destruct l as [|x l]; simpl; [now rewrite firstn_nil | now rewrite IH].
Qed.

(** Reading [w] consecutive positions from [k] on is taking a slice. *)
Lemma map_nth_slice {A : Type} (d : A) (l : list A) (k w : nat) :
  (k + w <= length l)%nat ->
  map (fun n => nth (k + n) l d) (seq 0 w) = firstn w (skipn k l).
Proof.
  revert k; induction w as [|w IH]; intros k Hk; [reflexivity|].
  simpl seq. rewrite <- seq_shift. simpl map. rewrite map_map.
  destruct (skipn k l) as [|x rest] eqn:E.
  { apply (f_equal (@length A)) in E. rewrite length_skipn in E. simpl in E. lia. }
  simpl firstn. f_equal.
  - rewrite Nat.add_0_r. rewrite <- (Nat.add_0_r k) at 1.
    rewrite <- nth_skipn, E. reflexivity.
  - rewrite (map_ext _ (fun n => nth (S k + n) l d))
      by (intros n; f_equal; lia).
    rewrite IH by lia. f_equal.
    change (S k) with (1 + k)%nat. rewrite <- skipn_skipn, E. reflexivity.
Qed.

Lemma concat_slices {A : Type} (l : list A) (w m : nat) :
  concat (map (fun n => firstn w (skipn (n * w) l)) (seq 0 m)) = firstn (m * w) l.
Proof.
  induction m as [|m IH]; [reflexivity|].
  rewrite seq_S, map_app, concat_app, IH. simpl.
  rewrite app_nil_r, (Nat.add_comm w (m * w)). symmetry. apply firstn_plus.
Qed.

Section FramerFurther.
Context {N : Numpy}.

(** A frame that fits in the signal is a slice of it. *)
Lemma frame_at_slice (arr : list float) (step_size window_size i : Z) :
  0 <= i * step_size -> 0 <= window_size ->
  i * step_size + window_size <= Z.of_nat (length arr) ->
  frame_at arr step_size window_size i =
  firstn (Z.to_nat window_size) (skipn (Z.to_nat (i * step_size)) arr).
Proof.
  intros Hi Hw Hfit. unfold frame_at, range. rewrite map_map.
  rewrite <- map_nth_slice with (d := fzero) by lia.
  apply map_ext. intros n. f_equal. lia.
Qed.

(** With a positive step the floor division leaves room for the last
    window. *)
Lemma last_window_fits (L window_size step_size : Z) :
  0 < step_size ->
  ((L - window_size) / step_size + 1 - 1) * step_size + window_size <= L.
Proof. intros Hs. pose proof (Z.mul_div_le (L - window_size) step_size Hs). lia. Qed.

(** The view returned with a positive step, padded or not. *)
Lemma rolling_window_rows (arr : list float) (window_size overlap : Z) (pad : bool)
  (windows : view) (num_windows : Z) :
  overlap < window_size ->
  rolling_window arr window_size overlap pad = Ok (windows, num_windows) ->
  num_windows = (Z.of_nat (length arr) - window_size) / (window_size - overlap) + 1 /\
  shape windows = (num_windows, window_size) /\
  0 <= num_windows /\ 0 <= window_size /\
  forall i, 0 <= i < num_windows ->
    i * (window_size - overlap) + window_size <= Z.of_nat (length arr) /\
    row windows i = Ok (frame_at arr (window_size - overlap) window_size i).
Proof.
  intros Hstep H. unfold rolling_window, py_floordiv in H.
  set (L := Z.of_nat (length arr)) in *.
  set (step_size := window_size - overlap) in *.
  replace (step_size =? 0) with false in H by (symmetry; apply Z.eqb_neq; lia).
  simpl bind in H.
  set (num_windows' := (L - window_size) / step_size + 1) in *.
  apply bind_Ok_inv in H as (v & Hv & [= <- <-]).
  unfold as_strided in Hv. simpl fst in Hv; simpl snd in Hv.
  destruct (Z.ltb_spec num_windows' 0) as [|Hnw]; [discriminate|].
  destruct (Z.ltb_spec window_size 0) as [|Hws]; [discriminate|].
  simpl in Hv. injection Hv as <-.
  split; [reflexivity|]. split; [reflexivity|]. split; [assumption|]. split; [assumption|].
  intros i Hi.
  pose proof (last_window_fits L window_size step_size ltac:(lia)) as Hfit.
  fold num_windows' in Hfit.
  assert (Hin : i * step_size + window_size <= L) by nia.
  split; [exact Hin|].
  unfold row, frame_at. simpl shape. simpl snd.
  apply traverse_pure. intros j Hj. apply in_range in Hj.
  rewrite item_inside; simpl buffer; simpl strides; simpl fst; simpl snd.
  - rewrite !Z.mul_1_r. destruct pad; [now rewrite nth_np_pad | reflexivity].
  - rewrite !Z.mul_1_r.
    assert (L <= Z.of_nat (length (if pad then np_pad arr
              (Z.max 0 ((num_windows' - 1) * step_size + window_size - L)) else arr))).
    { destruct pad; [rewrite np_pad_length; fold L; lia | fold L; lia]. }
    nia.
Qed.

(** X1. With a positive step the padding computed by the framer is always
    empty, whatever the length of the signal: the view returned with
    [pad=True] is built on the samples of the signal and nothing else. *)
Theorem rolling_window_adds_no_padding (arr : list float) (window_size overlap : Z) :
  overlap < window_size ->
  let L := Z.of_nat (length arr) in
  let step_size := window_size - overlap in
  let num_windows := (L - window_size) / step_size + 1 in
  Z.max 0 ((num_windows - 1) * step_size + window_size - L) = 0 /\
  forall windows n,
    rolling_window arr window_size overlap true = Ok (windows, n) ->
    buffer windows = arr.
Proof.
  intros Hstep L step_size num_windows.
  pose proof (last_window_fits L window_size step_size ltac:(unfold step_size; lia)) as Hfit.
  fold num_windows in Hfit.
  assert (Hpad : Z.max 0 ((num_windows - 1) * step_size + window_size - L) = 0) by lia.
  split; [exact Hpad|].
  intros windows n. unfold rolling_window, py_floordiv. fold L step_size.
  destruct (step_size =? 0); [discriminate|]. simpl bind. fold num_windows.
  rewrite Hpad. unfold np_pad. simpl repeat. rewrite app_nil_r.
  unfold as_strided. destruct (_ || _); [discriminate|]. simpl bind.
  intros H. injection H as <- _. reflexivity.
Qed.

(** X2. With a positive step, padded or not, every row of the view the
    framer returns is read inside the buffer and is a slice of
    [window_size] consecutive samples of the signal, starting at
    [i * step_size]: no row holds a padded zero and none reaches past the
    end of the signal. *)
Theorem rolling_window_rows_are_slices (arr : list float) (window_size overlap : Z)
  (pad : bool) (windows : view) (num_windows : Z) :
  overlap < window_size ->
  rolling_window arr window_size overlap pad = Ok (windows, num_windows) ->
  forall i, 0 <= i < num_windows ->
    i * (window_size - overlap) + window_size <= Z.of_nat (length arr) /\
    row windows i =
      Ok (firstn (Z.to_nat window_size)
            (skipn (Z.to_nat (i * (window_size - overlap))) arr)).
Proof.
  intros Hstep Hrw i Hi.
  destruct (rolling_window_rows _ _ _ _ _ _ Hstep Hrw) as (_ & _ & _ & Hws & Hrows).
  destruct (Hrows i Hi) as [Hfit Hrow]. split; [exact Hfit|].
  rewrite Hrow. f_equal. apply frame_at_slice; [nia | assumption | assumption].
Qed.

(** X3. With [0 <= overlap < window_size], consecutive frames share
    [overlap] samples: what follows the first [step_size] samples of frame
    [i] is the beginning of frame [i + 1]. *)
Theorem consecutive_frames_overlap (arr : list float) (window_size overlap : Z)
  (pad : bool) (windows : view) (num_windows : Z) :
  0 <= overlap < window_size ->
  rolling_window arr window_size overlap pad = Ok (windows, num_windows) ->
  forall i, 0 <= i -> i + 1 < num_windows ->
    exists frame next,
      row windows i = Ok frame /\ row windows (i + 1) = Ok next /\
      length frame = Z.to_nat window_size /\ length next = Z.to_nat window_size /\
      skipn (Z.to_nat (window_size - overlap)) frame = firstn (Z.to_nat overlap) next.
Proof.
  intros Hov Hrw i Hi Hnext.
  destruct (rolling_window_rows _ _ _ _ _ _ (proj2 Hov) Hrw) as (_ & _ & _ & Hws & Hrows).
  destruct (Hrows i ltac:(lia)) as [Hfit1 Hrow1].
  destruct (Hrows (i + 1) ltac:(lia)) as [Hfit2 Hrow2].
  set (step_size := window_size - overlap) in *.
  exists (frame_at arr step_size window_size i), (frame_at arr step_size window_size (i + 1)).
  split; [exact Hrow1|]. split; [exact Hrow2|].
  split; [apply frame_at_length|]. split; [apply frame_at_length|].
  rewrite !frame_at_slice by nia.
  rewrite skipn_firstn_comm, skipn_skipn, firstn_firstn.
  replace (Z.to_nat window_size - Z.to_nat step_size)%nat with (Z.to_nat overlap)
    by (unfold step_size; lia).
  replace (Nat.min (Z.to_nat overlap) (Z.to_nat window_size)) with (Z.to_nat overlap) by lia.
  do 2 f_equal. nia.
Qed.

(** X4. Without overlap the frames tile the signal: there are
    [L // window_size] of them, their concatenation is the signal up to
    sample [num_windows * window_size], and the [L mod window_size] samples
    after that are in no frame. *)
Theorem frames_tile_signal (arr : list float) (window_size : Z) (pad : bool)
  (windows : view) (num_windows : Z) :
  0 < window_size ->
  rolling_window arr window_size 0 pad = Ok (windows, num_windows) ->
  num_windows = Z.of_nat (length arr) / window_size /\
  exists frames,
    traverse (row windows) (range num_windows) = Ok frames /\
    concat frames = firstn (Z.to_nat (num_windows * window_size)) arr /\
    Z.of_nat (length (skipn (Z.to_nat (num_windows * window_size)) arr)) =
      Z.of_nat (length arr) mod window_size.
Proof.
  intros Hws Hrw.
  assert (Hstep : 0 < window_size) by lia.
  destruct (rolling_window_rows _ _ _ _ _ _ Hstep Hrw) as (Hnw & _ & Hnn & _ & Hrows).
  rewrite Z.sub_0_r in Hnw, Hrows.
  set (L := Z.of_nat (length arr)) in *.
  assert (Hq : num_windows = L / window_size).
  { rewrite Hnw. replace (L - window_size) with (L + (-1) * window_size) by lia.
    rewrite Z.div_add by lia. lia. }
  split; [exact Hq|].
  exists (map (fun n => firstn (Z.to_nat window_size)
                          (skipn (n * Z.to_nat window_size) arr))
            (seq 0 (Z.to_nat num_windows))).
  split; [|split].
  - unfold range.
    replace (map (fun n => firstn (Z.to_nat window_size)
                             (skipn (n * Z.to_nat window_size) arr))
               (seq 0 (Z.to_nat num_windows)))
      with (map (fun i => firstn (Z.to_nat window_size)
                            (skipn (Z.to_nat i * Z.to_nat window_size) arr))
              (map Z.of_nat (seq 0 (Z.to_nat num_windows))))
      by (rewrite map_map; apply map_ext; intros n; now rewrite Nat2Z.id).
    apply traverse_pure. intros i Hi. apply in_range in Hi.
    destruct (Hrows i Hi) as [Hfit ->]. f_equal.
    rewrite frame_at_slice by nia. do 2 f_equal. nia.
  - rewrite concat_slices. f_equal. nia.
  - rewrite length_skipn. fold L.
    pose proof (Z.div_mod L window_size ltac:(lia)) as Hdm.
    pose proof (Z.mod_pos_bound L window_size Hws). rewrite <- Hq in Hdm. nia.
Qed.

End FramerFurther.

(** ** Peak maps: outcomes and shape *)

Lemma traverse_ext {A B : Type} (f g : A -> result B) (xs : list A) :
  (forall x, In x xs -> f x = g x) -> traverse f xs = traverse g xs.
Proof.
  induction xs as [|x xs IH]; intros H; simpl; [reflexivity|].
  rewrite (H x (or_introl eq_refl)), IH; [reflexivity|]. intros; apply H; now right.
Qed.

Lemma traverse_In {A B : Type} (f : A -> result B) (xs : list A) (ys : list B) (y : B) :
  traverse f xs = Ok ys -> In y ys -> exists x, In x xs /\ f x = Ok y.
Proof.
  revert ys; induction xs as [|x xs IH]; intros ys; simpl.
  - intros [= <-] [].
  - intros H. apply bind_Ok_inv in H as (y0 & Hy0 & H).
    apply bind_Ok_inv in H as (ys' & Hys & [= <-]).
    intros [<-|Hin]; [exists x; auto|].
    destruct (IH ys' Hys Hin) as (x' & Hx' & E). exists x'. auto.
Qed.

Lemma range_head (n : Z) : 1 <= n -> exists rest, range n = 0 :: rest.
Proof.
  intros H. unfold range. destruct (Z.to_nat n) as [|m] eqn:E; [lia|].
  simpl. eauto.
Qed.

Section PeakMaps.
Context {N : Numpy}.

Lemma fourier_magnitudes_spectrum_of (frame : list float) :
  frame <> [] -> fourier_magnitudes frame = Ok (spectrum frame).
Proof. apply fourier_magnitudes_nonempty. Qed.

Lemma spectrum_length (frame : list float) :
  Z.of_nat (length (spectrum frame)) = Z.of_nat (length frame) / 2.
Proof.
  unfold spectrum. rewrite length_map, length_seq.
  pose proof (Z.div_pos (Z.of_nat (length frame)) 2). lia.
Qed.

Lemma fourier_magnitudes_Ok_length (frame mag : list float) :
  fourier_magnitudes frame = Ok mag ->
  Z.of_nat (length mag) = Z.of_nat (length frame) / 2.
Proof.
  destruct frame as [|x frame]; [discriminate|].
  rewrite fourier_magnitudes_spectrum_of by discriminate.
  intros [= <-]. apply spectrum_length.
Qed.

(** With a positive step and a signal that holds a window, [to_peaks] is
    the two loops run on the spectrogram. *)
Lemma to_peaks_spectrogram (signal : list float)
  (window_size overlap spectral_band temporal_band peaks_per_bin : Z) :
  overlap < window_size ->
  1 <= window_size <= Z.of_nat (length signal) ->
  let num_windows :=
    (Z.of_nat (length signal) - window_size) / (window_size - overlap) + 1 in
  1 <= num_windows /\
  to_peaks signal window_size overlap spectral_band temporal_band peaks_per_bin =
  (bins <- make_bins (range num_windows) (spectrogram signal window_size overlap)
             spectral_band temporal_band ;;
   Ok (select_peaks bins peaks_per_bin)).
Proof.
  intros Hstep Hws num_windows.
  assert (Hnw : 1 <= num_windows).
  { unfold num_windows.
    pose proof (Z.div_pos (Z.of_nat (length signal) - window_size)
                  (window_size - overlap)). lia. }
  split; [exact Hnw|].
  destruct (rolling_window signal window_size overlap true) as [[windows nw]| |] eqn:Hrw.
  - destruct (rolling_window_rows _ _ _ _ _ _ Hstep Hrw) as (-> & Hshape & _ & _ & Hrows).
    fold num_windows in Hrows, Hrw, Hshape.
    unfold to_peaks. rewrite Hrw. simpl bind.
    unfold np_apply_along_axis. rewrite Hshape. simpl fst.
    replace (num_windows =? 0) with false by (symmetry; apply Z.eqb_neq; lia).
    rewrite (traverse_pure _
      (fun i => spectrum (frame_at signal (window_size - overlap) window_size i))).
    + reflexivity.
    + intros i Hi. apply in_range in Hi. destruct (Hrows i Hi) as [_ ->]. simpl bind.
      apply fourier_magnitudes_spectrum_of. intros E.
      apply (f_equal (@length _)) in E. rewrite frame_at_length in E. simpl in E. lia.
  - exfalso. pose proof (rolling_window_outcome signal window_size overlap true)
      as (H0 & Hneg & Hok). cbv zeta in H0, Hneg, Hok. fold num_windows in Hneg, Hok.
    destruct (Hok ltac:(lia) ltac:(lia) ltac:(lia)) as (w & E & _). congruence.
  - exfalso. pose proof (rolling_window_outcome signal window_size overlap true)
      as (H0 & Hneg & Hok). cbv zeta in H0, Hneg, Hok. fold num_windows in Hneg, Hok.
    destruct (Hok ltac:(lia) ltac:(lia) ltac:(lia)) as (w & E & _). congruence.
Qed.

Lemma spectrogram_length (signal : list float) (window_size overlap : Z) :
  length (spectrogram signal window_size overlap) =
  Z.to_nat ((Z.of_nat (length signal) - window_size) / (window_size - overlap) + 1).
Proof. unfold spectrogram. now rewrite length_map, range_length. Qed.

Lemma spectrogram_rows (signal : list float) (window_size overlap : Z) (values : list float) :
  In values (spectrogram signal window_size overlap) ->
  Z.of_nat (length values) = Z.max 0 window_size / 2.
Proof.
  unfold spectrogram. rewrite in_map_iff. intros (i & <- & _).
  rewrite spectrum_length, frame_at_length. f_equal. lia.
Qed.

(** The cells of a matrix: none when every row is empty, some when the first
    row and the list of indices are not. *)
Lemma cells_empty_rows (ws : list Z) (magnitudes : list (list float)) :
  (forall values, In values magnitudes -> values = []) -> cells ws magnitudes = [].
Proof.
  revert magnitudes; induction ws as [|w ws IH]; intros [|values magnitudes] H;
    try reflexivity.
  rewrite cells_cons, (H values (or_introl eq_refl)). simpl.
  apply IH. intros; apply H; now right.
Qed.

Lemma cells_first_row (w : Z) (ws : list Z) (x : float) (values : list float)
  (magnitudes : list (list float)) :
  cells (w :: ws) ((x :: values) :: magnitudes) <> [].
Proof.
  intros E.
  assert (H : In (x, w, 0) (cells (w :: ws) ((x :: values) :: magnitudes))).
  { rewrite cells_cons. apply in_or_app. left. apply in_map_iff.
    exists (0, x). split; [reflexivity|]. apply in_enumerate. split; [lia | reflexivity]. }
  rewrite E in H. contradiction.
Qed.

End PeakMaps.

Section PeakMapClaims.
Context {N : Numpy}.

Lemma rolling_window_shape (arr : list float) (window_size overlap : Z) (pad : bool)
  (windows : view) (num_windows : Z) :
  rolling_window arr window_size overlap pad = Ok (windows, num_windows) ->
  shape windows = (num_windows, window_size) /\ 0 <= num_windows /\ 0 <= window_size.
Proof.
  unfold rolling_window. intros H.
  apply bind_Ok_inv in H as (q & _ & H).
  apply bind_Ok_inv in H as (v & Hv & [= <- <-]).
  unfold as_strided in Hv. simpl fst in Hv; simpl snd in Hv.
  destruct (Z.ltb_spec (q + 1) 0); [discriminate|].
  destruct (Z.ltb_spec window_size 0); [discriminate|].
  simpl in Hv. injection Hv as <-. auto.
Qed.

Lemma selected_In (bins : Dict.t (list peak)) (ppb : Z) (p : peak) :
  In p (selected bins ppb) -> exists b l, In (b, l) bins /\ In p l.
Proof.
  unfold selected. rewrite in_flat_map. intros ([b l] & Hin & Hp).
  exists b, l. split; [assumption|]. now apply nlargest_In in Hp.
Qed.

(** The entries of a peak map come from cells of the magnitude matrix. *)
Lemma to_peaks_entry (signal : list float)
  (window_size overlap spectral_band temporal_band peaks_per_bin : Z)
  (windows : view) (num_windows : Z) (peaks : Dict.t (list Z)) (f w : Z) :
  rolling_window signal window_size overlap true = Ok (windows, num_windows) ->
  to_peaks signal window_size overlap spectral_band temporal_band peaks_per_bin = Ok peaks ->
  In w (frames_of peaks f) ->
  exists magnitudes v,
    np_apply_along_axis fourier_magnitudes windows = Ok magnitudes /\
    In (v, w, f) (cells (range (Z.of_nat (length magnitudes))) magnitudes) /\
    0 <= w < num_windows.
Proof.
  intros Hrw Hpeaks Hw.
  destruct (to_peaks_stages _ _ _ _ _ _ _ Hpeaks)
    as (windows' & nw' & magnitudes & Hrw' & Hmag & Hrange & _ & Epeaks).
  rewrite Hrw in Hrw'. injection Hrw' as <- <-.
  rewrite Epeaks, select_peaks_frames in Hw.
  apply in_map_iff in Hw as ([[v w'] f'] & Ew & Hp).
  unfold peak_window in Ew. simpl in Ew. subst w'.
  apply filter_In in Hp as [Hp Hf]. unfold has_frequency, peak_frequency in Hf.
  simpl in Hf. apply Z.eqb_eq in Hf. subst f'.
  apply selected_In in Hp as (b & l & Hbl & Hp).
  pose proof (proj1 (bins_consistent _ _ _ _ _ _ Hbl Hp)) as Hcell.
  exists magnitudes, v. split; [exact Hmag|]. split.
  - now rewrite <- Hrange.
  - apply cells_window, in_range in Hcell. exact Hcell.
Qed.

(** No list of a peak map is empty. *)
Lemma to_peaks_frames_nonempty (signal : list float)
  (window_size overlap spectral_band temporal_band peaks_per_bin : Z)
  (peaks : Dict.t (list Z)) (f : Z) :
  to_peaks signal window_size overlap spectral_band temporal_band peaks_per_bin = Ok peaks ->
  In f (Dict.keys peaks) -> frames_of peaks f <> [].
Proof.
  intros Hpeaks Hf.
  destruct (to_peaks_stages _ _ _ _ _ _ _ Hpeaks)
    as (windows & nw & magnitudes & _ & _ & _ & _ & Epeaks).
  rewrite Epeaks, select_peaks_grouped in Hf |- *.
  pose proof (grouped_nonempty Z.eq_dec peak_frequency peak_window
    (selected (Dict.grouped bin_eq_dec (bin_of temporal_band spectral_band)
                 (fun p : peak => p) (cells (range nw) magnitudes) []) peaks_per_bin)
    [] (Forall_nil _)) as Hall.
  rewrite Forall_forall in Hall.
  unfold frames_of, Dict.get_default.
  destruct (Dict.get Z.eq_dec _ f) as [frames|] eqn:E.
  - apply get_In in E. exact (Hall (f, frames) E).
  - apply get_None_keys in E. contradiction.
Qed.

Lemma to_peaks_keys_NoDup (signal : list float)
  (window_size overlap spectral_band temporal_band peaks_per_bin : Z)
  (peaks : Dict.t (list Z)) :
  to_peaks signal window_size overlap spectral_band temporal_band peaks_per_bin = Ok peaks ->
  NoDup (Dict.keys peaks).
Proof.
  intros Hpeaks.
  destruct (to_peaks_stages _ _ _ _ _ _ _ Hpeaks)
    as (windows & nw & magnitudes & _ & _ & _ & _ & ->).
  rewrite select_peaks_grouped. apply NoDup_keys_grouped. constructor.
Qed.

(** A signal that holds no window: the view has no row, or a negative
    dimension, or rows without a sample. *)
Lemma to_peaks_short (signal : list float)
  (window_size overlap spectral_band temporal_band peaks_per_bin : Z) :
  overlap < window_size ->
  Z.of_nat (length signal) < window_size \/ window_size <= 0 ->
  to_peaks signal window_size overlap spectral_band temporal_band peaks_per_bin =
  Raise ValueError.
Proof.
  intros Hstep Hshort.
  set (L := Z.of_nat (length signal)) in *.
  set (num_windows := (L - window_size) / (window_size - overlap) + 1).
  pose proof (rolling_window_outcome signal window_size overlap true) as (H0 & Hneg & Hok).
  cbv zeta in H0, Hneg, Hok. fold L in Hneg, Hok. fold num_windows in Hneg, Hok.
  assert (Hs : window_size - overlap <> 0) by lia.
  destruct (Z.lt_ge_cases window_size 0) as [Hws|Hws].
  { unfold to_peaks. rewrite (Hneg Hs) by (now right). reflexivity. }
  destruct (Z.lt_ge_cases num_windows 0) as [Hnw|Hnw].
  { unfold to_peaks. rewrite (Hneg Hs) by (now left). reflexivity. }
  destruct (Hok Hs Hnw Hws) as (windows & Hrw & Hshape & _).
  unfold to_peaks. rewrite Hrw. simpl bind.
  unfold np_apply_along_axis. rewrite Hshape. simpl fst.
  destruct (Z.eqb_spec num_windows 0) as [|Hne]; [reflexivity|].
  destruct (range_head num_windows ltac:(lia)) as [rest ->]. simpl traverse.
  assert (Hw0 : window_size = 0).
  { destruct Hshort as [Hshort|]; [|lia]. exfalso.
    assert ((L - window_size) / (window_size - overlap) < 0)
      by (apply Z.div_lt_upper_bound; lia).
    unfold num_windows in Hnw, Hne. lia. }
  unfold row. rewrite Hshape. simpl snd. rewrite Hw0. reflexivity.
Qed.

(** A signal that holds a window, with a spectral band that divides. *)
Lemma to_peaks_built (signal : list float)
  (window_size overlap spectral_band temporal_band peaks_per_bin : Z) :
  overlap < window_size ->
  1 <= window_size <= Z.of_nat (length signal) ->
  spectral_band <> 0 \/ window_size = 1 ->
  exists bins,
    make_bins
      (range ((Z.of_nat (length signal) - window_size) / (window_size - overlap) + 1))
      (spectrogram signal window_size overlap) spectral_band temporal_band = Ok bins /\
    to_peaks signal window_size overlap spectral_band temporal_band peaks_per_bin =
    Ok (select_peaks bins peaks_per_bin).
Proof.
  intros Hstep Hws Hcase.
  destruct (to_peaks_spectrogram signal window_size overlap spectral_band temporal_band
              peaks_per_bin Hstep Hws) as [Hnw ->].
  destruct (Z.eq_dec spectral_band 0) as [Hsb|Hsb].
  + destruct Hcase as [|Hone]; [contradiction|].
    rewrite Hsb, make_bins_zero, cells_empty_rows.
    * exists []. split; reflexivity.
    * intros values Hin. apply spectrogram_rows in Hin. rewrite Hone in Hin.
      change (Z.max 0 1 / 2) with 0 in Hin.
      destruct values; [reflexivity | cbn [length] in Hin; lia].
  + rewrite make_bins_nonzero by assumption. eexists. split; reflexivity.
Qed.

(** X5. The outcomes of [to_peaks].  A zero step ([window_size = overlap])
    fails with [ZeroDivisionError].  For [0 <= overlap < window_size], a
    signal shorter than a window fails with [ValueError]; a signal that
    holds a window fails with [ZeroDivisionError] when the spectral band is
    zero and a frame has a frequency ([window_size >= 2]), and otherwise
    returns the peak map selected from the bins of the magnitude matrix.
    ([window_size] and [temporal_band] within 64 bits.) *)
Theorem to_peaks_outcome (signal : list float)
  (window_size overlap spectral_band temporal_band peaks_per_bin : Z) :
  let L := Z.of_nat (length signal) in
  let num_windows := (L - window_size) / (window_size - overlap) + 1 in
  (window_size = overlap ->
   to_peaks signal window_size overlap spectral_band temporal_band peaks_per_bin =
   Raise ZeroDivisionError) /\
  (0 <= overlap < window_size -> L < window_size -> window_size < 2 ^ 63 ->
   to_peaks signal window_size overlap spectral_band temporal_band peaks_per_bin =
   Raise ValueError) /\
  (0 <= overlap < window_size -> 2 <= window_size <= L -> int64 temporal_band ->
   spectral_band = 0 ->
   to_peaks signal window_size overlap spectral_band temporal_band peaks_per_bin =
   Raise ZeroDivisionError) /\
  (0 <= overlap < window_size -> 1 <= window_size <= L -> int64 temporal_band ->
   spectral_band <> 0 \/ window_size = 1 ->
   exists bins,
     make_bins (range num_windows) (spectrogram signal window_size overlap)
       spectral_band temporal_band = Ok bins /\
     to_peaks signal window_size overlap spectral_band temporal_band peaks_per_bin =
     Ok (select_peaks bins peaks_per_bin)).
Proof.
  intros L num_windows.
  split; [|split; [|split]].
  - intros E.
    pose proof (rolling_window_outcome signal window_size overlap true) as (H0 & _).
    cbv zeta in H0. unfold to_peaks. rewrite H0 by lia. reflexivity.
  - intros [_ Hstep] Hshort _. apply to_peaks_short; [assumption | now left].
  - intros [_ Hstep] Hws _ Hsb.
    destruct (to_peaks_spectrogram signal window_size overlap spectral_band temporal_band
                peaks_per_bin Hstep ltac:(lia)) as [Hnw ->].
    fold L num_windows in Hnw |- *. rewrite Hsb, make_bins_zero.
    destruct (range_head num_windows Hnw) as [rest Hrange].
    unfold spectrogram. fold L num_windows. rewrite Hrange. simpl map.
    destruct (spectrum (frame_at signal (window_size - overlap) window_size 0))
      as [|x values] eqn:E.
    { apply (f_equal (fun l => Z.of_nat (length l))) in E.
      rewrite spectrum_length, frame_at_length in E. simpl in E.
      assert (1 <= Z.of_nat (Z.to_nat window_size) / 2)
        by (apply Z.div_le_lower_bound; lia).
      lia. }
    pose proof (cells_first_row 0 rest x values
      (map (fun i => spectrum (frame_at signal (window_size - overlap) window_size i))
         rest)) as Hne.
    destruct (cells _ _); [congruence | reflexivity].
  - intros [_ Hstep] Hws _ Hcase. now apply to_peaks_built.
Qed.

(** X6. Samples after the last whole window do not count: with a positive
    step, appending to a signal (that holds a window) samples that do not
    complete a further window leaves the outcome of [to_peaks] as it is. *)
Theorem to_peaks_ignores_trailing_samples (signal extra : list float)
  (window_size overlap spectral_band temporal_band peaks_per_bin : Z) :
  overlap < window_size ->
  1 <= window_size <= Z.of_nat (length signal) ->
  (Z.of_nat (length signal) + Z.of_nat (length extra) - window_size)
    / (window_size - overlap) =
  (Z.of_nat (length signal) - window_size) / (window_size - overlap) ->
  to_peaks (signal ++ extra) window_size overlap spectral_band temporal_band peaks_per_bin =
  to_peaks signal window_size overlap spectral_band temporal_band peaks_per_bin.
Proof.
  intros Hstep Hws Hq.
  destruct (to_peaks_spectrogram signal window_size overlap spectral_band temporal_band
              peaks_per_bin Hstep Hws) as [Hnw ->].
  destruct (to_peaks_spectrogram (signal ++ extra) window_size overlap spectral_band
              temporal_band peaks_per_bin Hstep) as [_ ->].
  { rewrite length_app. lia. }
  unfold spectrogram. rewrite length_app, Nat2Z.inj_add, Hq.
  set (L := Z.of_nat (length signal)) in *.
  set (step_size := window_size - overlap) in *.
  set (num_windows := (L - window_size) / step_size + 1) in *.
  replace (map (fun i => spectrum (frame_at (signal ++ extra) step_size window_size i))
             (range num_windows))
    with (map (fun i => spectrum (frame_at signal step_size window_size i))
            (range num_windows)); [reflexivity|].
  apply map_ext_in. intros i Hi. apply in_range in Hi. f_equal.
  assert (Hpos : 0 < step_size) by (unfold step_size; lia).
  pose proof (last_window_fits L window_size step_size Hpos) as Hfit.
  fold num_windows in Hfit.
  assert (Hin : i * step_size + window_size <= L) by nia.
  rewrite !frame_at_slice; try nia; [|rewrite length_app; nia].
  rewrite skipn_app, firstn_app, length_skipn.
  replace (Z.to_nat window_size - (length signal - Z.to_nat (i * step_size)))%nat
    with 0%nat by (unfold L in Hin; nia).
  simpl firstn at 2. now rewrite app_nil_r.
Qed.

(** X7. The peak map [to_peaks] returns is well formed: its frequency
    indices are distinct and lie in [0, window_size // 2); under each of
    them the list of frame indices is not empty, has no repetition and
    holds window indices only, from [0] to [num_windows - 1]. *)
Theorem to_peaks_well_formed (signal : list float)
  (window_size overlap spectral_band temporal_band peaks_per_bin : Z)
  (windows : view) (num_windows : Z) (peaks : Dict.t (list Z)) :
  rolling_window signal window_size overlap true = Ok (windows, num_windows) ->
  to_peaks signal window_size overlap spectral_band temporal_band peaks_per_bin = Ok peaks ->
  NoDup (Dict.keys peaks) /\
  forall f frames,
    In (f, frames) peaks ->
    0 <= f < window_size / 2 /\ frames <> [] /\ NoDup frames /\
    forall w, In w frames -> 0 <= w < num_windows.
Proof.
  intros Hrw Hpeaks.
  pose proof (to_peaks_keys_NoDup _ _ _ _ _ _ _ Hpeaks) as Hkeys.
  split; [exact Hkeys|]. intros f frames Hin.
  assert (Hframes : frames = frames_of peaks f).
  { unfold frames_of, Dict.get_default. now rewrite (In_get Z.eq_dec _ _ _ Hkeys Hin). }
  assert (Hf : In f (Dict.keys peaks)).
  { change f with (fst (f, frames)). now apply in_map. }
  pose proof (to_peaks_frames_nonempty _ _ _ _ _ _ _ f Hpeaks Hf) as Hne.
  rewrite <- Hframes in Hne.
  assert (Hw : forall w, In w frames -> 0 <= w < num_windows).
  { intros w Hw. rewrite Hframes in Hw.
    destruct (to_peaks_entry _ _ _ _ _ _ _ _ _ f w Hrw Hpeaks Hw) as (_ & _ & _ & _ & H).
    exact H. }
  split; [|split; [exact Hne|split; [|exact Hw]]].
  - destruct frames as [|w frames]; [congruence|].
    assert (Hw0 : In w (frames_of peaks f)) by (rewrite <- Hframes; now left).
    destruct (to_peaks_entry _ _ _ _ _ _ _ _ _ f w Hrw Hpeaks Hw0)
      as (magnitudes & v & Hmag & Hv & _).
    destruct (rolling_window_shape _ _ _ _ _ _ Hrw) as (Hshape & Hnw & Hws).
    apply in_cells in Hv as (_ & Hf0 & values & Hrow & Hval).
    split; [exact Hf0|].
    assert (Hlen : (Z.to_nat f < length values)%nat).
    { apply nth_error_Some. congruence. }
    apply nth_error_In in Hrow.
    unfold np_apply_along_axis in Hmag. rewrite Hshape in Hmag. simpl fst in Hmag.
    destruct (num_windows =? 0); [discriminate|].
    destruct (traverse_In _ _ _ _ Hmag Hrow) as (i & _ & Hi).
    apply bind_Ok_inv in Hi as (r & Hr & Hfm).
    apply fourier_magnitudes_Ok_length in Hfm.
    unfold row in Hr. apply traverse_length in Hr.
    rewrite Hshape, range_length in Hr. simpl snd in Hr.
    rewrite Hr in Hfm.
    replace (Z.of_nat (Z.to_nat window_size)) with window_size in Hfm by lia.
    lia.
  - rewrite Hframes. exact (to_peaks_NoDup _ _ _ _ _ _ _ f Hpeaks).
Qed.

End PeakMapClaims.

(** ** Delay estimator: bounds, symmetry, shifts *)

Lemma count_difference_Permutation (d : Z) (xs ys : list (Z * Z)) :
  Permutation xs ys -> count_difference d xs = count_difference d ys.
Proof.
  intros H. unfold count_difference.
  now rewrite (Permutation_length (Permutation_filter (has_difference d) H)).
Qed.

Lemma count_difference_ext (d e : Z) (g : Z * Z -> Z * Z) (xs : list (Z * Z)) :
  (forall ab, has_difference d (g ab) = has_difference e ab) ->
  count_difference d (map g xs) = count_difference e xs.
Proof.
  intros H. induction xs as [|ab xs IH]; [reflexivity|].
  simpl map. rewrite !count_difference_cons, IH, H. reflexivity.
Qed.

(** Pairing the frames the other way round mirrors the differences. *)
Lemma count_difference_prod_cons_r (d a : Z) (l1 l2 : list Z) :
  count_difference d (list_prod l2 (a :: l1)) =
  count_difference d (map (fun b => (b, a)) l2) + count_difference d (list_prod l2 l1).
Proof.
  induction l2 as [|b l2 IH]; [reflexivity|].
  simpl list_prod. simpl map.
  rewrite !count_difference_cons, !count_difference_app, IH. lia.
Qed.

Lemma count_difference_prod_swap (d : Z) (l1 l2 : list Z) :
  count_difference (- d) (list_prod l1 l2) = count_difference d (list_prod l2 l1).
Proof.
  induction l1 as [|a l1 IH].
  - simpl. induction l2 as [|b l2 IH2]; [reflexivity | exact IH2].
  - simpl list_prod. rewrite count_difference_app, IH, count_difference_prod_cons_r.
    f_equal. rewrite <- (map_id l2) at 1. rewrite map_map.
    rewrite <- (count_difference_ext (- d) d (fun ab => (snd ab, fst ab))
                  (map (fun b => (b, a)) l2)).
    + now rewrite map_map.
    + intros [x y]. unfold has_difference. simpl.
      destruct (Z.eqb_spec (y - x) (- d)), (Z.eqb_spec (x - y) d); try reflexivity; lia.
Qed.

Lemma count_difference_flat_swap (d : Z) (F G : Z -> list Z) (ks : list Z) :
  count_difference (- d) (flat_map (fun f => list_prod (F f) (G f)) ks) =
  count_difference d (flat_map (fun f => list_prod (G f) (F f)) ks).
Proof.
  induction ks as [|k ks IH]; [reflexivity|].
  simpl. now rewrite !count_difference_app, IH, count_difference_prod_swap.
Qed.

(** Reading the two maps the other way round mirrors the votes. *)
Lemma votes_swap (base other : Dict.t (K:=Z) (list Z)) (d : Z) :
  NoDup (Dict.keys base) -> NoDup (Dict.keys other) ->
  votes other base (- d) = votes base other d.
Proof.
  intros Hb Ho. unfold votes, cross.
  rewrite count_difference_flat_swap.
  apply count_difference_Permutation, Permutation_flat_map.
  apply NoDup_Permutation.
  - unfold shared. now apply NoDup_filter.
  - unfold shared. now apply NoDup_filter.
  - intros f. rewrite !in_shared. tauto.
Qed.

(** Moving the frames of the other map moves the differences. *)
Lemma count_difference_prod_shift (d k : Z) (l1 l2 : list Z) :
  count_difference d (list_prod (map (Z.add k) l1) l2) =
  count_difference (d - k) (list_prod l1 l2).
Proof.
  induction l1 as [|a l1 IH]; [reflexivity|].
  simpl map. simpl list_prod. rewrite !count_difference_app, IH. f_equal.
  rewrite <- (count_difference_ext d (d - k) (fun ab => (k + fst ab, snd ab))
                (map (fun y => (a, y)) l2)).
  - now rewrite map_map.
  - intros [x y]. unfold has_difference. simpl.
    destruct (Z.eqb_spec (k + x - y) d), (Z.eqb_spec (x - y) (d - k)); try reflexivity; lia.
Qed.

Lemma get_shift_frames (k : Z) (peaks : Dict.t (K:=Z) (list Z)) (f : Z) :
  Dict.get Z.eq_dec (shift_frames k peaks) f =
  option_map (map (Z.add k)) (Dict.get Z.eq_dec peaks f).
Proof.
  induction peaks as [|[f' frames] peaks IH]; [reflexivity|].
  simpl. destruct (Z.eq_dec f f'); [reflexivity | exact IH].
Qed.

Lemma keys_shift_frames (k : Z) (peaks : Dict.t (K:=Z) (list Z)) :
  Dict.keys (shift_frames k peaks) = Dict.keys peaks.
Proof. unfold Dict.keys, shift_frames. rewrite map_map. reflexivity. Qed.

Lemma frames_of_shift_frames (k : Z) (peaks : Dict.t (K:=Z) (list Z)) (f : Z) :
  frames_of (shift_frames k peaks) f = map (Z.add k) (frames_of peaks f).
Proof.
  unfold frames_of, Dict.get_default. rewrite get_shift_frames.
  now destruct (Dict.get Z.eq_dec peaks f).
Qed.

Lemma votes_shift_frames (base other : Dict.t (K:=Z) (list Z)) (k d : Z) :
  votes base (shift_frames k other) d = votes base other (d - k).
Proof.
  unfold votes, cross, shared. rewrite keys_shift_frames.
  induction (filter (Dict.contains Z.eq_dec base) (Dict.keys other)) as [|f ks IH];
    [reflexivity|].
  simpl. rewrite !count_difference_app, IH, frames_of_shift_frames.
  now rewrite count_difference_prod_shift.
Qed.

Lemma shared_self (peaks : Dict.t (K:=Z) (list Z)) : shared peaks peaks = Dict.keys peaks.
Proof.
  unfold shared. apply filter_all. intros f Hf. now apply contains_keys.
Qed.

Section DelayEstimatorFurther.
Context {N : Numpy}.

Local Abbreviation peak_map := (Dict.t (K:=Z) (list Z)).

Lemma synchronize_Ok_inv (base_signal other_signal : list float)
  (window_size overlap spectral_band temporal_band peaks_per_bin d : Z) :
  synchronize base_signal other_signal window_size overlap spectral_band temporal_band
    peaks_per_bin = Ok d ->
  exists base other,
    to_peaks base_signal window_size overlap spectral_band temporal_band peaks_per_bin
      = Ok base /\
    to_peaks other_signal window_size overlap spectral_band temporal_band peaks_per_bin
      = Ok other /\
    estimate_delay base other = Ok d.
Proof.
  unfold synchronize. intros H.
  apply bind_Ok_inv in H as (base & Hb & H). apply bind_Ok_inv in H as (other & Ho & H).
  eauto.
Qed.

(** A vote is a pair of frames of a shared frequency. *)
Lemma votes_pos_pair (base other : peak_map) (d : Z) :
  0 < votes base other d ->
  exists f a b, In f (shared base other) /\ In a (frames_of other f) /\
                In b (frames_of base f) /\ a - b = d.
Proof.
  intros H. apply count_difference_pos in H as ([a b] & Hin & Hd).
  unfold cross in Hin. apply in_flat_map in Hin as (f & Hf & Hin).
  apply in_prod_iff in Hin as [Ha Hb]. exists f, a, b. auto.
Qed.

Lemma cross_nonempty (base other : peak_map) (f : Z) :
  In f (shared base other) -> frames_of other f <> [] -> frames_of base f <> [] ->
  cross base other <> [].
Proof.
  intros Hf Ho Hb E.
  destruct (frames_of other f) as [|a la] eqn:Ea; [congruence|].
  destruct (frames_of base f) as [|b lb] eqn:Eb; [congruence|].
  assert (Hin : In (a, b) (cross base other)).
  { unfold cross. apply in_flat_map. exists f. split; [assumption|].
    rewrite Ea, Eb. apply in_prod; now left. }
  rewrite E in Hin. contradiction.
Qed.

Lemma estimate_delay_succeeds (base other : peak_map) :
  cross base other <> [] -> exists d, estimate_delay base other = Ok d.
Proof.
  intros Hne. pose proof (estimate_delay_outcome base other) as Hout.
  destruct (Dict.keys (count_differences (cross base other))) as [|k rest].
  - destruct Hout as [E _]. contradiction.
  - destruct Hout as [_ E]. eauto.
Qed.

Lemma estimate_delay_fails (base other : peak_map) :
  cross base other = [] -> estimate_delay base other = Raise ValueError.
Proof.
  intros Hc. pose proof (estimate_delay_outcome base other) as Hout.
  rewrite Hc in Hout. simpl in Hout. apply Hout.
Qed.

(** X8. A delay returned by [synchronize] is the difference of a window
    index of the other signal and a window index of the base signal: it
    lies strictly between minus the number of windows of the base signal
    and the number of windows of the other signal. *)
Theorem synchronize_delay_bounds (base_signal other_signal : list float)
  (window_size overlap spectral_band temporal_band peaks_per_bin : Z)
  (base_windows other_windows : view) (base_num_windows other_num_windows d : Z) :
  rolling_window base_signal window_size overlap true =
    Ok (base_windows, base_num_windows) ->
  rolling_window other_signal window_size overlap true =
    Ok (other_windows, other_num_windows) ->
  synchronize base_signal other_signal window_size overlap spectral_band temporal_band
    peaks_per_bin = Ok d ->
  - base_num_windows < d < other_num_windows.
Proof.
  intros Hb Ho H.
  apply synchronize_Ok_inv in H as (base & other & Hbase & Hother & Hd).
  apply estimate_delay_Ok in Hd as [Hpos _].
  apply votes_pos_pair in Hpos as (f & a & b & _ & Ha & Hb' & <-).
  destruct (to_peaks_entry _ _ _ _ _ _ _ _ _ f a Ho Hother Ha) as (_ & _ & _ & _ & Hra).
  destruct (to_peaks_entry _ _ _ _ _ _ _ _ _ f b Hb Hbase Hb') as (_ & _ & _ & _ & Hrb).
  lia.
Qed.

(** X9. Once both peak maps are built, [synchronize] returns a delay
    exactly when the two maps have a frequency index in common, and raises
    [ValueError] exactly when they have none. *)
Theorem synchronize_succeeds_iff_shared (base_signal other_signal : list float)
  (window_size overlap spectral_band temporal_band peaks_per_bin : Z)
  (base other : peak_map) :
  to_peaks base_signal window_size overlap spectral_band temporal_band peaks_per_bin
    = Ok base ->
  to_peaks other_signal window_size overlap spectral_band temporal_band peaks_per_bin
    = Ok other ->
  ((exists d, synchronize base_signal other_signal window_size overlap spectral_band
                temporal_band peaks_per_bin = Ok d) <->
   exists f, In f (Dict.keys base) /\ In f (Dict.keys other)) /\
  (synchronize base_signal other_signal window_size overlap spectral_band temporal_band
     peaks_per_bin = Raise ValueError <->
   forall f, ~ (In f (Dict.keys base) /\ In f (Dict.keys other))).
Proof.
  intros Hb Ho. rewrite (synchronize_stages _ _ _ _ _ _ _ _ _ Hb Ho).
  assert (Hyes : (exists f, In f (Dict.keys base) /\ In f (Dict.keys other)) ->
                 exists d, estimate_delay base other = Ok d).
  { intros (f & Hfb & Hfo). apply estimate_delay_succeeds.
    apply (cross_nonempty base other f).
    - apply in_shared. auto.
    - exact (to_peaks_frames_nonempty _ _ _ _ _ _ _ f Ho Hfo).
    - exact (to_peaks_frames_nonempty _ _ _ _ _ _ _ f Hb Hfb). }
  assert (Hno : (forall f, ~ (In f (Dict.keys base) /\ In f (Dict.keys other))) ->
                estimate_delay base other = Raise ValueError).
  { intros Hnone. apply estimate_delay_fails. unfold cross.
    destruct (shared base other) as [|f l] eqn:E; [reflexivity|]. exfalso.
    apply (Hnone f), in_shared. rewrite E. now left. }
  split; split.
  - intros [d Hd]. apply estimate_delay_Ok in Hd as [Hpos _].
    apply votes_pos_pair in Hpos as (f & _ & _ & Hf & _). apply in_shared in Hf. eauto.
  - exact Hyes.
  - intros E f Hf. destruct (Hyes (ex_intro _ f Hf)) as [d Hd]. congruence.
  - exact Hno.
Qed.

(** X10. Exchanging the two signals mirrors the histogram: every offset
    [d] of one order has the votes of [-d] in the other.  Hence, when
    [synchronize] returns [d] for one order it returns for the other order
    an offset [d'] whose mirror [-d'] has as many votes as [d] (so
    [d' = -d] when the greatest count is reached once). *)
Theorem synchronize_exchange (base_signal other_signal : list float)
  (window_size overlap spectral_band temporal_band peaks_per_bin : Z)
  (base other : peak_map) :
  to_peaks base_signal window_size overlap spectral_band temporal_band peaks_per_bin
    = Ok base ->
  to_peaks other_signal window_size overlap spectral_band temporal_band peaks_per_bin
    = Ok other ->
  (forall d, votes other base (- d) = votes base other d) /\
  (forall d,
     synchronize base_signal other_signal window_size overlap spectral_band temporal_band
       peaks_per_bin = Ok d ->
     exists d',
       synchronize other_signal base_signal window_size overlap spectral_band
         temporal_band peaks_per_bin = Ok d' /\
       votes base other (- d') = votes base other d /\
       ((forall e, e <> d -> votes base other e < votes base other d) -> d' = - d)).
Proof.
  intros Hb Ho.
  pose proof (to_peaks_keys_NoDup _ _ _ _ _ _ _ Hb) as Hkb.
  pose proof (to_peaks_keys_NoDup _ _ _ _ _ _ _ Ho) as Hko.
  assert (Hswap : forall d, votes other base (- d) = votes base other d)
    by (intros d; now apply votes_swap).
  split; [exact Hswap|]. intros d Hd.
  rewrite (synchronize_stages _ _ _ _ _ _ _ _ _ Hb Ho) in Hd.
  rewrite (synchronize_stages _ _ _ _ _ _ _ _ _ Ho Hb).
  apply estimate_delay_Ok in Hd as [Hpos Hmax].
  assert (Hne : cross other base <> []).
  { intros E. specialize (Hswap d). unfold votes in Hswap at 1. rewrite E in Hswap.
    unfold count_difference in Hswap. simpl in Hswap. lia. }
  destruct (estimate_delay_succeeds other base Hne) as [d' Hd'].
  exists d'. split; [exact Hd'|].
  apply estimate_delay_Ok in Hd' as [_ Hmax'].
  assert (Heq : votes base other (- d') = votes base other d).
  { pose proof (Hmax (- d')). pose proof (Hmax' (- d)) as H'.
    rewrite Hswap in H'. rewrite <- (Z.opp_involutive d') in H' at 1.
    rewrite Hswap in H'. lia. }
  split; [exact Heq|].
  intros Huniq. destruct (Z.eq_dec (- d') d) as [E|Hdiff]; [lia|].
  specialize (Huniq (- d') Hdiff). lia.
Qed.

(** X11. When the peak map of the other signal is the peak map of the base
    signal with every frame index moved by [k] frames, the estimator
    returns [k]: a pure shift of the landmarks is recovered exactly. *)
Theorem estimate_delay_shifted (signal : list float)
  (window_size overlap spectral_band temporal_band peaks_per_bin : Z)
  (peaks : peak_map) (k : Z) :
  to_peaks signal window_size overlap spectral_band temporal_band peaks_per_bin = Ok peaks ->
  peaks <> [] ->
  estimate_delay peaks (shift_frames k peaks) = Ok k.
Proof.
  intros Hpeaks Hne.
  assert (Hnd : forall f, NoDup (frames_of peaks f))
    by (intros f; exact (to_peaks_NoDup _ _ _ _ _ _ _ f Hpeaks)).
  destruct peaks as [|[f0 frames0] rest] eqn:Ep; [congruence|]. rewrite <- Ep in *.
  assert (Hf0 : In f0 (Dict.keys peaks)) by (rewrite Ep; now left).
  pose proof (to_peaks_frames_nonempty _ _ _ _ _ _ _ f0 Hpeaks Hf0) as Hne0.
  assert (Hshared : shared peaks (shift_frames k peaks) = Dict.keys peaks).
  { unfold shared. rewrite keys_shift_frames. apply shared_self. }
  assert (Hvotes : forall d,
            votes peaks (shift_frames k peaks) d =
            count_difference (d - k)
              (flat_map (fun f => list_prod (frames_of peaks f) (frames_of peaks f))
                 (Dict.keys peaks))).
  { intros d. rewrite votes_shift_frames. unfold votes, cross. now rewrite shared_self. }
  assert (Hcross : cross peaks (shift_frames k peaks) <> []).
  { apply (cross_nonempty _ _ f0).
    - rewrite Hshared. exact Hf0.
    - rewrite frames_of_shift_frames. intros E. apply map_eq_nil in E. contradiction.
    - exact Hne0. }
  destruct (estimate_delay_succeeds _ _ Hcross) as [d Hd].
  rewrite Hd. f_equal.
  apply estimate_delay_Ok in Hd as [_ Hmax]. specialize (Hmax k).
  rewrite !Hvotes, Z.sub_diag in Hmax.
  destruct (Z.eq_dec (d - k) 0) as [E|Hdk]; [lia | exfalso].
  pose proof (self_votes_lt (frames_of peaks) (Dict.keys peaks) (d - k) Hnd Hdk
                (ex_intro _ f0 (conj Hf0 Hne0))). lia.
Qed.

(** X13. For [0 <= overlap < window_size], a spectral band other than
    zero (and [window_size], [temporal_band] within 64 bits),
    [synchronize] raises [ValueError] whenever one of the two signals is
    shorter than a window; when both signals hold a window it returns a
    delay or raises [ValueError] (from [max] on the empty histogram). *)
Theorem synchronize_raises_only_ValueError (base_signal other_signal : list float)
  (window_size overlap spectral_band temporal_band peaks_per_bin : Z) :
  0 <= overlap < window_size ->
  window_size < 2 ^ 63 ->
  int64 temporal_band ->
  spectral_band <> 0 ->
  (Z.of_nat (length base_signal) < window_size \/
   Z.of_nat (length other_signal) < window_size ->
   synchronize base_signal other_signal window_size overlap spectral_band temporal_band
     peaks_per_bin = Raise ValueError) /\
  (window_size <= Z.of_nat (length base_signal) ->
   window_size <= Z.of_nat (length other_signal) ->
   (exists d, synchronize base_signal other_signal window_size overlap spectral_band
                temporal_band peaks_per_bin = Ok d) \/
   synchronize base_signal other_signal window_size overlap spectral_band temporal_band
     peaks_per_bin = Raise ValueError).
Proof.
  intros [Hov Hstep] _ _ Hsb. split.
  - intros Hshort. unfold synchronize.
    destruct (Z.lt_ge_cases (Z.of_nat (length base_signal)) window_size) as [Hb|Hb].
    + rewrite (to_peaks_short base_signal) by auto. reflexivity.
    + destruct (to_peaks_built base_signal window_size overlap spectral_band temporal_band
                  peaks_per_bin Hstep ltac:(lia) (or_introl Hsb)) as (bins & _ & ->).
      simpl bind. rewrite (to_peaks_short other_signal); [reflexivity | assumption |].
      left. destruct Hshort; [lia | assumption].
  - intros Hb Ho. unfold synchronize.
    destruct (to_peaks_built base_signal window_size overlap spectral_band temporal_band
                peaks_per_bin Hstep ltac:(lia) (or_introl Hsb)) as (bbins & _ & ->).
    destruct (to_peaks_built other_signal window_size overlap spectral_band temporal_band
                peaks_per_bin Hstep ltac:(lia) (or_introl Hsb)) as (obins & _ & ->).
    simpl bind.
    destruct (cross (select_peaks bbins peaks_per_bin) (select_peaks obins peaks_per_bin))
      as [|pair pairs] eqn:E.
    + right. now apply estimate_delay_fails.
    + left. apply estimate_delay_succeeds. rewrite E. discriminate.
Qed.

End DelayEstimatorFurther.

(** ** The number of peaks *)

Lemma filter_length_mono {A : Type} (p q : A -> bool) (l : list A) :
  (forall x, In x l -> p x = true -> q x = true) ->
  (length (filter p l) <= length (filter q l))%nat.
Proof.
  induction l as [|x l IH]; intros H; simpl; [lia|].
  assert (IH' := IH (fun y Hy => H y (or_intror Hy))).
  destruct (p x) eqn:Ep.
  - rewrite (H x (or_introl eq_refl) Ep). simpl. lia.
  - destruct (q x); simpl; lia.
Qed.

Section PeakCount.
Context {N : Numpy}.

Local Abbreviation in_window w0 := (fun p : peak => peak_window p =? w0).

(** The cells of one window are as many as the values of its row. *)
Lemma cells_row_count (ws : list Z) (magnitudes : list (list float)) (w0 : Z) (n : nat) :
  NoDup ws -> length ws = length magnitudes -> In w0 ws ->
  (forall values, In values magnitudes -> length values = n) ->
  length (filter (in_window w0) (cells ws magnitudes)) = n.
Proof.
  revert magnitudes; induction ws as [|w ws IH]; intros [|values magnitudes] Hnd Hlen Hin Hrows;
    try (simpl in Hlen; discriminate); [contradiction|].
  inversion Hnd as [|? ? Hw Hnd']; subst.
  rewrite cells_cons, filter_app, length_app.
  destruct (Z.eq_dec w w0) as [->|Hne].
  - rewrite filter_all, length_map.
    + rewrite filter_none.
      * unfold enumerate. rewrite length_combine, range_length, Nat2Z.id.
        rewrite (Hrows values (or_introl eq_refl)). simpl. lia.
      * intros p Hp. apply cells_window in Hp. apply Z.eqb_neq. congruence.
    + intros p Hp. apply in_map_iff in Hp as ([f v] & <- & _). apply Z.eqb_refl.
  - rewrite filter_none.
    + simpl. apply IH; auto.
      * destruct Hin; [contradiction | assumption].
      * intros; apply Hrows; now right.
    + intros p Hp. apply in_map_iff in Hp as ([f v] & <- & _).
      apply Z.eqb_neq. exact Hne.
Qed.

(** When every bin has at least [ppb] cells, each contributes [ppb]. *)
Lemma selected_length_full (bins : Dict.t (list peak)) (ppb : Z) :
  (forall b l, In (b, l) bins -> (Z.to_nat ppb <= length l)%nat) ->
  length (selected bins ppb) = (Z.to_nat ppb * length bins)%nat.
Proof.
  unfold selected. induction bins as [|[b l] bins IH]; intros H; simpl; [lia|].
  rewrite length_app, nlargest_length, IH by (intros; eapply H; right; eauto).
  pose proof (H b l (or_introl eq_refl)). lia.
Qed.

(** The entries of a peak map are as many as the selected cells. *)
Lemma select_peaks_count (bins : Dict.t (list peak)) (ppb : Z) :
  length (flat_map snd (select_peaks bins ppb)) = length (selected bins ppb).
Proof.
  rewrite select_peaks_grouped.
  rewrite (Permutation_length
    (grouped_Permutation Z.eq_dec peak_frequency peak_window (selected bins ppb) [])).
  simpl. apply length_map.
Qed.

(** X12. For [0 <= overlap < window_size] and a signal that holds a
    window, with one spectral block ([spectral_band >= window_size // 2],
    as with the default parameters 1024 and 512) and [peaks_per_bin] at most
    the number of frequencies of a frame, [to_peaks] keeps exactly
    [peaks_per_bin] peaks per temporal block: the peak map has
    [peaks_per_bin * ceil(num_windows / temporal_band)] entries in all. *)
Theorem to_peaks_count (signal : list float)
  (window_size overlap spectral_band temporal_band peaks_per_bin : Z) :
  0 <= overlap < window_size ->
  2 <= window_size <= Z.of_nat (length signal) ->
  0 < temporal_band < 2 ^ 63 ->
  window_size / 2 <= spectral_band ->
  0 <= peaks_per_bin <= window_size / 2 ->
  let num_windows :=
    (Z.of_nat (length signal) - window_size) / (window_size - overlap) + 1 in
  exists peaks,
    to_peaks signal window_size overlap spectral_band temporal_band peaks_per_bin
      = Ok peaks /\
    Z.of_nat (length (flat_map snd peaks)) =
    peaks_per_bin * ((num_windows + temporal_band - 1) / temporal_band).
Proof.
  intros [_ Hstep] Hws [Htb _] Hsb Hppb num_windows.
  assert (Hhalf : 1 <= window_size / 2) by (apply Z.div_le_lower_bound; lia).
  destruct (to_peaks_spectrogram signal window_size overlap spectral_band temporal_band
              peaks_per_bin Hstep ltac:(lia)) as [Hnw ->].
  fold num_windows in Hnw |- *.
  rewrite make_bins_nonzero by lia. simpl bind.
  set (S := spectrogram signal window_size overlap).
  set (all := cells (range num_windows) S).
  set (bins := Dict.grouped bin_eq_dec (bin_of temporal_band spectral_band)
                 (fun p : peak => p) all []).
  eexists. split; [reflexivity|].
  assert (HlenS : length S = Z.to_nat num_windows).
  { unfold S. rewrite spectrogram_length. reflexivity. }
  assert (Hrange : range num_windows = range (Z.of_nat (length S))).
  { rewrite HlenS. f_equal. lia. }
  assert (Hrow : forall values, In values S -> length values = Z.to_nat (window_size / 2)).
  { intros values Hin. apply spectrogram_rows in Hin.
    replace (Z.max 0 window_size) with window_size in Hin by lia. lia. }
  assert (Hcell : forall v w f, In (v, w, f) all ->
            0 <= w < num_windows /\ 0 <= f < window_size / 2).
  { intros v w f Hin. split.
    - apply cells_window, in_range in Hin. exact Hin.
    - unfold all in Hin. rewrite Hrange in Hin.
      apply in_cells in Hin as (_ & Hf & values & Hvalues & Hv).
      apply nth_error_In in Hvalues. apply Hrow in Hvalues.
      assert ((Z.to_nat f < length values)%nat) by (apply nth_error_Some; congruence).
      lia. }
  assert (Hblock : forall v w f, In (v, w, f) all ->
            bin_of temporal_band spectral_band (v, w, f) = (w / temporal_band, 0)).
  { intros v w f Hin. destruct (Hcell v w f Hin) as [_ Hf].
    unfold bin_of, peak_window, peak_frequency. simpl. f_equal.
    apply Z.div_small. lia. }
  rewrite select_peaks_count, selected_length_full.
  - (* the number of bins *)
    assert (Hbins : length bins =
                    Z.to_nat ((num_windows + temporal_band - 1) / temporal_band)).
    { rewrite <- (length_map fst bins). change (map fst bins) with (Dict.keys bins).
      rewrite <- (range_length ((num_windows + temporal_band - 1) / temporal_band)).
      rewrite <- (length_map (fun t => (t, 0))
                    (range ((num_windows + temporal_band - 1) / temporal_band))).
      apply Permutation_length, NoDup_Permutation.
      - apply bins_NoDup.
      - apply Finite.Injective_map_NoDup; [|apply NoDup_range].
        intros x y [= ->]. reflexivity.
      - intros b. unfold bins. rewrite keys_grouped, in_map_iff. simpl. split.
        + intros [[]|([[v w] f] & <- & Hin)]. apply in_map_iff.
          exists (w / temporal_band). split; [symmetry; now apply Hblock|].
          apply in_range. apply temporal_block_range; [assumption|].
          apply (Hcell v w f Hin).
        + intros Hb. apply in_map_iff in Hb as (t & <- & Ht).
          apply in_range in Ht. right.
          assert (Hw : 0 <= t * temporal_band < num_windows).
          { split; [nia|].
            replace (num_windows + temporal_band - 1)
              with (num_windows - 1 + 1 * temporal_band) in Ht by lia.
            rewrite Z.div_add in Ht by lia.
            pose proof (Z.mul_div_le (num_windows - 1) temporal_band Htb). nia. }
          destruct (nth_error S (Z.to_nat (t * temporal_band))) as [values|] eqn:Ev.
          2:{ apply nth_error_None in Ev. lia. }
          pose proof (Hrow values (nth_error_In _ _ Ev)) as Hlen.
          destruct values as [|v values]; [simpl in Hlen; lia|].
          assert (Hin : In (v, t * temporal_band, 0) all).
          { unfold all. rewrite Hrange. apply in_cells.
            split; [lia|]. split; [lia|]. exists (v :: values).
            split; [exact Ev | reflexivity]. }
          exists (v, t * temporal_band, 0). split; [|exact Hin].
          rewrite (Hblock _ _ _ Hin). f_equal. apply Z.div_mul. lia. }
    rewrite Hbins.
    assert (0 <= (num_windows + temporal_band - 1) / temporal_band)
      by (apply Z.div_pos; lia).
    nia.
  - (* every bin holds a whole row *)
    intros b l Hin. pose proof (proj1 (bins_In _ _ _ _ _) Hin) as [Hne ->].
    destruct (filter (in_bin temporal_band spectral_band b) all) as [|[[v0 w0] f0] rest]
      eqn:E; [congruence|].
    assert (Hp0 : In (v0, w0, f0) (filter (in_bin temporal_band spectral_band b) all))
      by (rewrite E; now left).
    rewrite <- E. apply filter_In in Hp0 as [Hp0 Hb0]. apply in_bin_true in Hb0.
    rewrite (Hblock _ _ _ Hp0) in Hb0.
    apply Nat.le_trans with (length (filter (in_window w0) all)).
    + pose proof (cells_row_count (range num_windows) S w0 (Z.to_nat (window_size / 2))
                    (NoDup_range num_windows)) as Hcount.
      fold all in Hcount. rewrite Hcount.
      * lia.
      * now rewrite range_length.
      * apply (cells_window _ _ _ Hp0).
      * exact Hrow.
    + apply filter_length_mono. intros [[v w] f] Hp Hw.
      unfold peak_window in Hw. simpl in Hw. apply Z.eqb_eq in Hw. subst w.
      apply in_bin_true. rewrite (Hblock _ _ _ Hp). exact Hb0.
Qed.

End PeakCount.

(** ** The further properties on concrete inputs *)

(** X1 on five samples, windows of two samples overlapping by one. *)
Lemma rolling_window_adds_no_padding_witness :
  1 < 2 /\
  rolling_window (N:=RealNumpy) [1; 2; 3; 4; 5]%R 2 1 true =
    Ok ({| buffer := [1; 2; 3; 4; 5]%R; shape := (4, 2); strides := (1, 1) |}, 4) /\
  buffer {| buffer := [1; 2; 3; 4; 5]%R; shape := (4, 2); strides := (1, 1) |} =
    [1; 2; 3; 4; 5]%R.
Proof.
  assert (H : 1 < 2) by lia.
  assert (H2 : rolling_window (N:=RealNumpy) [1; 2; 3; 4; 5]%R 2 1 true =
               Ok ({| buffer := [1; 2; 3; 4; 5]%R; shape := (4, 2); strides := (1, 1) |}, 4))
    by reflexivity.
  split; [exact H|]. split; [exact H2|].
  exact (proj2 (rolling_window_adds_no_padding (N:=RealNumpy) [1; 2; 3; 4; 5]%R 2 1 H)
           _ _ H2).
Defined.

(** X2 on five samples, windows of two samples three samples apart (a
    negative overlap), not padded. *)
Lemma rolling_window_rows_are_slices_witness :
  -1 < 2 /\
  rolling_window (N:=RealNumpy) [1; 2; 3; 4; 5]%R 2 (-1) false =
    Ok ({| buffer := [1; 2; 3; 4; 5]%R; shape := (2, 2); strides := (3, 1) |}, 2) /\
  0 <= 1 < 2 /\
  row (N:=RealNumpy) {| buffer := [1; 2; 3; 4; 5]%R; shape := (2, 2); strides := (3, 1) |} 1 =
    Ok [4; 5]%R.
Proof.
  assert (H1 : -1 < 2) by lia.
  assert (H2 : rolling_window (N:=RealNumpy) [1; 2; 3; 4; 5]%R 2 (-1) false =
               Ok ({| buffer := [1; 2; 3; 4; 5]%R; shape := (2, 2); strides := (3, 1) |}, 2))
    by reflexivity.
  assert (H3 : 0 <= 1 < 2) by lia.
  split; [exact H1|]. split; [exact H2|]. split; [exact H3|].
  exact (proj2 (rolling_window_rows_are_slices (N:=RealNumpy) _ _ _ _ _ _ H1 H2 1 H3)).
Defined.

(** X3 on five samples, windows of three samples overlapping by two. *)
Lemma consecutive_frames_overlap_witness :
  0 <= 2 < 3 /\
  rolling_window (N:=RealNumpy) [1; 2; 3; 4; 5]%R 3 2 true =
    Ok ({| buffer := [1; 2; 3; 4; 5]%R; shape := (3, 3); strides := (1, 1) |}, 3) /\
  0 <= 0 /\ 0 + 1 < 3 /\
  exists frame next,
    row (N:=RealNumpy)
      {| buffer := [1; 2; 3; 4; 5]%R; shape := (3, 3); strides := (1, 1) |} 0 = Ok frame /\
    row (N:=RealNumpy)
      {| buffer := [1; 2; 3; 4; 5]%R; shape := (3, 3); strides := (1, 1) |} (0 + 1) = Ok next /\
    skipn (Z.to_nat (3 - 2)) frame = firstn (Z.to_nat 2) next.
Proof.
  assert (H1 : 0 <= 2 < 3) by lia.
  assert (H2 : rolling_window (N:=RealNumpy) [1; 2; 3; 4; 5]%R 3 2 true =
               Ok ({| buffer := [1; 2; 3; 4; 5]%R; shape := (3, 3); strides := (1, 1) |}, 3))
    by reflexivity.
  assert (H3 : 0 <= 0) by lia.
  assert (H4 : 0 + 1 < 3) by lia.
  split; [exact H1|]. split; [exact H2|]. split; [exact H3|]. split; [exact H4|].
  destruct (consecutive_frames_overlap (N:=RealNumpy) _ _ _ _ _ _ H1 H2 0 H3 H4)
    as (frame & next & Hf & Hn & _ & _ & Hshare).
  exists frame, next. split; [exact Hf|]. split; [exact Hn | exact Hshare].
Defined.

(** X4 on five samples and windows of two samples: two frames, the fifth
    sample in none. *)
Lemma frames_tile_signal_witness :
  0 < 2 /\
  rolling_window (N:=RealNumpy) [1; 2; 3; 4; 5]%R 2 0 true =
    Ok ({| buffer := [1; 2; 3; 4; 5]%R; shape := (2, 2); strides := (2, 1) |}, 2) /\
  exists frames,
    traverse (row (N:=RealNumpy)
                {| buffer := [1; 2; 3; 4; 5]%R; shape := (2, 2); strides := (2, 1) |})
      (range 2) = Ok frames /\
    concat frames = [1; 2; 3; 4]%R.
Proof.
  assert (H1 : 0 < 2) by lia.
  assert (H2 : rolling_window (N:=RealNumpy) [1; 2; 3; 4; 5]%R 2 0 true =
               Ok ({| buffer := [1; 2; 3; 4; 5]%R; shape := (2, 2); strides := (2, 1) |}, 2))
    by reflexivity.
  split; [exact H1|]. split; [exact H2|].
  destruct (frames_tile_signal (N:=RealNumpy) _ _ _ _ _ H1 H2)
    as (_ & frames & Hrows & Hconcat & _).
  exists frames. split; [exact Hrows | exact Hconcat].
Defined.

(** X5 on a signal of two samples and the default parameters. *)
Lemma to_peaks_outcome_witness :
  0 <= 0 < 1024 /\ Z.of_nat (length [1; 1]%R) < 1024 /\ 1024 < 2 ^ 63 /\
  to_peaks (N:=RealNumpy) [1; 1]%R 1024 0 512 43 7 = Raise ValueError.
Proof.
  assert (H1 : 0 <= 0 < 1024) by lia.
  assert (H2 : Z.of_nat (length [1; 1]%R) < 1024) by (simpl; lia).
  assert (H3 : 1024 < 2 ^ 63) by reflexivity.
  split; [exact H1|]. split; [exact H2|]. split; [exact H3|].
  exact (proj1 (proj2 (to_peaks_outcome (N:=RealNumpy) [1; 1]%R 1024 0 512 43 7))
           H1 H2 H3).
Defined.

(** X6 on a constant frame followed by a tone, with two more samples. *)
Lemma to_peaks_ignores_trailing_samples_witness :
  0 < 4 /\ 1 <= 4 <= Z.of_nat (length [1; 1; 1; 1; 1; 0; -1; 0]%R) /\
  (Z.of_nat (length [1; 1; 1; 1; 1; 0; -1; 0]%R) + Z.of_nat (length [5; 5]%R) - 4) / (4 - 0) =
  (Z.of_nat (length [1; 1; 1; 1; 1; 0; -1; 0]%R) - 4) / (4 - 0) /\
  to_peaks (N:=RealNumpy) ([1; 1; 1; 1; 1; 0; -1; 0] ++ [5; 5])%R 4 0 2 1 1 =
  to_peaks (N:=RealNumpy) [1; 1; 1; 1; 1; 0; -1; 0]%R 4 0 2 1 1.
Proof.
  assert (H1 : 0 < 4) by lia.
  assert (H2 : 1 <= 4 <= Z.of_nat (length [1; 1; 1; 1; 1; 0; -1; 0]%R)) by (simpl; lia).
  assert (H3 : (Z.of_nat (length [1; 1; 1; 1; 1; 0; -1; 0]%R)
                + Z.of_nat (length [5; 5]%R) - 4) / (4 - 0) =
               (Z.of_nat (length [1; 1; 1; 1; 1; 0; -1; 0]%R) - 4) / (4 - 0))
    by reflexivity.
  split; [exact H1|]. split; [exact H2|]. split; [exact H3|].
  exact (to_peaks_ignores_trailing_samples (N:=RealNumpy) _ _ 4 0 2 1 1 H1 H2 H3).
Defined.

(** X7 on a constant frame followed by a tone. *)
Lemma to_peaks_well_formed_witness :
  rolling_window (N:=RealNumpy) [1; 1; 1; 1; 1; 0; -1; 0]%R 4 0 true =
    Ok ({| buffer := [1; 1; 1; 1; 1; 0; -1; 0]%R; shape := (2, 4); strides := (4, 1) |}, 2) /\
  to_peaks (N:=RealNumpy) [1; 1; 1; 1; 1; 0; -1; 0]%R 4 0 2 1 1 =
    Ok [(0, [0]); (1, [1])] /\
  NoDup (Dict.keys [(0, [0]); (1, [1])]) /\
  forall f frames,
    In (f, frames) [(0, [0]); (1, [1])] ->
    0 <= f < 4 / 2 /\ frames <> [] /\ NoDup frames /\
    forall w, In w frames -> 0 <= w < 2.
Proof.
  assert (H1 : rolling_window (N:=RealNumpy) [1; 1; 1; 1; 1; 0; -1; 0]%R 4 0 true =
               Ok ({| buffer := [1; 1; 1; 1; 1; 0; -1; 0]%R;
                      shape := (2, 4); strides := (4, 1) |}, 2))
    by reflexivity.
  split; [exact H1|]. split; [exact to_peaks_base|].
  exact (to_peaks_well_formed (N:=RealNumpy) _ _ _ _ _ _ _ _ _ H1 to_peaks_base).
Defined.

(** X8 on a signal of two windows and the same signal delayed by one frame
    of silence. *)
Lemma synchronize_delay_bounds_witness :
  rolling_window (N:=RealNumpy) [1; 1; 1; 1; 1; 0; -1; 0]%R 4 0 true =
    Ok ({| buffer := [1; 1; 1; 1; 1; 0; -1; 0]%R; shape := (2, 4); strides := (4, 1) |}, 2) /\
  rolling_window (N:=RealNumpy) [0; 0; 0; 0; 1; 1; 1; 1; 1; 0; -1; 0]%R 4 0 true =
    Ok ({| buffer := [0; 0; 0; 0; 1; 1; 1; 1; 1; 0; -1; 0]%R;
           shape := (3, 4); strides := (4, 1) |}, 3) /\
  synchronize (N:=RealNumpy) [1; 1; 1; 1; 1; 0; -1; 0]%R
    [0; 0; 0; 0; 1; 1; 1; 1; 1; 0; -1; 0]%R 4 0 2 1 1 = Ok 1 /\
  - 2 < 1 < 3.
Proof.
  assert (H1 : rolling_window (N:=RealNumpy) [1; 1; 1; 1; 1; 0; -1; 0]%R 4 0 true =
               Ok ({| buffer := [1; 1; 1; 1; 1; 0; -1; 0]%R;
                      shape := (2, 4); strides := (4, 1) |}, 2))
    by reflexivity.
  assert (H2 : rolling_window (N:=RealNumpy) [0; 0; 0; 0; 1; 1; 1; 1; 1; 0; -1; 0]%R 4 0 true =
               Ok ({| buffer := [0; 0; 0; 0; 1; 1; 1; 1; 1; 0; -1; 0]%R;
                      shape := (3, 4); strides := (4, 1) |}, 3))
    by reflexivity.
  split; [exact H1|]. split; [exact H2|]. split; [exact synchronize_delayed|].
  exact (synchronize_delay_bounds (N:=RealNumpy) _ _ _ _ _ _ _ _ _ _ _ 1
           H1 H2 synchronize_delayed).
Defined.

(** X9 on the same two signals: the frequencies 0 and 1 are common. *)
Lemma synchronize_succeeds_iff_shared_witness :
  to_peaks (N:=RealNumpy) [1; 1; 1; 1; 1; 0; -1; 0]%R 4 0 2 1 1 =
    Ok [(0, [0]); (1, [1])] /\
  to_peaks (N:=RealNumpy) [0; 0; 0; 0; 1; 1; 1; 1; 1; 0; -1; 0]%R 4 0 2 1 1 =
    Ok [(0, [0; 1]); (1, [2])] /\
  ((exists d, synchronize (N:=RealNumpy) [1; 1; 1; 1; 1; 0; -1; 0]%R
                [0; 0; 0; 0; 1; 1; 1; 1; 1; 0; -1; 0]%R 4 0 2 1 1 = Ok d) <->
   exists f, In f (Dict.keys [(0, [0]); (1, [1])]) /\
             In f (Dict.keys [(0, [0; 1]); (1, [2])])).
Proof.
  split; [exact to_peaks_base|]. split; [exact to_peaks_delayed|].
  exact (proj1 (synchronize_succeeds_iff_shared (N:=RealNumpy) _ _ _ _ _ _ _ _ _
                  to_peaks_base to_peaks_delayed)).
Defined.

(** X10 on the same two signals: the delay 1 one way, an offset with the
    votes of -1 the other way. *)
Lemma synchronize_exchange_witness :
  to_peaks (N:=RealNumpy) [1; 1; 1; 1; 1; 0; -1; 0]%R 4 0 2 1 1 =
    Ok [(0, [0]); (1, [1])] /\
  to_peaks (N:=RealNumpy) [0; 0; 0; 0; 1; 1; 1; 1; 1; 0; -1; 0]%R 4 0 2 1 1 =
    Ok [(0, [0; 1]); (1, [2])] /\
  synchronize (N:=RealNumpy) [1; 1; 1; 1; 1; 0; -1; 0]%R
    [0; 0; 0; 0; 1; 1; 1; 1; 1; 0; -1; 0]%R 4 0 2 1 1 = Ok 1 /\
  exists d',
    synchronize (N:=RealNumpy) [0; 0; 0; 0; 1; 1; 1; 1; 1; 0; -1; 0]%R
      [1; 1; 1; 1; 1; 0; -1; 0]%R 4 0 2 1 1 = Ok d' /\
    votes [(0, [0]); (1, [1])] [(0, [0; 1]); (1, [2])] (- d') =
    votes [(0, [0]); (1, [1])] [(0, [0; 1]); (1, [2])] 1.
Proof.
  split; [exact to_peaks_base|]. split; [exact to_peaks_delayed|].
  split; [exact synchronize_delayed|].
  destruct (proj2 (synchronize_exchange (N:=RealNumpy) _ _ _ _ _ _ _ _ _
                     to_peaks_base to_peaks_delayed) 1 synchronize_delayed)
    as (d' & Hd' & Hvotes & _).
  exists d'. split; [exact Hd' | exact Hvotes].
Defined.

(** X11 on the peak map of a constant frame followed by a tone, moved by
    three frames. *)
Lemma estimate_delay_shifted_witness :
  to_peaks (N:=RealNumpy) [1; 1; 1; 1; 1; 0; -1; 0]%R 4 0 2 1 1 =
    Ok [(0, [0]); (1, [1])] /\
  [(0, [0]); (1, [1])] <> [] /\
  estimate_delay [(0, [0]); (1, [1])] (shift_frames 3 [(0, [0]); (1, [1])]) = Ok 3.
Proof.
  assert (H : [(0, [0]); (1, [1])] <> (@nil (Z * list Z))) by discriminate.
  split; [exact to_peaks_base|]. split; [exact H|].
  exact (estimate_delay_shifted (N:=RealNumpy) _ _ _ _ _ _ _ 3 to_peaks_base H).
Defined.

(** X12 on 2048 samples and the default parameters: two windows, one
    temporal block, seven peaks. *)
Lemma to_peaks_count_witness :
  0 <= 0 < 1024 /\ 2 <= 1024 <= Z.of_nat (length (repeat 0%R 2048)) /\
  0 < 43 < 2 ^ 63 /\ 1024 / 2 <= 512 /\ 0 <= 7 <= 1024 / 2 /\
  exists peaks,
    to_peaks (N:=RealNumpy) (repeat 0%R 2048) 1024 0 512 43 7 = Ok peaks /\
    Z.of_nat (length (flat_map snd peaks)) = 7.
Proof.
  assert (H1 : 0 <= 0 < 1024) by lia.
  assert (H2 : 2 <= 1024 <= Z.of_nat (length (repeat 0%R 2048)))
    by (rewrite repeat_length; lia).
  assert (H3 : 0 < 43 < 2 ^ 63) by (split; reflexivity).
  assert (H4 : 1024 / 2 <= 512) by (now vm_compute).
  assert (H5 : 0 <= 7 <= 1024 / 2) by (split; now vm_compute).
  split; [exact H1|]. split; [exact H2|]. split; [exact H3|]. split; [exact H4|].
  split; [exact H5|].
  destruct (to_peaks_count (N:=RealNumpy) (repeat 0%R 2048) 1024 0 512 43 7 H1 H2 H3 H4 H5)
    as (peaks & Hpeaks & Hcount).
  exists peaks. split; [exact Hpeaks|].
  rewrite Hcount, repeat_length. reflexivity.
Defined.

(** X13 on a signal of two samples against a signal of eight, with windows
    of four samples. *)
Lemma synchronize_raises_only_ValueError_witness :
  0 <= 0 < 4 /\ 4 < 2 ^ 63 /\ int64 1 /\ 2 <> 0 /\ Z.of_nat (length [1; 1]%R) < 4 /\
  synchronize (N:=RealNumpy) [1; 1]%R [1; 1; 1; 1; 1; 0; -1; 0]%R 4 0 2 1 1 =
  Raise ValueError.
Proof.
  assert (H1 : 0 <= 0 < 4) by lia.
  assert (H2 : 4 < 2 ^ 63) by reflexivity.
  assert (H3 : int64 1) by (split; [discriminate | reflexivity]).
  assert (H4 : 2 <> 0) by lia.
  assert (H5 : Z.of_nat (length [1; 1]%R) < 4) by (simpl; lia).
  split; [exact H1|]. split; [exact H2|]. split; [exact H3|]. split; [exact H4|].
  split; [exact H5|].
  exact (proj1 (synchronize_raises_only_ValueError (N:=RealNumpy) [1; 1]%R
                  [1; 1; 1; 1; 1; 0; -1; 0]%R 4 0 2 1 1 H1 H2 H3 H4) (or_introl H5)).
Defined.
